(** * abc-backend: the catalog service of [main.py], embedded and verified

    The service fronts a spreadsheet and a file store with a process-wide
    TTL cache and serves a profile and a list of cars over HTTP.  The
    development follows the layout of [main.py]: text helpers, the numeric
    parsers, the cache, the sheet and drive helpers, the loaders and the
    request handlers.  Python objects that are shared between the cache and
    the handlers live in an explicit heap, so that copying and mutation are
    visible; the external services, the clock and the random source are
    fields of the machine state. *)

From Stdlib Require Import ZArith QArith Lqa String Ascii.
From stdpp Require Import base option list gmap strings fin_maps.

Local Open Scope string_scope.
Local Open Scope Z_scope.

(** ** Python text primitives

    A [str] is modelled as a Rocq [string]; a character is a code point
    below 256.  [is_space] is [str.isspace] on that range. *)

Module PyStr.

Definition code (c : ascii) : N := N_of_ascii c.

Definition is_space (c : ascii) : bool :=
  let n := code c in
  ((9 <=? n) && (n <=? 13) || (28 <=? n) && (n <=? 32)
   || (n =? 133) || (n =? 160))%N.

Definition is_digit (c : ascii) : bool :=
  let n := code c in ((48 <=? n) && (n <=? 57))%N.

Definition digit_val (c : ascii) : N := (code c - 48)%N.

Fixpoint lstrip (s : string) : string :=
  match s with
  | String c s' => if is_space c then lstrip s' else s
  | EmptyString => EmptyString
  end.

Fixpoint rstrip (s : string) : string :=
  match s with
  | String c s' =>
      match rstrip s' with
      | EmptyString => if is_space c then EmptyString else String c EmptyString
      | r => String c r
      end
  | EmptyString => EmptyString
  end.

(** [s.strip()] *)
Definition strip (s : string) : string := rstrip (lstrip s).

(** [s.replace(c, "")] for a one-character [c] *)
Fixpoint remove_char (c : ascii) (s : string) : string :=
  match s with
  | String d s' =>
      if Ascii.eqb d c then remove_char c s' else String d (remove_char c s')
  | EmptyString => EmptyString
  end.

Definition lower_char (c : ascii) : ascii :=
  let n := code c in
  if ((65 <=? n) && (n <=? 90)
      || (192 <=? n) && (n <=? 222) && negb (n =? 215))%N
  then ascii_of_N (n + 32) else c.

(** [s.lower()] *)
Fixpoint lower (s : string) : string :=
  match s with
  | String c s' => String (lower_char c) (lower s')
  | EmptyString => EmptyString
  end.

(** [s.endswith(suffix)] *)
Definition endswith (s suffix : string) : bool :=
  let n := String.length s in
  let m := String.length suffix in
  (m <=? n)%nat && String.eqb (substring (n - m) m s) suffix.

(** A [str] is falsy exactly when it is empty. *)
Definition nonempty (s : string) : bool :=
  match s with EmptyString => false | _ => true end.

Definition all_space (s : string) : bool :=
  forallb is_space (list_ascii_of_string s).

(** Every character of [s] satisfies [p]. *)
Fixpoint all_chars (p : ascii → bool) (s : string) : bool :=
  match s with
  | String c s' => p c && all_chars p s'
  | EmptyString => true
  end.

(** How many characters of [s] satisfy [p]. *)
Fixpoint count_chars (p : ascii → bool) (s : string) : nat :=
  match s with
  | String c s' => ((if p c then 1 else 0) + count_chars p s')%nat
  | EmptyString => 0%nat
  end.

End PyStr.

(** ** The built-ins [int] and [float] on text

    Both built-ins first replace every white-space character from code
    point 127 on by a blank, then skip blanks in the C sense (tab to
    carriage return, and the space) at both ends: the separators 28 to 31,
    which [str.strip] removes, are not skipped.  They accept one sign and a
    single underscore between two digits.  [int] refuses a text of more than
    4300 digits (the interpreter's default limit); [float] rounds the
    decimal numeral to the nearest binary64 number, a tie going to the even
    mantissa, and gives an infinity beyond the largest finite number. *)

Module PyNum.
Import PyStr.

(** A binary64 datum.  A finite number is [(-1)^neg * mant * 2^exp2] with
    [mant < 2^53] and [-1074 <= exp2 <= 971]; zero is [mant = 0] at
    [exp2 = -1074]. *)
Inductive pyfloat :=
  | FNan (neg : bool)
  | FInf (neg : bool)
  | FFin (neg : bool) (mant : N) (exp2 : Z).

(** The rational denoted by a finite number. *)
Definition float_value (f : pyfloat) : option Q :=
  match f with
  | FFin neg m e =>
      let a := if neg then (- Z.of_N m)%Z else Z.of_N m in
      Some (if (0 <=? e)%Z then inject_Z (a * 2 ^ e)
            else Qmake a (Z.to_pos (2 ^ (- e))))
  | _ => None
  end.

(** [Py_ISSPACE] *)
Definition is_c_space (c : ascii) : bool :=
  let n := code c in ((9 <=? n) && (n <=? 13) || (n =? 32))%N.

(** What the built-ins make of the text before they read it: a character
    below 127 is kept, a white-space character from 127 on becomes a blank,
    and at any other character the text ends in a question mark.  (No
    character between 127 and 255 is a decimal digit.) *)
Fixpoint to_ascii (s : string) : string :=
  match s with
  | String c s' =>
      if (code c <? 127)%N then String c (to_ascii s')
      else if is_space c then String " " (to_ascii s')
      else "?"
  | EmptyString => EmptyString
  end.

Fixpoint lskip (p : ascii → bool) (s : string) : string :=
  match s with
  | String c s' => if p c then lskip p s' else s
  | EmptyString => EmptyString
  end.

Fixpoint rskip (p : ascii → bool) (s : string) : string :=
  match s with
  | String c s' =>
      match rskip p s' with
      | EmptyString => if p c then EmptyString else String c EmptyString
      | r => String c r
      end
  | EmptyString => EmptyString
  end.

(** The text between the blanks that the built-ins skip. *)
Definition c_strip (s : string) : string :=
  rskip is_c_space (lskip is_c_space (to_ascii s)).

(** Longest prefix of digits, and what follows it. *)
Fixpoint span_digits (s : string) : string * string :=
  match s with
  | String c s' =>
      if is_digit c
      then let '(d, r) := span_digits s' in (String c d, r)
      else (EmptyString, s)
  | EmptyString => (EmptyString, EmptyString)
  end.

Fixpoint digits_value (acc : N) (s : string) : N :=
  match s with
  | String c s' => digits_value (10 * acc + digit_val c)%N s'
  | EmptyString => acc
  end.

Definition all_digits (s : string) : bool := all_chars is_digit s.

(** Every underscore stands between two digits. *)
Fixpoint underscores_ok (prev_digit : bool) (s : string) : bool :=
  match s with
  | String c s' =>
      if Ascii.eqb c "_"
      then prev_digit
           && match s' with String d _ => is_digit d | EmptyString => false end
           && underscores_ok false s'
      else underscores_ok (is_digit c) s'
  | EmptyString => true
  end.

(** Splits off one leading sign; [true] stands for minus. *)
Definition take_sign (s : string) : bool * string :=
  match s with
  | String c s' =>
      if Ascii.eqb c "-" then (true, s')
      else if Ascii.eqb c "+" then (false, s')
      else (false, s)
  | EmptyString => (false, s)
  end.

(** [sys.int_info.default_max_str_digits] *)
Definition int_max_str_digits : N := 4300.

(** [int(s)] in base ten; [None] stands for [ValueError]. *)
Definition py_int (s : string) : option Z :=
  let '(neg, body) := take_sign (c_strip s) in
  if underscores_ok false body then
    let ds := remove_char "_" body in
    if nonempty ds && all_digits ds
       && (N.of_nat (String.length ds) <=? int_max_str_digits)%N
    then
      let n := Z.of_N (digits_value 0 ds) in
      Some (if neg then - n else n)
    else None
  else None.

(** The exponent part of a numeral: empty, or [e], a sign and digits. *)
Definition parse_exponent (s : string) : option Z :=
  match s with
  | EmptyString => Some 0
  | String c s' =>
      if Ascii.eqb c "e" || Ascii.eqb c "E" then
        let '(neg, body) := take_sign s' in
        match span_digits body with
        | (String d ds, EmptyString) =>
            let n := Z.of_N (digits_value 0 (String d ds)) in
            Some (if neg then - n else n)
        | _ => None
        end
      else None
  end.

(** [n / d] rounded to an integer, a tie going to the even neighbour. *)
Definition div_half_even (n d : Z) : Z :=
  let q := n / d in
  match 2 * (n mod d) ?= d with
  | Lt => q
  | Gt => q + 1
  | Eq => if Z.even q then q else q + 1
  end.

(** The binary64 number nearest to [n / d], for [0 <= n] and [0 < d], as
    mantissa and exponent; [None] when the rounded value is beyond the
    largest finite number.  [t] is the integer part of the binary logarithm
    of [n / d]. *)
Definition round_binary64 (n d : Z) : option (N * Z) :=
  if n =? 0 then Some (0%N, -1074)
  else
    let k := Z.log2 n - Z.log2 d in
    let t :=
      if (if 0 <=? k then d * 2 ^ k <=? n else d <=? n * 2 ^ (- k))
      then k else k - 1 in
    let e := Z.max (t - 52) (-1074) in
    let m :=
      if 0 <=? e then div_half_even n (d * 2 ^ e)
      else div_half_even (n * 2 ^ (- e)) d in
    let '(m, e) := if m =? 2 ^ 53 then (2 ^ 52, e + 1) else (m, e) in
    if 971 <? e then None else Some (Z.to_N m, e).

(** The float for the numeral [(-1)^neg * digits * 10^exp10]. *)
Definition float_of_decimal (neg : bool) (digits : N) (exp10 : Z) : pyfloat :=
  let r :=
    if 0 <=? exp10 then round_binary64 (Z.of_N digits * 10 ^ exp10) 1
    else round_binary64 (Z.of_N digits) (10 ^ (- exp10)) in
  match r with
  | Some (m, e) => FFin neg m e
  | None => FInf neg
  end.

(** The reader gives up on a numeral of more than [10^9] digits, leading
    zeros not counted, or with more than [10^9] digits after the point. *)
Definition MAX_DIGITS : N := 1000000000.

Definition digits_in_range (ip fp : string) : bool :=
  ((N.of_nat (String.length (lskip (Ascii.eqb "0") (ip ++ fp))) <=? MAX_DIGITS)
   && (N.of_nat (String.length fp) <=? MAX_DIGITS))%N.

(** [float(s)]; [None] stands for [ValueError].  After [to_ascii] every
    character is below 127, where [lower] is the C lower-casing. *)
Definition py_float (s : string) : option pyfloat :=
  let t := c_strip s in
  if underscores_ok false t then
    let '(neg, body) := take_sign (remove_char "_" t) in
    let '(ip, r1) := span_digits body in
    let '(fp, r2) :=
      match r1 with
      | String c r =>
          if Ascii.eqb c "." then span_digits r else (EmptyString, r1)
      | EmptyString => (EmptyString, r1)
      end in
    if nonempty ip || nonempty fp then
      match parse_exponent r2 with
      | Some e =>
          if digits_in_range ip fp then
            Some (float_of_decimal neg (digits_value 0 (ip ++ fp))
                                   (e - Z.of_nat (String.length fp)))
          else None
      | None => None
      end
    else
      let name := lower body in
      if String.eqb name "inf" || String.eqb name "infinity" then Some (FInf neg)
      else if String.eqb name "nan" then Some (FNan neg)
      else None
  else None.

End PyNum.

(** ** Objects, the heap and the machine state *)

(** The [dict] built for one car (a fixed set of literal keys).  The three
    keys that handlers add or remove are optional: [None] is "no such key".
    For [cover_image] the inner [None] is the Python value [None]. *)
Module Car.
Import PyNum.

Record t := mk {
  id : string;
  brand : string;
  model : string;
  year : option Z;
  price_usd : option pyfloat;
  price_krw : option pyfloat;
  mileage_km : option Z;
  engine : string;
  transmission : string;
  fuel : string;
  description : string;
  status : string;
  photos_folder_id : option string;
  cover_image : option (option string);
  photos : option (list string)
}.

(** [car["cover_image"] = v] *)
Definition set_cover_image (v : option string) (c : t) : t :=
  mk (id c) (brand c) (model c) (year c) (price_usd c) (price_krw c)
     (mileage_km c) (engine c) (transmission c) (fuel c) (description c)
     (status c) (photos_folder_id c) (Some v) (photos c).

(** [car["photos"] = v] *)
Definition set_photos (v : list string) (c : t) : t :=
  mk (id c) (brand c) (model c) (year c) (price_usd c) (price_krw c)
     (mileage_km c) (engine c) (transmission c) (fuel c) (description c)
     (status c) (photos_folder_id c) (cover_image c) (Some v).

(** [car.pop("photos_folder_id", None)] *)
Definition pop_photos_folder_id (c : t) : t :=
  mk (id c) (brand c) (model c) (year c) (price_usd c) (price_krw c)
     (mileage_km c) (engine c) (transmission c) (fuel c) (description c)
     (status c) None (cover_image c) (photos c).

End Car.

Import PyNum.

(** Values that appear as fields of a response object. *)
Inductive val :=
  | VNone
  | VStr (s : string)
  | VInt (z : Z)
  | VFloat (f : pyfloat)
  | VStrs (l : list string).

Definition opt_val {A} (f : A → val) (o : option A) : val :=
  match o with Some a => f a | None => VNone end.

Definition loc := nat.

(** A reference held in a Python variable. *)
Inductive handle := HNone | HRef (l : loc).

Inductive obj :=
  | ODict (d : gmap string val)
  | OCar (c : Car.t)
  | OList (items : list loc).

Record entry := { data : handle; ts : Q }.

Record file := { file_id : string; file_name : string }.
Record photo := { photo_id : string; url : string }.

(** Calls made to the spreadsheet and file services, oldest first. *)
Inductive call :=
  | SheetsGet (range : string)
  | SheetsAppend (range : string) (row : list string)
  | DriveList (folder : string).

Inductive exn :=
  | HttpError (service : string)
  | HTTPException (status_code : Z) (detail : string)
  | TypeError (what : string).

(** The outside: sheet tabs (rows of cells), folders, whether an append
    is refused, how long a remote call takes and the wall clock as text.
    A tab or folder that is not in the map makes the call raise. *)
Record world := {
  sheet_values : gmap string (list (list string));
  drive_files : gmap string (list file);
  append_fails : bool;
  latency : Q;
  utcnow_iso : string
}.

(** The process and its surroundings: the objects, the module-level
    [_cache], the reading of [time.time()] in seconds, the draws the random
    module will deliver, the outside, the remote calls made so far and what
    was printed. *)
Record state := {
  heap : list obj;
  cache : gmap string entry;
  clock : Q;
  tape : list nat;
  env : world;
  calls : list call;
  stdout : list (string * exn)
}.

Definition with_heap (h : list obj) (st : state) : state :=
  {| heap := h; cache := cache st; clock := clock st; tape := tape st;
     env := env st; calls := calls st; stdout := stdout st |}.
Definition with_cache (c : gmap string entry) (st : state) : state :=
  {| heap := heap st; cache := c; clock := clock st; tape := tape st;
     env := env st; calls := calls st; stdout := stdout st |}.
Definition with_tape (t : list nat) (st : state) : state :=
  {| heap := heap st; cache := cache st; clock := clock st; tape := t;
     env := env st; calls := calls st; stdout := stdout st |}.
Definition with_env (w : world) (st : state) : state :=
  {| heap := heap st; cache := cache st; clock := clock st; tape := tape st;
     env := w; calls := calls st; stdout := stdout st |}.
Definition with_stdout (o : list (string * exn)) (st : state) : state :=
  {| heap := heap st; cache := cache st; clock := clock st; tape := tape st;
     env := env st; calls := calls st; stdout := o |}.
(** A remote call is recorded and takes [latency] seconds. *)
Definition with_call (c : call) (st : state) : state :=
  {| heap := heap st; cache := cache st;
     clock := (clock st + latency (env st))%Q; tape := tape st;
     env := env st; calls := calls st ++ [c]; stdout := stdout st |}.

Definition with_sheet (name : string) (vs : list (list string)) (w : world)
  : world :=
  {| sheet_values := <[name := vs]> (sheet_values w);
     drive_files := drive_files w; append_fails := append_fails w;
     latency := latency w; utcnow_iso := utcnow_iso w |}.

(** ** Computations: state and exceptions *)

Definition M (A : Type) : Type := state → (exn + A) * state.

Definition ret {A} (a : A) : M A := fun st => (inr a, st).
Definition raise {A} (e : exn) : M A := fun st => (inl e, st).
Definition bind {A B} (m : M A) (k : A → M B) : M B :=
  fun st =>
    match m st with
    | (inr a, st') => k a st'
    | (inl e, st') => (inl e, st')
    end.
(** [try: m  except Exception as e: h e] *)
Definition try_except {A} (m : M A) (h : exn → M A) : M A :=
  fun st =>
    match m st with
    | (inr a, st') => (inr a, st')
    | (inl e, st') => h e st'
    end.
Definition gets {A} (f : state → A) : M A := fun st => (inr (f st), st).
Definition modify (f : state → state) : M unit := fun st => (inr tt, f st).

Notation "x <- m ;; k" := (bind m (fun x => k))
  (at level 100, m at next level, right associativity).
Notation "m ;; k" := (bind m (fun _ => k))
  (at level 100, right associativity).

(** [print(tag, e)] *)
Definition print (tag : string) (e : exn) : M unit :=
  modify (fun st => with_stdout (stdout st ++ [(tag, e)]) st).

(** [time.time()] *)
Definition time_time : M Q := gets clock.

(** *** Heap operations *)

Definition alloc (o : obj) : M loc :=
  fun st => (inr (length (heap st)), with_heap (heap st ++ [o]) st).

Definition load (l : loc) : M obj :=
  fun st =>
    match heap st !! l with
    | Some o => (inr o, st)
    | None => (inl (TypeError "dangling reference"), st)
    end.

Definition store (l : loc) (o : obj) : M unit :=
  modify (fun st => with_heap (<[l := o]> (heap st)) st).

(** [dict(c)]: a new object with the same items. *)
Definition dict_copy (c : loc) : M loc :=
  o <- load c ;;
  match o with
  | OList _ => raise (TypeError "dict() of a list")
  | _ => alloc o
  end.

(** An in-place update of the car at [l]. *)
Definition car_update (l : loc) (f : Car.t → Car.t) : M unit :=
  o <- load l ;;
  match o with
  | OCar c => store l (OCar (f c))
  | _ => raise (TypeError "not a car")
  end.

Definition car_read (l : loc) : M Car.t :=
  o <- load l ;;
  match o with
  | OCar c => ret c
  | _ => raise (TypeError "not a car")
  end.

(** [d[k] = v] on a plain dict. *)
Definition dict_setitem (l : loc) (k : string) (v : val) : M unit :=
  o <- load l ;;
  match o with
  | ODict d => store l (ODict (<[k := v]> d))
  | _ => raise (TypeError "not a dict")
  end.

(** The items of a list object, as iteration sees them. *)
Definition list_items (h : handle) : M (list loc) :=
  match h with
  | HNone => raise (TypeError "NoneType is not iterable")
  | HRef l =>
      o <- load l ;;
      match o with
      | OList items => ret items
      | _ => raise (TypeError "not a list")
      end
  end.

(** Truth value of an object: [None] and empty containers are false. *)
Definition truthy (h : handle) : M bool :=
  match h with
  | HNone => ret false
  | HRef l =>
      o <- load l ;;
      ret match o with
          | ODict d => negb (bool_decide (d = ∅))
          | OCar _ => true
          | OList items => negb (bool_decide (items = []))
          end
  end.

(** ** [main.py] *)

(** *** CONFIG *)

Definition HERO_FOLDER_ID : string := "1gaPqjlItG0YZcKt78CBKIhOXenjrRSW6".
Definition CACHE_TTL_CARS : Z := 300.
Definition CACHE_TTL_META : Z := 1800.
Definition USERS_SHEET : string := "users".

(** *** CACHE *)

(** [a > b] on clock readings *)
Definition Qgt_bool (a b : Q) : bool := negb (Qle_bool a b).

(** An item is the two-key dict written by [set_cache], never empty, so
    [if not item] only tests for a missing key. *)
Definition get_cached (key : string) (ttl : Z) : M handle :=
  item <- gets (fun st => cache st !! key) ;;
  match item with
  | None => ret HNone
  | Some item =>
      now <- time_time ;;
      if Qgt_bool (now - ts item) (inject_Z ttl) then ret HNone
      else ret (data item)
  end.

Definition set_cache (key : string) (d : handle) : M unit :=
  now <- time_time ;;
  modify (fun st => with_cache (<[key := {| data := d; ts := now |}]> (cache st)) st).

(** *** HELPERS *)

(** [sheets.spreadsheets().values().get(...).execute()], then
    [res.get("values", [])] *)
Definition sheets_get (range : string) : M (list (list string)) :=
  modify (with_call (SheetsGet range)) ;;
  tab <- gets (fun st => sheet_values (env st) !! range) ;;
  match tab with
  | Some values => ret values
  | None => raise (HttpError "sheets")
  end.

(** [for i, h in enumerate(headers): item[h] = row[i] if i < len(row) else ""] *)
Fixpoint fill_item (i : nat) (headers row : list string)
    (item : gmap string string) : gmap string string :=
  match headers with
  | [] => item
  | h :: hs => fill_item (S i) hs row (<[h := default "" (row !! i)]> item)
  end.

(** From [values] to [data]: the first row holds the headers. *)
Definition records_of (values : list (list string)) : list (gmap string string) :=
  match values with
  | [] => []
  | headers :: rows => map (fun row => fill_item 0 headers row ∅) rows
  end.

Definition read_sheet (sheet_name : string) : M (list (gmap string string)) :=
  values <- sheets_get sheet_name ;;
  ret (records_of values).

(** [v] is a cell or [None] (no such column); [int(None)] raises too. *)
Definition parse_int (v : option string) : option Z :=
  match v with
  | Some s => py_int s
  | None => None
  end.

Definition parse_float (v : option string) : option pyfloat :=
  match v with
  | None => None
  | Some s =>
      if PyStr.nonempty s
      then py_float (PyStr.strip (PyStr.remove_char "," (PyStr.remove_char "$" s)))
      else None
  end.

(** *** DRIVE *)

Definition drive_list (folder_id : string) : M (list file) :=
  modify (with_call (DriveList folder_id)) ;;
  res <- gets (fun st => drive_files (env st) !! folder_id) ;;
  match res with
  | Some files => ret files
  | None => raise (HttpError "drive")
  end.

Definition is_image (f : file) : bool :=
  let name := PyStr.lower (file_name f) in
  PyStr.endswith name ".jpg" || PyStr.endswith name ".jpeg"
  || PyStr.endswith name ".png".

Definition photo_of (f : file) : photo :=
  {| photo_id := file_id f;
     url := "https://lh3.googleusercontent.com/d/" ++ file_id f ++ "=w1200" |}.

Definition load_photos (folder_id : option string) : M (list photo) :=
  match folder_id with
  | None | Some EmptyString => ret []
  | Some fid =>
      files <- drive_list fid ;;
      ret (map photo_of (List.filter is_image files))
  end.

(** [photos[0]["url"] if photos else None] *)
Definition first_url (photos : list photo) : option string :=
  url <$> head photos.

Definition load_hero_image : M (option string) :=
  try_except
    (photos <- load_photos (Some HERO_FOLDER_ID) ;; ret (first_url photos))
    (fun e => print "HERO LOAD ERROR:" e ;; ret None).

(** *** LOADERS *)

Definition load_profile : M handle :=
  cached <- get_cached "profile" CACHE_TTL_META ;;
  hit <- truthy cached ;;
  if hit then ret cached
  else
    rows <- read_sheet "profile" ;;
    profile <- alloc (ODict (VStr <$> default ∅ (head rows))) ;;
    hero <- load_hero_image ;;
    dict_setitem profile "hero_image" (opt_val VStr hero) ;;
    set_cache "profile" (HRef profile) ;;
    ret (HRef profile).

(** [(r.get("id") or "").strip()] *)
Definition row_car_id (r : gmap string string) : string :=
  PyStr.strip (default "" (r !! "id")).

(** The row passes both [continue] tests. *)
Definition row_listed (r : gmap string string) : bool :=
  PyStr.nonempty (row_car_id r)
  && negb (bool_decide (r !! "status" = Some "hidden")).

(** The dict literal of [cars.append({...})]. *)
Definition car_of_row (r : gmap string string) : Car.t :=
  {| Car.id := row_car_id r;
     Car.brand := PyStr.strip (default "" (r !! "brand"));
     Car.model := PyStr.strip (default "" (r !! "model"));
     Car.year := parse_int (r !! "year");
     Car.price_usd := parse_float (r !! "price_usd");
     Car.price_krw := parse_float (r !! "price_krw");
     Car.mileage_km := parse_int (r !! "mileage_km");
     Car.engine := default "" (r !! "engine");
     Car.transmission := default "" (r !! "transmission");
     Car.fuel := default "" (r !! "fuel");
     Car.description := default "" (r !! "description");
     Car.status := default "active" (r !! "status");
     Car.photos_folder_id := Some (PyStr.strip (default "" (r !! "photos_folder_id")));
     Car.cover_image := None;
     Car.photos := None |}.

(** The [for r in rows] loop; [cars] is the list built so far. *)
Fixpoint build_cars (rows : list (gmap string string)) (cars : list loc)
    : M (list loc) :=
  match rows with
  | [] => ret cars
  | r :: rows' =>
      if PyStr.nonempty (row_car_id r) then
        if bool_decide (r !! "status" = Some "hidden") then build_cars rows' cars
        else
          c <- alloc (OCar (car_of_row r)) ;;
          build_cars rows' (cars ++ [c])
      else build_cars rows' cars
  end.

(** The random source: [randbelow n] takes the next draw from the tape. *)
Definition randbelow (n : nat) : M nat :=
  fun st =>
    match tape st with
    | [] => (inr 0%nat, st)
    | d :: t => (inr (d mod n)%nat, with_tape t st)
    end.

(** [x[i], x[j] = x[j], x[i]] *)
Definition swap {A} (i j : nat) (x : list A) : list A :=
  match x !! i, x !! j with
  | Some a, Some b => <[j := a]> (<[i := b]> x)
  | _, _ => x
  end.

(** [for i in reversed(range(1, len(x))): j = randbelow(i + 1); swap],
    entered with [i = len(x) - 1]. *)
Fixpoint shuffle_from {A} (i : nat) (x : list A) : M (list A) :=
  match i with
  | O => ret x
  | S i' =>
      j <- randbelow (S i) ;;
      shuffle_from i' (swap i j x)
  end.

Definition random_shuffle {A} (x : list A) : M (list A) :=
  shuffle_from (length x - 1) x.

Definition load_cars : M handle :=
  cached <- get_cached "cars" CACHE_TTL_CARS ;;
  hit <- truthy cached ;;
  if hit then ret cached
  else
    rows <- read_sheet "cars" ;;
    cars <- build_cars rows [] ;;
    cars <- random_shuffle cars ;;
    l <- alloc (OList cars) ;;
    set_cache "cars" (HRef l) ;;
    ret (HRef l).

(** *** USERS *)

Record request := {
  client_host : option string;
  user_agent : option string;
  path : string
}.

Definition sheets_append (range : string) (row : list string) : M unit :=
  modify (with_call (SheetsAppend range row)) ;;
  w <- gets env ;;
  match sheet_values w !! USERS_SHEET with
  | Some values =>
      if append_fails w then raise (HttpError "sheets")
      else modify (with_env (with_sheet USERS_SHEET (values ++ [row]) w))
  | None => raise (HttpError "sheets")
  end.

Definition append_user_event (req : request) (car_id : option string) : M unit :=
  try_except
    (ts <- gets (fun st => utcnow_iso (env st)) ;;
     let ip := default "" (client_host req) in
     let ua := default "" (user_agent req) in
     let row := [ts; ip; ua; path req; default "" car_id] in
     sheets_append (USERS_SHEET ++ "!A:E") row)
    (fun e => print "USER LOG ERROR:" e).

(** *** API *)

Definition health : M handle :=
  l <- alloc (ODict {["status" := VStr "ok"]}) ;;
  ret (HRef l).

Definition api_profile : M handle := load_profile.

(** The body of [for c in cars] in [api_cars]. *)
Definition enrich_cover (c : loc) : M loc :=
  car <- dict_copy c ;;
  c0 <- car_read car ;;
  photos <- load_photos (Car.photos_folder_id c0) ;;
  car_update car (Car.set_cover_image (first_url photos)) ;;
  car_update car Car.pop_photos_folder_id ;;
  ret car.

Fixpoint enrich_all (cars : list loc) (result : list loc) : M (list loc) :=
  match cars with
  | [] => ret result
  | c :: cars' =>
      car <- enrich_cover c ;;
      enrich_all cars' (result ++ [car])
  end.

Definition api_cars (req : request) : M handle :=
  append_user_event req None ;;
  cars <- load_cars ;;
  items <- list_items cars ;;
  result <- enrich_all items [] ;;
  l <- alloc (OList result) ;;
  ret (HRef l).

(** [next((c for c in cars if c["id"] == car_id), None)] *)
Fixpoint find_car (car_id : string) (cars : list loc) : M handle :=
  match cars with
  | [] => ret HNone
  | c :: cars' =>
      c0 <- car_read c ;;
      if String.eqb (Car.id c0) car_id then ret (HRef c)
      else find_car car_id cars'
  end.

Definition api_car_detail (car_id : string) (req : request) : M handle :=
  append_user_event req (Some car_id) ;;
  cars <- load_cars ;;
  items <- list_items cars ;;
  base <- find_car car_id items ;;
  found <- truthy base ;;
  if negb found then raise (HTTPException 404 "Car not found")
  else
    match base with
    | HNone => raise (TypeError "dict() of None")
    | HRef b =>
        car <- dict_copy b ;;
        c0 <- car_read car ;;
        photos <- load_photos (Car.photos_folder_id c0) ;;
        car_update car (Car.set_photos (map url photos)) ;;
        c1 <- car_read car ;;
        car_update car
          (Car.set_cover_image
             (match Car.photos c1 with
              | Some (u :: _) => Some u
              | _ => None
              end)) ;;
        car_update car Car.pop_photos_folder_id ;;
        ret (HRef car)
    end.

(** ** Responses *)

(** What FastAPI makes of a handler's outcome. *)
Definition status_code_of {A} (r : exn + A) : Z :=
  match r with
  | inr _ => 200
  | inl (HTTPException code _) => code
  | inl _ => 500
  end.

Definition fields := list (string * val).

(** The JSON object of a car dict: one member per key that is present. *)
Definition car_fields (c : Car.t) : fields :=
  ([("id", VStr (Car.id c)); ("brand", VStr (Car.brand c));
   ("model", VStr (Car.model c)); ("year", opt_val VInt (Car.year c));
   ("price_usd", opt_val VFloat (Car.price_usd c));
   ("price_krw", opt_val VFloat (Car.price_krw c));
   ("mileage_km", opt_val VInt (Car.mileage_km c));
   ("engine", VStr (Car.engine c));
   ("transmission", VStr (Car.transmission c)); ("fuel", VStr (Car.fuel c));
   ("description", VStr (Car.description c)); ("status", VStr (Car.status c))]
  ++ match Car.photos_folder_id c with
     | Some f => [("photos_folder_id", VStr f)]
     | None => []
     end
  ++ match Car.photos c with
     | Some us => [("photos", VStrs us)]
     | None => []
     end
  ++ match Car.cover_image c with
     | Some v => [("cover_image", opt_val VStr v)]
     | None => []
     end)%list.

Definition obj_fields (o : obj) : option fields :=
  match o with
  | ODict d => Some (map_to_list d)
  | OCar c => Some (car_fields c)
  | OList _ => None
  end.

(** A response body of this API: one object, or an array of objects. *)
Inductive body :=
  | BObj (f : fields)
  | BArr (items : list fields).

(** The body serialised from the object a handler returned. *)
Definition read_body (h : list obj) (r : handle) : option body :=
  match r with
  | HNone => None
  | HRef l =>
      match h !! l with
      | Some (OList items) =>
          BArr <$> mapM (fun i => h !! i ≫= obj_fields) items
      | Some o => BObj <$> obj_fields o
      | None => None
      end
  end.

Definition has_field (k : string) (f : fields) : bool :=
  existsb (fun kv => String.eqb (fst kv) k) f.

(** Some object of the body has a member named [k]. *)
Definition has_key (k : string) (b : body) : bool :=
  match b with
  | BObj f => has_field k f
  | BArr items => existsb (has_field k) items
  end.

(** ** Runs of the service *)

Definition with_clock (t : Q) (st : state) : state :=
  {| heap := heap st; cache := cache st; clock := t; tape := tape st;
     env := env st; calls := calls st; stdout := stdout st |}.

(** The process right after start-up: nothing allocated, nothing cached. *)
Definition boot (w : world) (now : Q) (t : list nat) : state :=
  {| heap := []; cache := ∅; clock := now; tape := t; env := w;
     calls := []; stdout := [] |}.

(** Between requests the outside may change in any way; a request runs one
    handler to its end, whether it returns or raises. *)
Inductive step : state → state → Prop :=
  | step_world st w : step st (with_env w st)
  | step_clock st t : step st (with_clock t st)
  | step_tape st t : step st (with_tape t st)
  | step_health st : step st (snd (health st))
  | step_profile st : step st (snd (api_profile st))
  | step_cars st req : step st (snd (api_cars req st))
  | step_detail st car_id req : step st (snd (api_car_detail car_id req st)).

Inductive reachable : state → Prop :=
  | reach_boot w now t : reachable (boot w now t)
  | reach_step st st' : reachable st → step st st' → reachable st'.

(** What the cache holds under ["cars"]: a list object whose items are car
    dicts, each the literal built from a row that passed both tests. *)
Definition listed_car (c : Car.t) : Prop :=
  ∃ r, row_listed r = true ∧ c = car_of_row r.

Definition cars_ok (h : list obj) (items : list loc) : Prop :=
  Forall (fun i => ∃ c, h !! i = Some (OCar c) ∧ listed_car c) items.

Definition cache_inv (st : state) : Prop :=
  ∀ e, cache st !! "cars" = Some e →
       ∃ l items, data e = HRef l ∧ heap st !! l = Some (OList items)
                  ∧ cars_ok (heap st) items.

(** The car dicts behind a handle to a list object. *)
Definition cars_of (h : list obj) (r : handle) : option (list Car.t) :=
  match r with
  | HNone => None
  | HRef l =>
      match h !! l with
      | Some (OList items) =>
          mapM (fun i => match h !! i with
                         | Some (OCar c) => Some c
                         | _ => None
                         end) items
      | _ => None
      end
  end.

(** The ids of the cars a loader call returned, in order. *)
Definition returned_ids (out : (exn + handle) * state) : option (list string) :=
  match fst out with
  | inr r => map Car.id <$> cars_of (heap (snd out)) r
  | inl _ => None
  end.

(** *** Parts of the loaders and handlers, named for the proofs *)

(** The branch of [load_cars] taken on a miss. *)
Definition reload_cars : M handle :=
  rows <- read_sheet "cars" ;;
  cars <- build_cars rows [] ;;
  cars <- random_shuffle cars ;;
  l <- alloc (OList cars) ;;
  set_cache "cars" (HRef l) ;;
  ret (HRef l).

(** The branch of [load_profile] taken on a miss. *)
Definition reload_profile : M handle :=
  rows <- read_sheet "profile" ;;
  profile <- alloc (ODict (VStr <$> default ∅ (head rows))) ;;
  hero <- load_hero_image ;;
  dict_setitem profile "hero_image" (opt_val VStr hero) ;;
  set_cache "profile" (HRef profile) ;;
  ret (HRef profile).

(** The row that [append_user_event] sends. *)
Definition event_row (req : request) (car_id : option string) (st : state)
  : list string :=
  [utcnow_iso (env st); default "" (client_host req);
   default "" (user_agent req); path req; default "" car_id].

(** The state that [append_user_event] leaves: the call is made; the row is
    in the users tab, or the failure is printed. *)
Definition logged (req : request) (car_id : option string) (st : state) : state :=
  let row := event_row req car_id st in
  let st1 := with_call (SheetsAppend (USERS_SHEET ++ "!A:E") row) st in
  let failed :=
    with_stdout (stdout st ++ [("USER LOG ERROR:", HttpError "sheets")])%list st1 in
  match sheet_values (env st) !! USERS_SHEET with
  | Some values =>
      if append_fails (env st) then failed
      else with_env (with_sheet USERS_SHEET (values ++ [row]) (env st)) st1
  | None => failed
  end.

(** [api_cars] after the event is logged. *)
Definition cars_body : M handle :=
  cars <- load_cars ;;
  items <- list_items cars ;;
  result <- enrich_all items [] ;;
  l <- alloc (OList result) ;;
  ret (HRef l).

(** [api_car_detail] from [car = dict(base)] on. *)
Definition enrich_detail (b : loc) : M handle :=
  car <- dict_copy b ;;
  c0 <- car_read car ;;
  photos <- load_photos (Car.photos_folder_id c0) ;;
  car_update car (Car.set_photos (map url photos)) ;;
  c1 <- car_read car ;;
  car_update car
    (Car.set_cover_image
       (match Car.photos c1 with
        | Some (u :: _) => Some u
        | _ => None
        end)) ;;
  car_update car Car.pop_photos_folder_id ;;
  ret (HRef car).

(** [api_car_detail] after the event is logged. *)
Definition detail_body (car_id : string) : M handle :=
  cars <- load_cars ;;
  items <- list_items cars ;;
  base <- find_car car_id items ;;
  found <- truthy base ;;
  if negb found then raise (HTTPException 404 "Car not found")
  else
    match base with
    | HNone => raise (TypeError "dict() of None")
    | HRef b => enrich_detail b
    end.

(** What [load_photos] returns for a folder in world [w]; [None] when the
    file service raises. *)
Definition folder_photos (w : world) (folder_id : option string)
  : option (list photo) :=
  match folder_id with
  | None | Some EmptyString => Some []
  | Some fid =>
      (fun files => map photo_of (List.filter is_image files))
        <$> drive_files w !! fid
  end.

(** The state after [load_photos]: a call is made unless the id is empty. *)
Definition after_drive (folder_id : option string) (st : state) : state :=
  match folder_id with
  | None | Some EmptyString => st
  | Some fid => with_call (DriveList fid) st
  end.

(** The car dict that the detail endpoint returns for [base]. *)
Definition detail_of (base : Car.t) (urls : list string) : Car.t :=
  Car.pop_photos_folder_id
    (Car.set_cover_image (head urls) (Car.set_photos urls base)).

(** The car dict that the list endpoint returns for [base]. *)
Definition cover_of (base : Car.t) (cover : option string) : Car.t :=
  Car.pop_photos_folder_id (Car.set_cover_image cover base).

(** A car dict as a handler returns it: without the folder id. *)
Definition stripped (h : list obj) (l : loc) : Prop :=
  ∃ c, h !! l = Some (OCar c) ∧ Car.photos_folder_id c = None.

(** The cars held in the cache are as [load_cars] built them: folder id in
    place, nothing added. *)
Definition cached_cars_intact (st : state) : Prop :=
  ∀ e, cache st !! "cars" = Some e →
       ∃ cs, cars_of (heap st) (data e) = Some cs
             ∧ Forall (fun c => is_Some (Car.photos_folder_id c)
                               ∧ Car.cover_image c = None
                               ∧ Car.photos c = None) cs.

(** ** Sample data for the worked instances *)

Module Demo.

Definition cars_tab : list (list string) :=
  [["id"; "brand"; "status"; "price_usd"; "photos_folder_id"];
   ["a1"; "Kia"; ""; "$12,345.00"; "f1"];
   ["  "; "Ghost"];
   ["b2"; "Audi"; "hidden"];
   ["c3"; " BMW "; "sold"; "n/a"]].

Definition w : world :=
  {| sheet_values :=
       {[ "cars" := cars_tab;
          "profile" := [["name"; "photos_folder_id"]; ["Bob"; "xyz"]];
          "users" := [] ]};
     drive_files :=
       {[ "f1" := [ {| file_id := "p1"; file_name := "01.JPG" |};
                    {| file_id := "p2"; file_name := "notes.txt" |};
                    {| file_id := "p3"; file_name := "02.png" |} ] ]};
     append_fails := false;
     latency := 1 # 4;
     utcnow_iso := "2024-05-01T10:00:00" |}.

Definition st0 : state := boot w 0 [5; 2; 7]%nat.

(** A catalog whose sheet has a header row and no car yet. *)
Definition w_empty : world :=
  {| sheet_values := {[ "cars" := [["id"; "brand"; "status"]]; "users" := [] ]};
     drive_files := ∅; append_fails := false; latency := 1 # 4;
     utcnow_iso := "2024-05-01T09:00:00" |}.

Definition st_empty : state := boot w_empty 0 [5; 2; 7]%nat.

(** A sheet with a status column, an empty status cell and a short row. *)
Definition w_status : world :=
  {| sheet_values :=
       {[ "cars" := [["id"; "status"]; ["a1"; ""]; ["b2"]]; "users" := [] ]};
     drive_files := ∅; append_fails := false; latency := 1 # 4;
     utcnow_iso := "2024-05-01T09:00:00" |}.

Definition st_status : state := boot w_status 0 [].

(** A profile tab with a header row and no profile row. *)
Definition w_bare : world :=
  {| sheet_values := {[ "profile" := [["name"; "bio"]]; "users" := [] ]};
     drive_files := ∅; append_fails := false; latency := 1 # 4;
     utcnow_iso := "2024-05-01T09:00:00" |}.

Definition st_bare : state := boot w_bare 0 [].

(** The spreadsheet service is down. *)
Definition w_down : world :=
  {| sheet_values := ∅; drive_files := ∅; append_fails := true;
     latency := 30; utcnow_iso := "2024-05-01T09:00:00" |}.

Definition st_down : state := boot w_down 0 [].

(** A profile tab with a [photos_folder_id] column and no profile row. *)
Definition w_headers : world :=
  {| sheet_values :=
       {[ "profile" := [["name"; "photos_folder_id"]]; "users" := [] ]};
     drive_files := ∅; append_fails := false; latency := 1 # 4;
     utcnow_iso := "2024-05-01T09:00:00" |}.

Definition st_headers : state := boot w_headers 0 [].

(** The text of [n] nines. *)
Definition nines (n : nat) : string := string_of_list_ascii (repeat "9"%char n).

Definition req : request :=
  {| client_host := Some "10.0.0.7"; user_agent := Some "curl/8";
     path := "/api/cars" |}.

Definition req_detail : request :=
  {| client_host := Some "10.0.0.7"; user_agent := Some "curl/8";
     path := "/api/cars/nope" |}.

End Demo.

(** ** Relating the state before and after a computation *)

(** [m] takes every state to an [R]-related one, whether it returns or
    raises. *)
Definition pres (R : relation state) {A} (m : M A) : Prop :=
  ∀ st, R st (snd (m st)).

(** Two states that differ at most in what concerns event logging: whether
    appends are refused, the users tab, and what was printed. *)
Definition agree (st1 st2 : state) : Prop :=
  heap st1 = heap st2 ∧ cache st1 = cache st2 ∧ clock st1 = clock st2
  ∧ tape st1 = tape st2 ∧ calls st1 = calls st2
  ∧ drive_files (env st1) = drive_files (env st2)
  ∧ latency (env st1) = latency (env st2)
  ∧ utcnow_iso (env st1) = utcnow_iso (env st2)
  ∧ ∀ name, name ≠ USERS_SHEET →
            sheet_values (env st1) !! name = sheet_values (env st2) !! name.

(** [m] cannot tell such states apart: same outcome, and the states it
    leaves differ no more than before. *)
Definition blind {A} (m : M A) : Prop :=
  ∀ st1 st2, agree st1 st2 →
    fst (m st1) = fst (m st2) ∧ agree (snd (m st1)) (snd (m st2)).

Definition with_append_fails (b : bool) (w : world) : world :=
  {| sheet_values := sheet_values w; drive_files := drive_files w;
     append_fails := b; latency := latency w; utcnow_iso := utcnow_iso w |}.

(** Objects are only added or freshly made: what was allocated stays. *)
Definition heap_grows (st st' : state) : Prop :=
  heap st `prefix_of` heap st'.

(** The frame of a request: old objects are untouched and the cache stays
    well formed. *)
Definition frame (st st' : state) : Prop :=
  heap_grows st st' ∧ (cache_inv st → cache_inv st').

(** Neither the heap nor the cache is touched. *)
Definition quiet (st st' : state) : Prop :=
  heap st' = heap st ∧ cache st' = cache st.

Definition same_cache (st st' : state) : Prop := cache st' = cache st.
Definition same_env (st st' : state) : Prop := env st' = env st.
Definition more_calls (st st' : state) : Prop :=
  calls st `prefix_of` calls st'.

(** ** Further relations and invariants *)

(** The entry under [k] is the same before and after. *)
Definition keeps_entry (k : string) (st st' : state) : Prop :=
  cache st' !! k = cache st !! k.

(** Nothing of the outside is changed, the users tab apart. *)
Definition reads_only (st st' : state) : Prop :=
  drive_files (env st') = drive_files (env st)
  ∧ ∀ name, name ≠ USERS_SHEET →
            sheet_values (env st') !! name = sheet_values (env st) !! name.

(** What the cache holds under ["profile"]: a dict with a [hero_image]
    member. *)
Definition profile_inv (st : state) : Prop :=
  ∀ e, cache st !! "profile" = Some e →
       ∃ l d, data e = HRef l ∧ heap st !! l = Some (ODict d)
              ∧ is_Some (d !! "hero_image").

(** Old objects are untouched and the profile entry stays well formed. *)
Definition profile_frame (st st' : state) : Prop :=
  heap_grows st st' ∧ (profile_inv st → profile_inv st').

(** The car dict that the list endpoint returns for [c] in world [w]: the
    cover is the first image of the car's folder. *)
Definition listed_view (w : world) (c : Car.t) : Car.t :=
  cover_of c (folder_photos w (Car.photos_folder_id c) ≫= first_url).

(** ** Texts the numeric parsers can accept *)

(** The white space that [int] and [float] skip at the ends of a text. *)
Definition num_space (c : ascii) : bool :=
  (is_c_space c || (PyStr.code c =? 133) || (PyStr.code c =? 160))%N.

(** A character that can occur in a text that [int] accepts. *)
Definition int_char (c : ascii) : bool :=
  PyStr.is_digit c || Ascii.eqb c "+" || Ascii.eqb c "-" || Ascii.eqb c "_"
  || num_space c.

(** A lower-case letter of [inf], [infinity] or [nan]. *)
Definition name_letter (c : ascii) : bool :=
  existsb (Ascii.eqb c) ["i"; "n"; "f"; "t"; "y"; "a"]%char.

(** A character that can occur in a cell that [parse_float] accepts. *)
Definition float_char (c : ascii) : bool :=
  PyStr.is_digit c || Ascii.eqb c "+" || Ascii.eqb c "-" || Ascii.eqb c "_"
  || Ascii.eqb c "." || Ascii.eqb c "e" || Ascii.eqb c "E"
  || name_letter (PyStr.lower_char c)
  || Ascii.eqb c "$" || Ascii.eqb c "," || PyStr.is_space c.

(** ** Rounding, stated on integers *)

(** [n / d] is at least, or is below, [2^t]. *)
Definition ge_pow (n d t : Z) : Prop :=
  if 0 <=? t then d * 2 ^ t <= n else d <= n * 2 ^ (- t).
Definition lt_pow (n d t : Z) : Prop :=
  if 0 <=? t then n < d * 2 ^ t else n * 2 ^ (- t) < d.

(** [n / d * 2^(-e)] as a fraction of integers: the numerator and the
    denominator. *)
Definition scaled_num (n e : Z) : Z := if 0 <=? e then n else n * 2 ^ (- e).
Definition scaled_den (d e : Z) : Z := if 0 <=? e then d * 2 ^ e else d.

(** ** Runs in which the clock is not set back *)

(** [later st st']: the service gets from [st] to [st'] by requests and
    changes of the outside, the clock never reading less after a step
    than before it. *)
Inductive later (st : state) : state → Prop :=
  | later_refl : later st st
  | later_step st' st'' :
      later st st' → step st' st'' → (clock st' <= clock st'')%Q →
      later st st''.
Local Open Scope list_scope.

(** ** Worked values of the text and number primitives *)

Example strip_nbsp :
  PyStr.strip (String (ascii_of_N 160) (String (ascii_of_N 9) " a b ")) = "a b".
Proof. reflexivity. Qed.

Example int_grouped : py_int " -1_000 " = Some (-1000).
Proof. reflexivity. Qed.

Example int_double_underscore : py_int "1__0" = None.
Proof. reflexivity. Qed.

Example int_sign_then_space : py_int "+ 1" = None.
Proof. reflexivity. Qed.

(** [int] skips a no-break space but not the separator 28, which
    [str.strip] removes. *)
Example int_nbsp : py_int (String (ascii_of_N 160) "2020") = Some 2020.
Proof. reflexivity. Qed.

Example int_separator : py_int (String (ascii_of_N 28) "2020") = None.
Proof. reflexivity. Qed.

Example strip_separator : PyStr.strip (String (ascii_of_N 28) "2020") = "2020".
Proof. reflexivity. Qed.

Example int_digit_limit :
  py_int (Demo.nines 4300) ≠ None ∧ py_int (Demo.nines 4301) = None.
Proof. split; [vm_compute; discriminate | vm_compute; reflexivity]. Qed.

Example float_exponent :
  py_float "-.5e+3" = Some (FFin true (500 * 2 ^ 44) (-44)).
Proof. vm_compute. reflexivity. Qed.

Example float_dangling_exponent : py_float "1e" = None.
Proof. reflexivity. Qed.

Example float_lone_point : py_float "." = None.
Proof. reflexivity. Qed.

Example float_infinity : py_float "-Infinity" = Some (FInf true).
Proof. reflexivity. Qed.

Example float_separator : py_float (String (ascii_of_N 28) "1.5") = None.
Proof. reflexivity. Qed.

(** One tenth is not a binary64 number; the nearest one is read. *)
Example float_tenth : py_float "0.1" = Some (FFin false 7205759403792794 (-56)).
Proof. vm_compute. reflexivity. Qed.

(** Above [2^53] not every integer is a binary64 number; a tie goes to the
    even mantissa. *)
Example float_tie_down :
  py_float "9007199254740993" = Some (FFin false (2 ^ 52) 1).
Proof. vm_compute. reflexivity. Qed.

Example float_tie_up :
  py_float "9007199254740995" = Some (FFin false (2 ^ 52 + 2) 1).
Proof. vm_compute. reflexivity. Qed.

Example float_overflow : py_float "1e400" = Some (FInf false).
Proof. vm_compute. reflexivity. Qed.

Example float_largest :
  py_float "1.7976931348623158e308" = Some (FFin false (2 ^ 53 - 1) 971)
  ∧ py_float "1.7976931348623159e308" = Some (FInf false).
Proof. split; vm_compute; reflexivity. Qed.

Example float_smallest :
  py_float "2.5e-324" = Some (FFin false 1 (-1074))
  ∧ py_float "2.4e-324" = Some (FFin false 0 (-1074))
  ∧ py_float "-1e-400" = Some (FFin true 0 (-1074)).
Proof. repeat split; vm_compute; reflexivity. Qed.

Example image_upper_case :
  is_image {| file_id := "p1"; file_name := "01.JPG" |} = true.
Proof. reflexivity. Qed.

Example image_text_file :
  is_image {| file_id := "p2"; file_name := "jpg.txt" |} = false.
Proof. reflexivity. Qed.

Example short_row_is_padded :
  fill_item 0 ["id"; "brand"; "status"] ["a1"] ∅
  = {[ "id" := "a1"; "brand" := ""; "status" := "" ]}.
Proof. vm_compute. reflexivity. Qed.

(** ** The cache *)

Section Cache.

Lemma Qgt_bool_true a b : Qgt_bool a b = true ↔ (b < a)%Q.
Proof.
  unfold Qgt_bool. rewrite negb_true_iff.
  destruct (Qle_bool a b) eqn:E.
  - apply Qle_bool_iff in E. split; [discriminate | intros H; exfalso; lra].
  - split; [intros _ | reflexivity].
    apply Qnot_le_lt. intros H. apply Qle_bool_iff in H. congruence.
Qed.

Lemma Qgt_bool_false a b : Qgt_bool a b = false ↔ (a <= b)%Q.
Proof.
  unfold Qgt_bool. rewrite negb_false_iff. apply Qle_bool_iff.
Qed.

Lemma set_cache_eq key d st :
  set_cache key d st
  = (inr tt, with_cache (<[key := {| data := d; ts := clock st |}]> (cache st)) st).
Proof. reflexivity. Qed.

Lemma get_cached_none key ttl st :
  cache st !! key = None → get_cached key ttl st = (inr HNone, st).
Proof. intros H. cbv [get_cached bind gets ret]. rewrite H. reflexivity. Qed.

Lemma get_cached_fresh key ttl st e :
  cache st !! key = Some e → (clock st - ts e <= inject_Z ttl)%Q →
  get_cached key ttl st = (inr (data e), st).
Proof.
  intros H Hle. cbv [get_cached bind gets ret time_time]. rewrite H.
  apply Qgt_bool_false in Hle. rewrite Hle. reflexivity.
Qed.

Lemma get_cached_stale key ttl st e :
  cache st !! key = Some e → (inject_Z ttl < clock st - ts e)%Q →
  get_cached key ttl st = (inr HNone, st).
Proof.
  intros H Hlt. cbv [get_cached bind gets ret time_time]. rewrite H.
  apply Qgt_bool_true in Hlt. rewrite Hlt. reflexivity.
Qed.

(** A read never changes the state. *)
Lemma get_cached_state key ttl st : snd (get_cached key ttl st) = st.
Proof.
  cbv [get_cached bind gets ret time_time].
  destruct (cache st !! key) as [e|]; [|reflexivity].
  destruct (Qgt_bool _ _); reflexivity.
Qed.

End Cache.

(** ** Preservation through the code

    One proof per function, for any reflexive and transitive [R]; what [R]
    must tolerate (a remote call, an allocation, ...) is a hypothesis of
    the functions that do it. *)

Section Pres.

Context (R : relation state) (R_refl : Reflexive R) (R_trans : Transitive R).

Lemma pres_ret {A} (a : A) : pres R (ret a).
Proof. intros st. apply R_refl. Qed.

Lemma pres_raise {A} e : pres R (@raise A e).
Proof. intros st. apply R_refl. Qed.

Lemma pres_gets {A} (f : state → A) : pres R (gets f).
Proof. intros st. apply R_refl. Qed.

Lemma pres_modify f : (∀ st, R st (f st)) → pres R (modify f).
Proof. intros H st. apply H. Qed.

Lemma pres_bind {A B} (m : M A) (k : A → M B) :
  pres R m → (∀ a, pres R (k a)) → pres R (bind m k).
Proof.
  intros Hm Hk st. unfold bind. specialize (Hm st).
  destruct (m st) as [[e|a] st1]; simpl in *; [exact Hm|].
  eapply R_trans; [exact Hm | apply Hk].
Qed.

Lemma pres_try {A} (m : M A) (h : exn → M A) :
  pres R m → (∀ e, pres R (h e)) → pres R (try_except m h).
Proof.
  intros Hm Hh st. unfold try_except. specialize (Hm st).
  destruct (m st) as [[e|a] st1]; simpl in *; [|exact Hm].
  eapply R_trans; [exact Hm | apply Hh].
Qed.

Ltac pres_go :=
  repeat first
    [ apply pres_ret | apply pres_raise | apply pres_gets
    | assumption
    | match goal with H : ∀ _, pres _ _ |- _ => apply H end
    | match goal with H : ∀ _ _, pres _ _ |- _ => apply H end
    | match goal with H : ∀ _ _ _, pres _ _ |- _ => apply H end
    | apply pres_bind; [ | intros ? ]
    | apply pres_try; [ | intros ? ]
    | apply pres_modify; intros; solve [auto]
    | match goal with
      | |- pres _ (match ?x with _ => _ end) => destruct x
      end
    | solve [auto] ].

Lemma pres_load l : pres R (load l).
Proof. intros st. unfold load. destruct (heap st !! l); apply R_refl. Qed.

Lemma pres_car_read l : pres R (car_read l).
Proof. unfold car_read. pose proof pres_load. pres_go. Qed.

Lemma pres_list_items h : pres R (list_items h).
Proof. unfold list_items. pose proof pres_load. pres_go. Qed.

Lemma pres_truthy h : pres R (truthy h).
Proof. unfold truthy. pose proof pres_load. pres_go. Qed.

Lemma pres_get_cached key ttl : pres R (get_cached key ttl).
Proof. unfold get_cached, time_time. pres_go. Qed.

Lemma pres_find_car car_id cars : pres R (find_car car_id cars).
Proof.
  induction cars as [|c cars IH]; cbn [find_car]; pose proof pres_car_read;
    pres_go.
Qed.

Section Calls.
Hypothesis R_call : ∀ c st, R st (with_call c st).

Lemma pres_sheets_get range : pres R (sheets_get range).
Proof. unfold sheets_get. pres_go. Qed.

Lemma pres_read_sheet name : pres R (read_sheet name).
Proof. unfold read_sheet. pose proof pres_sheets_get. pres_go. Qed.

Lemma pres_drive_list f : pres R (drive_list f).
Proof. unfold drive_list. pres_go. Qed.

Lemma pres_load_photos f : pres R (load_photos f).
Proof. unfold load_photos. pose proof pres_drive_list. pres_go. Qed.

Section Stdout.
Hypothesis R_stdout : ∀ o st, R st (with_stdout o st).

Lemma pres_print tag e : pres R (print tag e).
Proof. unfold print. pres_go. Qed.

Lemma pres_load_hero_image : pres R load_hero_image.
Proof.
  unfold load_hero_image. pose proof pres_load_photos. pose proof pres_print.
  pres_go.
Qed.

Section Env.
Hypothesis R_env : ∀ w st, R st (with_env w st).

Lemma pres_sheets_append range row : pres R (sheets_append range row).
Proof. unfold sheets_append. pres_go. Qed.

Lemma pres_append_user_event req car_id : pres R (append_user_event req car_id).
Proof.
  unfold append_user_event. pose proof pres_sheets_append.
  pose proof pres_print. pres_go.
Qed.

End Env.
End Stdout.
End Calls.

Section Alloc.
Hypothesis R_alloc : ∀ o st, R st (with_heap (heap st ++ [o]) st).

Lemma pres_alloc o : pres R (alloc o).
Proof. intros st. apply R_alloc. Qed.

Lemma pres_dict_copy c : pres R (dict_copy c).
Proof. unfold dict_copy. pose proof pres_load. pose proof pres_alloc. pres_go. Qed.

Lemma pres_build_cars rows cars : pres R (build_cars rows cars).
Proof.
  revert cars. induction rows as [|r rows IH]; intros cars; cbn [build_cars];
    pose proof pres_alloc; pres_go.
Qed.

Lemma pres_health : pres R health.
Proof. unfold health. pose proof pres_alloc. pres_go. Qed.

End Alloc.

Section Tape.
Hypothesis R_tape : ∀ t st, R st (with_tape t st).

Lemma pres_randbelow n : pres R (randbelow n).
Proof.
  intros st. unfold randbelow. destruct (tape st); simpl; [apply R_refl | apply R_tape].
Qed.

Lemma pres_shuffle_from {A} i (x : list A) : pres R (shuffle_from i x).
Proof.
  revert x. induction i as [|i IH]; intros x; cbn [shuffle_from];
    pose proof pres_randbelow; pres_go.
Qed.

Lemma pres_random_shuffle {A} (x : list A) : pres R (random_shuffle x).
Proof. apply pres_shuffle_from. Qed.

End Tape.

Section Store.
Hypothesis R_store : ∀ l o st, R st (with_heap (<[l := o]> (heap st)) st).

Lemma pres_store l o : pres R (store l o).
Proof. unfold store. pres_go. Qed.

Lemma pres_car_update l f : pres R (car_update l f).
Proof. unfold car_update. pose proof pres_load. pose proof pres_store. pres_go. Qed.

Lemma pres_dict_setitem l k v : pres R (dict_setitem l k v).
Proof. unfold dict_setitem. pose proof pres_load. pose proof pres_store. pres_go. Qed.

End Store.

Lemma pres_set_cache key d :
  (∀ e st, R st (with_cache (<[key := e]> (cache st)) st)) →
  pres R (set_cache key d).
Proof. intros H. unfold set_cache, time_time. pres_go. Qed.

(** Composite code, from what is known of its parts. *)

Lemma pres_load_cars : pres R reload_cars → pres R load_cars.
Proof.
  intros H. unfold load_cars. pose proof pres_get_cached. pose proof pres_truthy.
  apply pres_bind; [auto|intros cached].
  apply pres_bind; [auto|intros [|]]; [apply pres_ret|exact H].
Qed.

Lemma pres_load_profile : pres R reload_profile → pres R load_profile.
Proof.
  intros H. unfold load_profile. pose proof pres_get_cached. pose proof pres_truthy.
  apply pres_bind; [auto|intros cached].
  apply pres_bind; [auto|intros [|]]; [apply pres_ret|exact H].
Qed.

Lemma pres_enrich_all :
  (∀ c, pres R (enrich_cover c)) →
  ∀ cars result, pres R (enrich_all cars result).
Proof.
  intros H cars. induction cars as [|c cars IH]; intros result;
    cbn [enrich_all]; pres_go.
Qed.

Lemma pres_cars_body :
  pres R load_cars → (∀ c, pres R (enrich_cover c)) → (∀ o, pres R (alloc o)) →
  pres R cars_body.
Proof.
  intros H1 H2 H3. unfold cars_body. pose proof pres_list_items.
  pose proof (pres_enrich_all H2). pres_go.
Qed.

Lemma pres_detail_body car_id :
  pres R load_cars → (∀ b, pres R (enrich_detail b)) →
  pres R (detail_body car_id).
Proof.
  intros H1 H2. unfold detail_body. pose proof pres_list_items.
  pose proof pres_find_car. pose proof pres_truthy. pres_go.
Qed.

(** With every primitive change tolerated, so is all the code. *)
Section All.
Hypothesis R_call : ∀ c st, R st (with_call c st).
Hypothesis R_stdout : ∀ o st, R st (with_stdout o st).
Hypothesis R_alloc : ∀ o st, R st (with_heap (heap st ++ [o]) st).
Hypothesis R_tape : ∀ t st, R st (with_tape t st).
Hypothesis R_store : ∀ l o st, R st (with_heap (<[l := o]> (heap st)) st).

Lemma pres_enrich_cover c : pres R (enrich_cover c).
Proof.
  unfold enrich_cover. pose proof (pres_dict_copy R_alloc).
  pose proof pres_car_read. pose proof (pres_load_photos R_call).
  pose proof (pres_car_update R_store). pres_go.
Qed.

Lemma pres_enrich_detail b : pres R (enrich_detail b).
Proof.
  unfold enrich_detail. pose proof (pres_dict_copy R_alloc).
  pose proof pres_car_read. pose proof (pres_load_photos R_call).
  pose proof (pres_car_update R_store). pres_go.
Qed.

Lemma pres_reload_cars :
  (∀ e st, R st (with_cache (<["cars" := e]> (cache st)) st)) →
  pres R reload_cars.
Proof.
  intros H. unfold reload_cars. pose proof (pres_read_sheet R_call).
  pose proof (pres_build_cars R_alloc).
  pose proof (fun A => @pres_random_shuffle R_tape A).
  pose proof (pres_alloc R_alloc). pose proof (pres_set_cache "cars").
  pres_go.
Qed.

Lemma pres_reload_profile :
  (∀ e st, R st (with_cache (<["profile" := e]> (cache st)) st)) →
  pres R reload_profile.
Proof.
  intros H. unfold reload_profile. pose proof (pres_read_sheet R_call).
  pose proof (pres_alloc R_alloc). pose proof (pres_load_hero_image R_call R_stdout).
  pose proof (pres_dict_setitem R_store). pose proof (pres_set_cache "profile").
  pres_go.
Qed.

End All.

End Pres.

(** C1.  After [set_cache k v] at clock reading [s], a read of [k] with
    TTL [t] at clock reading [n], the entry being still the one written,
    returns [v] when [n - s <= t] and [None] when [n - s > t]; the read
    decides this itself and leaves the cache as it is. *)
Theorem get_cached_after_set_cache :
  ∀ (k : string) (v : handle) (t : Z) (st st2 : state),
    cache st2 = cache (snd (set_cache k v st)) →
    let s := clock st in
    let n := clock st2 in
    ((n - s <= inject_Z t)%Q → get_cached k t st2 = (inr v, st2))
    ∧ ((inject_Z t < n - s)%Q → get_cached k t st2 = (inr HNone, st2)).
Proof.
  intros k v t st st2 Hc s n. rewrite set_cache_eq in Hc. simpl in Hc.
  assert (He : cache st2 !! k = Some {| data := v; ts := s |}).
  { rewrite Hc. apply lookup_insert_eq. }
  split; intros H.
  - apply (get_cached_fresh k t st2 _ He). exact H.
  - apply (get_cached_stale k t st2 _ He). exact H.
Qed.


Lemma get_cached_after_set_cache_witness :
  get_cached "cars" 300
    (with_clock 300 (snd (set_cache "cars" (HRef 0%nat) Demo.st0)))
  = (inr (HRef 0%nat),
     with_clock 300 (snd (set_cache "cars" (HRef 0%nat) Demo.st0)))
  ∧ get_cached "cars" 300
      (with_clock 301 (snd (set_cache "cars" (HRef 0%nat) Demo.st0)))
    = (inr HNone,
       with_clock 301 (snd (set_cache "cars" (HRef 0%nat) Demo.st0))).
Proof.
  split.
  - apply (get_cached_after_set_cache "cars" (HRef 0%nat) 300 Demo.st0
             (with_clock 300 (snd (set_cache "cars" (HRef 0%nat) Demo.st0))));
      [reflexivity | vm_compute; discriminate].
  - apply (get_cached_after_set_cache "cars" (HRef 0%nat) 300 Demo.st0
             (with_clock 301 (snd (set_cache "cars" (HRef 0%nat) Demo.st0))));
      [reflexivity | vm_compute; reflexivity].
Defined.

(** ** Facts about single functions *)

Lemma with_heap_id st : with_heap (heap st) st = st.
Proof. destruct st; reflexivity. Qed.

Lemma with_tape_id st : with_tape (tape st) st = st.
Proof. destruct st; reflexivity. Qed.

Lemma truthy_state h st : snd (truthy h st) = st.
Proof.
  destruct h as [|l]; [reflexivity|].
  cbv [truthy bind load ret]. destruct (heap st !! l); reflexivity.
Qed.

Lemma truthy_list l items st :
  heap st !! l = Some (OList items) →
  truthy (HRef l) st = (inr (negb (bool_decide (items = []))), st).
Proof. intros H. cbv [truthy bind load ret]. rewrite H. reflexivity. Qed.

Lemma truthy_car l c st :
  heap st !! l = Some (OCar c) → truthy (HRef l) st = (inr true, st).
Proof. intros H. cbv [truthy bind load ret]. rewrite H. reflexivity. Qed.

Lemma get_cached_total key ttl st :
  ∃ h, get_cached key ttl st = (inr h, st).
Proof.
  cbv [get_cached bind gets ret time_time].
  destruct (cache st !! key) as [e|]; [|eauto].
  destruct (Qgt_bool _ _); eauto.
Qed.

Lemma read_sheet_eq name st :
  read_sheet name st
  = match sheet_values (env st) !! name with
    | Some values => (inr (records_of values), with_call (SheetsGet name) st)
    | None => (inl (HttpError "sheets"), with_call (SheetsGet name) st)
    end.
Proof.
  cbv [read_sheet sheets_get bind modify gets ret raise]. cbn [env with_call].
  destruct (sheet_values (env st) !! name); reflexivity.
Qed.

(** The loop over the rows never raises: it allocates one car per listed
    row, in order, and does nothing else. *)
Lemma build_cars_eq rows cars st :
  build_cars rows cars st
  = (inr (cars ++ seq (length (heap st)) (length (List.filter row_listed rows))),
     with_heap (heap st ++ map (fun r => OCar (car_of_row r))
                              (List.filter row_listed rows)) st).
Proof.
  revert cars st. induction rows as [|r rows IH]; intros cars st.
  - cbn. rewrite !app_nil_r, with_heap_id. reflexivity.
  - cbn [build_cars List.filter].
    destruct (PyStr.nonempty (row_car_id r)) eqn:E1.
    2: { replace (row_listed r) with false
           by (unfold row_listed; rewrite E1; reflexivity). apply IH. }
    destruct (bool_decide (r !! "status" = Some "hidden")) eqn:E2.
    { replace (row_listed r) with false
        by (unfold row_listed; rewrite E1, E2; reflexivity). apply IH. }
    replace (row_listed r) with true
      by (unfold row_listed; rewrite E1, E2; reflexivity).
    cbv [bind alloc]. rewrite IH. cbn [heap with_heap length map seq].
    rewrite length_app. cbn [length].
    rewrite Nat.add_1_r, <- !app_assoc. reflexivity.
Qed.

Lemma swap_perm {A} i j (x : list A) : swap i j x ≡ₚ x.
Proof.
  unfold swap. destruct (x !! i) as [a|] eqn:Hi; [|reflexivity].
  destruct (x !! j) as [b|] eqn:Hj; [|reflexivity].
  by apply Permutation_insert_swap.
Qed.

(** The shuffle returns a rearrangement of its argument and only consumes
    draws. *)
Lemma shuffle_from_spec {A} i (x : list A) st :
  ∃ x' t, shuffle_from i x st = (inr x', with_tape t st) ∧ x' ≡ₚ x.
Proof.
  revert x st. induction i as [|i IH]; intros x st.
  - exists x, (tape st). rewrite with_tape_id. split; reflexivity.
  - cbn [shuffle_from]. cbv [bind randbelow].
    destruct (tape st) as [|d t] eqn:Ht.
    + destruct (IH (swap (S i) 0 x) st) as (x' & t' & E & P).
      exists x', t'. split; [exact E|]. rewrite P. apply swap_perm.
    + destruct (IH (swap (S i) (d mod S (S i)) x) (with_tape t st))
        as (x' & t' & E & P).
      exists x', t'. split; [rewrite E; reflexivity|].
      rewrite P. apply swap_perm.
Qed.

(** ** The car loader *)

Lemma load_cars_cases st h :
  get_cached "cars" CACHE_TTL_CARS st = (inr h, st) →
  load_cars st
  = match truthy h st with
    | (inr true, _) => (inr h, st)
    | (inr false, _) => reload_cars st
    | (inl e, _) => (inl e, st)
    end.
Proof.
  intros H. unfold load_cars, reload_cars, bind. rewrite H.
  pose proof (truthy_state h st) as Hs.
  destruct (truthy h st) as [[e|[]] st1]; simpl in Hs; subst; reflexivity.
Qed.

Lemma reload_cars_fail st :
  sheet_values (env st) !! "cars" = None →
  reload_cars st = (inl (HttpError "sheets"), with_call (SheetsGet "cars") st).
Proof.
  intros H. unfold reload_cars, bind. rewrite read_sheet_eq, H. reflexivity.
Qed.

Lemma reload_cars_ok st values :
  sheet_values (env st) !! "cars" = Some values →
  let kept := List.filter row_listed (records_of values) in
  let n := length (heap st) in
  let now := (clock st + latency (env st))%Q in
  ∃ x' t,
    x' ≡ₚ seq n (length kept)
    ∧ reload_cars st
      = (inr (HRef (n + length kept)%nat),
         {| heap := heap st ++ map (fun r => OCar (car_of_row r)) kept
                            ++ [OList x'];
            cache := <["cars" := {| data := HRef (n + length kept)%nat; ts := now |}]>
                       (cache st);
            clock := now; tape := t; env := env st;
            calls := calls st ++ [SheetsGet "cars"]; stdout := stdout st |}).
Proof.
  intros H kept n now. unfold reload_cars, bind.
  rewrite read_sheet_eq, H, build_cars_eq. cbn [app].
  unfold random_shuffle.
  match goal with |- context [@shuffle_from ?A ?i ?x ?s] =>
    destruct (@shuffle_from_spec A i x s) as (x' & t & E & P) end.
  exists x', t. split; [exact P|].
  rewrite E. cbv [alloc set_cache bind time_time gets modify ret].
  cbn [heap cache clock tape env calls stdout with_heap with_cache with_tape
       with_call].
  rewrite length_app, length_map, <- app_assoc. reflexivity.
Qed.

(** ** The relations are preorders and tolerate the primitive changes *)

Section Relations.

Global Instance quiet_refl : Reflexive quiet.
Proof. intros st. split; reflexivity. Qed.
Global Instance quiet_trans : Transitive quiet.
Proof. intros a b c [H1 H2] [H3 H4]. split; congruence. Qed.

Global Instance same_cache_refl : Reflexive same_cache.
Proof. intros st. reflexivity. Qed.
Global Instance same_cache_trans : Transitive same_cache.
Proof. intros a b c H1 H2. unfold same_cache in *. congruence. Qed.

Global Instance same_env_refl : Reflexive same_env.
Proof. intros st. reflexivity. Qed.
Global Instance same_env_trans : Transitive same_env.
Proof. intros a b c H1 H2. unfold same_env in *. congruence. Qed.

Global Instance more_calls_refl : Reflexive more_calls.
Proof. intros st. unfold more_calls. reflexivity. Qed.
Global Instance more_calls_trans : Transitive more_calls.
Proof. intros a b c H1 H2. unfold more_calls in *. by etrans. Qed.

Global Instance heap_grows_refl : Reflexive heap_grows.
Proof. intros st. unfold heap_grows. reflexivity. Qed.
Global Instance heap_grows_trans : Transitive heap_grows.
Proof. intros a b c H1 H2. unfold heap_grows in *. by etrans. Qed.

Global Instance frame_refl : Reflexive frame.
Proof. intros st. split; [reflexivity | auto]. Qed.
Global Instance frame_trans : Transitive frame.
Proof.
  intros a b c [H1 H2] [H3 H4]. split; [by etrans | auto].
Qed.

Lemma cars_ok_grows h h' items :
  h `prefix_of` h' → cars_ok h items → cars_ok h' items.
Proof.
  intros Hp H. unfold cars_ok in *. eapply Forall_impl; [exact H|].
  intros i (c & Hi & Hc).
  exists c. split; [|exact Hc]. eapply prefix_lookup_Some; eauto.
Qed.

(** Old objects kept and the ["cars"] entry kept: the frame holds. *)
Lemma frame_intro st st' :
  heap_grows st st' → cache st' !! "cars" = cache st !! "cars" → frame st st'.
Proof.
  intros Hg Hc. split; [exact Hg|]. intros Hinv e He. rewrite Hc in He.
  destruct (Hinv e He) as (l & items & Hd & Hl & Hok).
  exists l, items. split; [exact Hd|]. split.
  - eapply prefix_lookup_Some; eauto.
  - eapply cars_ok_grows; eauto.
Qed.

Lemma quiet_frame st st' : quiet st st' → frame st st'.
Proof.
  intros [Hh Hc]. apply frame_intro; [|by rewrite Hc].
  unfold heap_grows. by rewrite Hh.
Qed.

Lemma frame_call c st : frame st (with_call c st).
Proof. apply quiet_frame. split; reflexivity. Qed.
Lemma frame_stdout o st : frame st (with_stdout o st).
Proof. apply quiet_frame. split; reflexivity. Qed.
Lemma frame_env w st : frame st (with_env w st).
Proof. apply quiet_frame. split; reflexivity. Qed.
Lemma frame_tape t st : frame st (with_tape t st).
Proof. apply quiet_frame. split; reflexivity. Qed.
Lemma frame_clock t st : frame st (with_clock t st).
Proof. apply quiet_frame. split; reflexivity. Qed.
Lemma frame_alloc o st : frame st (with_heap (heap st ++ [o]) st).
Proof. apply frame_intro; [|reflexivity]. by apply prefix_app_r. Qed.

End Relations.

(** ** Copies are fresh objects *)

Lemma lookup_last {A} (h : list A) (o : A) : (h ++ [o]) !! length h = Some o.
Proof. by rewrite list_lookup_middle. Qed.

Lemma insert_last {A} (h : list A) (o o' : A) :
  <[length h := o']> (h ++ [o]) = h ++ [o'].
Proof.
  rewrite insert_app_r_alt by lia. by rewrite Nat.sub_diag.
Qed.

Lemma car_read_last h c st :
  heap st = h ++ [OCar c] → car_read (length h) st = (inr c, st).
Proof.
  intros H. cbv [car_read bind load ret]. rewrite H, lookup_last. reflexivity.
Qed.

Lemma car_update_last h c f st :
  heap st = h ++ [OCar c] →
  car_update (length h) f st = (inr tt, with_heap (h ++ [OCar (f c)]) st).
Proof.
  intros H. cbv [car_update bind load store modify].
  rewrite H, lookup_last. cbv beta iota. rewrite H, insert_last. reflexivity.
Qed.

Lemma load_photos_eq f st :
  load_photos f st
  = (match folder_photos (env st) f with
     | Some ps => inr ps
     | None => inl (HttpError "drive")
     end, after_drive f st).
Proof.
  destruct f as [[|a s]|]; try reflexivity.
  cbv [load_photos drive_list bind modify gets ret raise folder_photos
       after_drive]. cbn [env with_call].
  destruct (drive_files (env st) !! String a s); reflexivity.
Qed.

Lemma after_drive_quiet f st : quiet st (after_drive f st).
Proof. destruct f as [[|a s]|]; split; reflexivity. Qed.

Lemma after_drive_with_heap f h st :
  after_drive f (with_heap h st) = with_heap h (after_drive f st).
Proof. destruct f as [[|a s]|]; reflexivity. Qed.

Lemma dict_copy_car b c0 st :
  heap st !! b = Some (OCar c0) →
  dict_copy b st = (inr (length (heap st)), with_heap (heap st ++ [OCar c0]) st).
Proof. intros H. cbv [dict_copy bind load alloc]. rewrite H. reflexivity. Qed.

(** The detail endpoint's copy: the cached car is read, never written. *)
Lemma enrich_detail_eq b st c0 :
  heap st !! b = Some (OCar c0) →
  enrich_detail b st
  = match folder_photos (env st) (Car.photos_folder_id c0) with
    | Some ps =>
        (inr (HRef (length (heap st))),
         with_heap (heap st ++ [OCar (detail_of c0 (map url ps))])
                   (after_drive (Car.photos_folder_id c0) st))
    | None =>
        (inl (HttpError "drive"),
         with_heap (heap st ++ [OCar c0])
                   (after_drive (Car.photos_folder_id c0) st))
    end.
Proof.
  intros H. unfold enrich_detail.
  unfold bind at 1. rewrite (dict_copy_car _ _ _ H).
  unfold bind at 1. rewrite (car_read_last (heap st) c0) by reflexivity.
  unfold bind at 1. rewrite load_photos_eq, after_drive_with_heap.
  cbn [env with_heap].
  destruct (folder_photos (env st) (Car.photos_folder_id c0)) as [ps|];
    [|reflexivity].
  set (st1 := after_drive _ st).
  assert (Hh : heap st1 = heap st) by apply after_drive_quiet.
  unfold bind at 1.
  rewrite (car_update_last (heap st) c0) by (cbn; congruence).
  unfold bind at 1.
  rewrite (car_read_last (heap st) (Car.set_photos (map url ps) c0))
    by reflexivity.
  unfold bind at 1.
  rewrite (car_update_last (heap st) (Car.set_photos (map url ps) c0))
    by reflexivity.
  unfold bind at 1.
  erewrite (car_update_last (heap st)) by reflexivity.
  cbv [ret]. cbn [with_heap heap cache clock tape env calls stdout].
  unfold detail_of. destruct (map url ps); reflexivity.
Qed.

(** The list endpoint's copy. *)
Lemma enrich_cover_eq c st c0 :
  heap st !! c = Some (OCar c0) →
  enrich_cover c st
  = match folder_photos (env st) (Car.photos_folder_id c0) with
    | Some ps =>
        (inr (length (heap st)),
         with_heap (heap st ++ [OCar (cover_of c0 (first_url ps))])
                   (after_drive (Car.photos_folder_id c0) st))
    | None =>
        (inl (HttpError "drive"),
         with_heap (heap st ++ [OCar c0])
                   (after_drive (Car.photos_folder_id c0) st))
    end.
Proof.
  intros H. unfold enrich_cover.
  unfold bind at 1. rewrite (dict_copy_car _ _ _ H).
  unfold bind at 1. rewrite (car_read_last (heap st) c0) by reflexivity.
  unfold bind at 1. rewrite load_photos_eq, after_drive_with_heap.
  cbn [env with_heap].
  destruct (folder_photos (env st) (Car.photos_folder_id c0)) as [ps|];
    [|reflexivity].
  set (st1 := after_drive _ st).
  assert (Hh : heap st1 = heap st) by apply after_drive_quiet.
  unfold bind at 1.
  rewrite (car_update_last (heap st) c0) by (cbn; congruence).
  unfold bind at 1.
  erewrite (car_update_last (heap st)) by reflexivity.
  cbv [ret]. cbn [with_heap heap cache clock tape env calls stdout].
  reflexivity.
Qed.

Lemma copy_then_read_frame {A} b (k : Car.t → loc → M A) :
  (∀ st c0, heap st !! b = Some (OCar c0) →
            frame st (snd ((car <- dict_copy b ;; c0 <- car_read car ;; k c0 car) st))) →
  pres frame (car <- dict_copy b ;; c0 <- car_read car ;; k c0 car).
Proof.
  intros Hk st. destruct (heap st !! b) as [[d|c0|items]|] eqn:H.
  - cbv [bind dict_copy load alloc car_read]. rewrite H.
    cbn [heap with_heap]. rewrite lookup_last. cbn. apply frame_alloc.
  - exact (Hk st c0 H).
  - cbv [bind dict_copy load raise]. rewrite H. reflexivity.
  - cbv [bind dict_copy load]. rewrite H. reflexivity.
Qed.

Lemma frame_copy o f st :
  frame st (with_heap (heap st ++ [o]) (after_drive f st)).
Proof.
  apply frame_intro.
  - unfold heap_grows. cbn. by apply prefix_app_r.
  - cbn. by rewrite (proj2 (after_drive_quiet f st)).
Qed.

Lemma frame_enrich_cover c : pres frame (enrich_cover c).
Proof.
  apply (copy_then_read_frame c
           (fun c0 car =>
              photos <- load_photos (Car.photos_folder_id c0) ;;
              car_update car (Car.set_cover_image (first_url photos)) ;;
              car_update car Car.pop_photos_folder_id ;;
              ret car)).
  intros st c0 H. fold (enrich_cover c). rewrite (enrich_cover_eq _ _ _ H).
  destruct (folder_photos _ _); apply frame_copy.
Qed.

Lemma frame_enrich_detail b : pres frame (enrich_detail b).
Proof.
  apply (copy_then_read_frame b
           (fun c0 car =>
              photos <- load_photos (Car.photos_folder_id c0) ;;
              car_update car (Car.set_photos (map url photos)) ;;
              c1 <- car_read car ;;
              car_update car
                (Car.set_cover_image
                   (match Car.photos c1 with
                    | Some (u :: _) => Some u
                    | _ => None
                    end)) ;;
              car_update car Car.pop_photos_folder_id ;;
              ret (HRef car))).
  intros st c0 H. fold (enrich_detail b). rewrite (enrich_detail_eq _ _ _ H).
  destruct (folder_photos _ _); apply frame_copy.
Qed.

(** ** The cache stays well formed *)

Lemma listed_rows_ok h (kept : list (gmap string string)) (tl : list obj) n x :
  n = length h → Forall (fun r => row_listed r = true) kept →
  x ≡ₚ seq n (length kept) →
  cars_ok (h ++ map (fun r => OCar (car_of_row r)) kept ++ tl) x.
Proof.
  intros -> Hk P. unfold cars_ok. rewrite P.
  apply Forall_forall. intros i Hi. apply elem_of_seq in Hi as [H1 H2].
  destruct (lookup_lt_is_Some_2 kept (i - length h)) as [r Hr]; [lia|].
  exists (car_of_row r). split.
  - rewrite lookup_app_r by lia. rewrite lookup_app_l by (rewrite length_map; lia).
    rewrite list_lookup_fmap, Hr. reflexivity.
  - exists r. split; [|reflexivity].
    eapply Forall_lookup_1 in Hk; eauto.
Qed.

Lemma lookup_after_map {A B} (h : list B) (f : A → B) (l : list A) (o : B) :
  (h ++ map f l ++ [o]) !! (length h + length l)%nat = Some o.
Proof.
  rewrite app_assoc, <- (length_map f l), <- length_app. apply lookup_last.
Qed.

Lemma filter_listed rows :
  Forall (fun r => row_listed r = true) (List.filter row_listed rows).
Proof.
  apply Forall_forall. intros r Hr. apply list_elem_of_In in Hr.
  apply filter_In in Hr. tauto.
Qed.

Lemma reload_cars_frame : pres frame reload_cars.
Proof.
  intros st. destruct (sheet_values (env st) !! "cars") as [values|] eqn:H.
  - destruct (reload_cars_ok st values H) as (x' & t & P & E). rewrite E.
    cbn [snd]. split.
    + unfold heap_grows. cbn. by apply prefix_app_r.
    + intros _ e He. cbn in He. rewrite lookup_insert_eq in He.
      injection He as <-. cbn [data heap].
      eexists _, x'. split; [reflexivity|]. split.
      * apply lookup_after_map.
      * eapply listed_rows_ok; [reflexivity | apply filter_listed | exact P].
  - rewrite (reload_cars_fail st H). apply frame_call.
Qed.

Lemma frame_set_profile e st :
  frame st (with_cache (<["profile" := e]> (cache st)) st).
Proof.
  apply frame_intro; [unfold heap_grows; reflexivity|]. cbn.
  by rewrite lookup_insert_ne.
Qed.

Lemma load_hero_image_total st :
  ∃ hero st', load_hero_image st = (inr hero, st') ∧ quiet st st'.
Proof.
  unfold load_hero_image, try_except, bind. rewrite load_photos_eq.
  destruct (folder_photos _ _); cbn.
  - eexists _, _. split; [reflexivity|]. split; reflexivity.
  - eexists _, _. split; [reflexivity|]. split; reflexivity.
Qed.

Lemma reload_profile_frame : pres frame reload_profile.
Proof.
  intros st. unfold reload_profile, bind. rewrite read_sheet_eq.
  destruct (sheet_values (env st) !! "profile") as [values|];
    [|apply frame_call].
  cbv [alloc]. cbn [heap with_heap with_call].
  set (d := VStr <$> default ∅ (head (records_of values))).
  set (st1 := with_heap _ _).
  destruct (load_hero_image_total st1) as (hero & st2 & E & Hh & Hc).
  rewrite E. cbv [dict_setitem bind load]. rewrite Hh. subst st1.
  cbn [heap with_heap]. rewrite lookup_last.
  cbv [store modify set_cache bind time_time gets ret]. rewrite Hh.
  cbn [heap with_heap]. rewrite insert_last. cbn [snd].
  apply frame_intro.
  - unfold heap_grows. cbn. by apply prefix_app_r.
  - cbn. rewrite lookup_insert_ne by done. rewrite Hc. reflexivity.
Qed.

Lemma frame_load_cars : pres frame load_cars.
Proof. apply pres_load_cars; try apply _. apply reload_cars_frame. Qed.

Lemma frame_load_profile : pres frame load_profile.
Proof. apply pres_load_profile; try apply _. apply reload_profile_frame. Qed.

Lemma frame_append_user_event req car_id :
  pres frame (append_user_event req car_id).
Proof.
  apply pres_append_user_event; try apply _;
    auto using frame_call, frame_stdout, frame_env.
Qed.

Lemma frame_cars_body : pres frame cars_body.
Proof.
  apply pres_cars_body; try apply _.
  - apply frame_load_cars.
  - apply frame_enrich_cover.
  - intros o. apply pres_alloc. apply frame_alloc.
Qed.

Lemma frame_detail_body car_id : pres frame (detail_body car_id).
Proof.
  apply pres_detail_body; try apply _.
  - apply frame_load_cars.
  - apply frame_enrich_detail.
Qed.

Lemma api_cars_split req :
  api_cars req = (append_user_event req None ;; cars_body).
Proof. reflexivity. Qed.

Lemma api_car_detail_split car_id req :
  api_car_detail car_id req
  = (append_user_event req (Some car_id) ;; detail_body car_id).
Proof. reflexivity. Qed.

Lemma frame_api_cars req : pres frame (api_cars req).
Proof.
  rewrite api_cars_split. apply pres_bind; try apply _.
  - apply frame_append_user_event.
  - intros _. apply frame_cars_body.
Qed.

Lemma frame_api_car_detail car_id req : pres frame (api_car_detail car_id req).
Proof.
  rewrite api_car_detail_split. apply pres_bind; try apply _.
  - apply frame_append_user_event.
  - intros _. apply frame_detail_body.
Qed.

Lemma frame_api_profile : pres frame api_profile.
Proof. apply frame_load_profile. Qed.

Lemma frame_health : pres frame health.
Proof. apply pres_health; try apply _. apply frame_alloc. Qed.

Lemma step_frame st st' : step st st' → frame st st'.
Proof.
  intros [];
    [ apply frame_env | apply frame_clock | apply frame_tape
    | apply frame_health | apply frame_api_profile | apply frame_api_cars
    | apply frame_api_car_detail ].
Qed.

(** Every state the service can be in has a well-formed cache. *)
Lemma reachable_cache_inv st : reachable st → cache_inv st.
Proof.
  induction 1 as [w now t | st st' _ IH Hs].
  - intros e He. cbn in He. by rewrite lookup_empty in He.
  - by apply (step_frame _ _ Hs).
Qed.

(** ** Reading the cars behind a handle *)

Lemma cars_ok_cars_of h l items :
  h !! l = Some (OList items) → cars_ok h items →
  ∃ cs, cars_of h (HRef l) = Some cs ∧ Forall listed_car cs
        ∧ Forall2 (fun i c => h !! i = Some (OCar c)) items cs.
Proof.
  intros Hl Hok. unfold cars_of. rewrite Hl. clear Hl.
  induction Hok as [|i items (c & Hi & Hc) _ (cs & E & F & F2)].
  - exists []. split; [reflexivity|]. split; constructor.
  - exists (c :: cs). split; [|split; constructor; auto].
    cbn. rewrite Hi. cbn. rewrite E. reflexivity.
Qed.

Lemma get_cached_ref key ttl st l :
  get_cached key ttl st = (inr (HRef l), st) →
  ∃ e, cache st !! key = Some e ∧ data e = HRef l
       ∧ (clock st - ts e <= inject_Z ttl)%Q.
Proof.
  cbv [get_cached bind gets ret time_time].
  destruct (cache st !! key) as [e|]; [|discriminate].
  destruct (Qgt_bool _ _) eqn:E; [discriminate|].
  intros [= H]. exists e. split; [reflexivity|]. split; [exact H|].
  by apply Qgt_bool_false.
Qed.

Lemma truthy_true_ref h st : truthy h st = (inr true, st) → ∃ l, h = HRef l.
Proof. destruct h as [|l]; [discriminate | eauto]. Qed.

(** What a call of [load_cars] that returns has returned and cached. *)
Lemma load_cars_returns st r st' :
  cache_inv st → load_cars st = (inr r, st') →
  ∃ l items e,
    r = HRef l ∧ heap st' !! l = Some (OList items)
    ∧ cars_ok (heap st') items
    ∧ cache st' !! "cars" = Some e ∧ data e = r.
Proof.
  intros Hinv H.
  assert (Hinv' : cache_inv st').
  { pose proof (frame_load_cars st) as [_ F]. rewrite H in F. auto. }
  destruct (get_cached_total "cars" CACHE_TTL_CARS st) as [h Hg].
  rewrite (load_cars_cases _ _ Hg) in H.
  pose proof (truthy_state h st) as Hs.
  destruct (truthy h st) as [[x|[]] s1] eqn:Ht; cbn in Hs; subst s1;
    [discriminate| |].
  - injection H as <- <-.
    destruct (truthy_true_ref _ _ Ht) as [l ->].
    destruct (get_cached_ref _ _ _ _ Hg) as (e & He & Hd & _).
    destruct (Hinv e He) as (l' & items & Hd' & Hl & Hok).
    rewrite Hd in Hd'. injection Hd' as <-.
    exists l, items, e. auto.
  - destruct (sheet_values (env st) !! "cars") as [values|] eqn:Hv.
    + destruct (reload_cars_ok st values Hv) as (x' & t & P & E).
      rewrite E in H. injection H as <- <-.
      destruct (Hinv' _ (lookup_insert_eq _ _ _)) as (l' & items & Hd' & Hl & Hok).
      cbn [data] in Hd'. injection Hd' as <-.
      eexists _, items, _. split; [reflexivity|]. split; [exact Hl|].
      split; [exact Hok|]. split; [apply lookup_insert_eq | reflexivity].
    + rewrite (reload_cars_fail st Hv) in H. discriminate.
Qed.

Lemma strip_all_space s : PyStr.all_space s = true → PyStr.strip s = "".
Proof.
  unfold PyStr.strip, PyStr.all_space.
  induction s as [|c s IH]; [reflexivity|]. cbn. intros H.
  apply andb_prop in H as [Hc Hs]. rewrite Hc. auto.
Qed.

Lemma rstrip_empty s : PyStr.rstrip s = "" → PyStr.all_space s = true.
Proof.
  unfold PyStr.all_space. induction s as [|c s IH]; [reflexivity|]. cbn.
  destruct (PyStr.rstrip s) eqn:E; [|discriminate].
  destruct (PyStr.is_space c); [auto | discriminate].
Qed.

Lemma lstrip_all_space s :
  PyStr.all_space (PyStr.lstrip s) = true → PyStr.all_space s = true.
Proof.
  unfold PyStr.all_space. induction s as [|c s IH]; [reflexivity|]. cbn.
  destruct (PyStr.is_space c) eqn:E; [auto|]. cbn. by rewrite E.
Qed.

(** [s.strip()] is empty exactly when [s] is empty or all white space. *)
Lemma strip_empty_iff s : PyStr.strip s = "" ↔ PyStr.all_space s = true.
Proof.
  split; [|apply strip_all_space].
  intros H. apply lstrip_all_space, rstrip_empty, H.
Qed.

Lemma nonempty_true s : PyStr.nonempty s = true ↔ s ≠ "".
Proof. destruct s; cbn; split; congruence. Qed.

(** What passing both tests says about the row and the car built from it. *)
Lemma row_listed_spec r :
  row_listed r = true ↔
  PyStr.all_space (default "" (r !! "id")) = false
  ∧ r !! "status" ≠ Some "hidden".
Proof.
  unfold row_listed, row_car_id. rewrite andb_true_iff, nonempty_true.
  rewrite negb_true_iff, bool_decide_eq_false, strip_empty_iff.
  rewrite not_true_iff_false. reflexivity.
Qed.

Lemma listed_car_fields c :
  listed_car c → Car.id c ≠ "" ∧ Car.status c ≠ "hidden"
                 ∧ is_Some (Car.photos_folder_id c).
Proof.
  intros (r & Hr & ->). unfold row_listed in Hr.
  apply andb_prop in Hr as [H1 H2]. cbn. split; [by apply nonempty_true|].
  split; [|eauto].
  apply negb_true_iff, bool_decide_eq_false in H2.
  destruct (r !! "status") as [s|]; cbn; [congruence | discriminate].
Qed.

(** ** The claims about the car loader *)

(** C4.  Whatever the sheet holds and whatever the age of the cache, every
    car in the list that [load_cars] returns (which is the list held in the
    cache) was built from a row whose id is neither empty nor all white
    space and whose status is not ["hidden"]. *)
Theorem load_cars_lists_only_listed_rows :
  ∀ st r st', reachable st → load_cars st = (inr r, st') →
    ∃ cs e,
      cars_of (heap st') r = Some cs
      ∧ cache st' !! "cars" = Some e ∧ data e = r
      ∧ Forall (fun c => ∃ row, c = car_of_row row
                  ∧ PyStr.all_space (default "" (row !! "id")) = false
                  ∧ row !! "status" ≠ Some "hidden") cs
      ∧ Forall (fun c => Car.id c ≠ "" ∧ Car.status c ≠ "hidden") cs.
Proof.
  intros st r st' Hr H.
  destruct (load_cars_returns st r st' (reachable_cache_inv st Hr) H)
    as (l & items & e & -> & Hl & Hok & He & Hd).
  destruct (cars_ok_cars_of _ _ _ Hl Hok) as (cs & Hcs & F & _).
  exists cs, e. repeat split; auto.
  - eapply Forall_impl; [exact F|]. intros c (row & Hrow & ->).
    exists row. split; [reflexivity|]. by apply row_listed_spec.
  - eapply Forall_impl; [exact F|]. intros c Hc.
    destruct (listed_car_fields c Hc) as (H1 & H2 & _). auto.
Qed.

Lemma load_cars_lists_only_listed_rows_witness :
  ∃ cs e,
    cars_of (heap (snd (load_cars Demo.st0))) (HRef 2%nat) = Some cs
    ∧ cache (snd (load_cars Demo.st0)) !! "cars" = Some e
    ∧ data e = HRef 2%nat
    ∧ Forall (fun c => ∃ row, c = car_of_row row
                ∧ PyStr.all_space (default "" (row !! "id")) = false
                ∧ row !! "status" ≠ Some "hidden") cs
    ∧ Forall (fun c => Car.id c ≠ "" ∧ Car.status c ≠ "hidden") cs.
Proof.
  apply (load_cars_lists_only_listed_rows Demo.st0 (HRef 2%nat)
           (snd (load_cars Demo.st0))).
  - apply reach_boot.
  - vm_compute. reflexivity.
Defined.

(** A second call within the window, the cached list being non-empty: the
    same list object is returned and nothing at all happens to the state,
    so there is no fetch and no shuffle. *)
Lemma load_cars_hit st e l items :
  cache st !! "cars" = Some e → data e = HRef l →
  heap st !! l = Some (OList items) → items ≠ [] →
  (clock st - ts e <= inject_Z CACHE_TTL_CARS)%Q →
  load_cars st = (inr (HRef l), st).
Proof.
  intros He Hd Hl Hne Ht.
  pose proof (get_cached_fresh "cars" CACHE_TTL_CARS st e He Ht) as Hg.
  rewrite Hd in Hg. rewrite (load_cars_cases _ _ Hg), (truthy_list _ _ _ Hl).
  rewrite bool_decide_eq_false_2 by exact Hne. reflexivity.
Qed.

Lemma load_cars_again st r st1 st2 cs :
  reachable st → load_cars st = (inr r, st1) →
  cars_of (heap st1) r = Some cs → cs ≠ [] →
  heap st2 = heap st1 → cache st2 = cache st1 →
  (∀ e, cache st1 !! "cars" = Some e →
        (clock st2 - ts e <= inject_Z CACHE_TTL_CARS)%Q) →
  load_cars st2 = (inr r, st2).
Proof.
  intros Hr H Hcs Hne Hh Hc Ht.
  destruct (load_cars_returns st r st1 (reachable_cache_inv st Hr) H)
    as (l & items & e & -> & Hl & Hok & He & Hd).
  apply (load_cars_hit st2 e l items); rewrite ?Hh, ?Hc; auto.
  intros ->. unfold cars_of in Hcs. rewrite Hl in Hcs.
  apply Hne. by injection Hcs.
Qed.

(** C2, at the input where it fails.  The sheet has a header row and no
    car.  The first call fetches and caches the empty list, with a time
    stamp; a second call, no time having passed, fetches again because the
    empty list counts as false in [if cached]; with rows added to the
    sheet in between it draws from the random source again and returns
    other ids than the first call. *)
Theorem load_cars_refetches_empty_list :
  let out1 := load_cars Demo.st_empty in
  let st1 := snd out1 in
  let out2 := load_cars (with_env Demo.w st1) in
  returned_ids out1 = Some []
  ∧ cache st1 !! "cars" = Some {| data := HRef 0%nat; ts := 1 # 4 |}
  ∧ clock st1 = 1 # 4
  ∧ calls st1 = [SheetsGet "cars"]
  ∧ calls (snd (load_cars st1)) = [SheetsGet "cars"; SheetsGet "cars"]
  ∧ calls (snd out2) = [SheetsGet "cars"; SheetsGet "cars"]
  ∧ tape st1 = [5; 2; 7]%nat ∧ tape (snd out2) = [2; 7]%nat
  ∧ returned_ids out2 = Some ["a1"; "c3"].
Proof. vm_compute. repeat split; reflexivity. Qed.

(** ** The status default *)

Lemma status_of_absent_column r :
  r !! "status" = None → Car.status (car_of_row r) = "active".
Proof. intros H. cbn. by rewrite H. Qed.

Lemma status_of_cell r s :
  r !! "status" = Some s → Car.status (car_of_row r) = s.
Proof. intros H. cbn. by rewrite H. Qed.

Lemma fill_item_other headers row i item k :
  k ∉ headers → fill_item i headers row item !! k = item !! k.
Proof.
  revert i item. induction headers as [|h hs IH]; intros i item Hk;
    [reflexivity|].
  apply not_elem_of_cons in Hk as [Hne Hk]. cbn. rewrite IH by done.
  by rewrite lookup_insert_ne.
Qed.

(** Every header is a key of every record, whatever the length of the row. *)
Lemma fill_item_lookup headers row i item k :
  k ∈ headers → is_Some (fill_item i headers row item !! k).
Proof.
  revert i item. induction headers as [|h hs IH]; intros i item Hk.
  - by apply elem_of_nil in Hk.
  - cbn. destruct (decide (k ∈ hs)) as [Hin|Hnin]; [by apply IH|].
    apply elem_of_cons in Hk as [->|]; [|done].
    rewrite fill_item_other by done. rewrite lookup_insert_eq. eauto.
Qed.

(** With a status column in the sheet, the default of [r.get] is never
    used: the status of a car is the cell, or [""] for a short row. *)
Lemma status_with_column headers row :
  "status" ∈ headers →
  ∃ s, fill_item 0 headers row ∅ !! "status" = Some s
       ∧ Car.status (car_of_row (fill_item 0 headers row ∅)) = s.
Proof.
  intros H. destruct (fill_item_lookup headers row 0 ∅ "status" H) as [s Hs].
  exists s. split; [exact Hs | by apply status_of_cell].
Qed.

(** C3, at the input where it fails.  The sheet has a status column; the
    first car row has an empty status cell and the second row is short, so
    that [read_sheet] pads it.  Both cars come out with status [""], not
    ["active"]. *)
Theorem load_cars_keeps_empty_status :
  let out := load_cars Demo.st_status in
  records_of [["id"; "status"]; ["a1"; ""]; ["b2"]]
  = [ {[ "id" := "a1"; "status" := "" ]}; {[ "id" := "b2"; "status" := "" ]} ]
  ∧ returned_ids out = Some ["b2"; "a1"]
  ∧ (map Car.status <$> cars_of (heap (snd out))
                                (match fst out with inr r => r | inl _ => HNone end))
    = Some [""; ""].
Proof. vm_compute. repeat split; reflexivity. Qed.

(** ** The profile loader *)

Lemma load_profile_cases st h :
  get_cached "profile" CACHE_TTL_META st = (inr h, st) →
  load_profile st
  = match truthy h st with
    | (inr true, _) => (inr h, st)
    | (inr false, _) => reload_profile st
    | (inl e, _) => (inl e, st)
    end.
Proof.
  intros H. unfold load_profile, reload_profile, bind. rewrite H.
  pose proof (truthy_state h st) as Hs.
  destruct (truthy h st) as [[e|[]] st1]; simpl in Hs; subst; reflexivity.
Qed.

Lemma reload_profile_fail st :
  sheet_values (env st) !! "profile" = None →
  reload_profile st
  = (inl (HttpError "sheets"), with_call (SheetsGet "profile") st).
Proof.
  intros H. unfold reload_profile, bind. rewrite read_sheet_eq, H. reflexivity.
Qed.

(** The hero image never makes the profile fail: a failing file service
    gives [None]. *)
Lemma load_hero_image_eq st :
  ∃ st', load_hero_image st
         = (inr (folder_photos (env st) (Some HERO_FOLDER_ID) ≫= first_url), st')
         ∧ quiet st st' ∧ env st' = env st.
Proof.
  unfold load_hero_image, try_except, bind. rewrite load_photos_eq.
  destruct (folder_photos _ _); cbn.
  - eexists. split; [reflexivity|]. repeat split; reflexivity.
  - eexists. split; [reflexivity|]. repeat split; reflexivity.
Qed.

Lemma reload_profile_ok st values :
  sheet_values (env st) !! "profile" = Some values →
  let row := default ∅ (head (records_of values)) in
  let hero := folder_photos (env st) (Some HERO_FOLDER_ID) ≫= first_url in
  let p := length (heap st) in
  ∃ st',
    reload_profile st = (inr (HRef p), st')
    ∧ heap st' = heap st ++ [ODict (<["hero_image" := opt_val VStr hero]> (VStr <$> row))]
    ∧ cache st' = <["profile" := {| data := HRef p; ts := clock st' |}]> (cache st)
    ∧ env st' = env st.
Proof.
  intros H row hero p. unfold reload_profile, bind. rewrite read_sheet_eq, H.
  cbv [alloc]. cbn [heap with_heap with_call].
  set (st1 := with_heap _ _).
  destruct (load_hero_image_eq st1) as (st2 & E & (Hh & Hc) & He).
  rewrite E. cbv [dict_setitem bind load]. rewrite Hh. subst st1.
  cbn [heap with_heap]. rewrite lookup_last.
  cbv [store modify set_cache bind time_time gets ret]. rewrite Hh.
  cbn [heap with_heap]. rewrite insert_last.
  eexists. split; [reflexivity|]. cbn. rewrite Hc, He. cbn.
  repeat split; reflexivity.
Qed.

(** C6.  A failing load never writes the cache.  When [load_cars] or
    [load_profile] raises, the cache is exactly what it was; and on a miss
    with the sheet read raising, the loader does raise that error to its
    caller, having done only the remote call. *)
Theorem load_failure_leaves_cache :
  ∀ st,
    (∀ e st', load_cars st = (inl e, st') → cache st' = cache st)
    ∧ (∀ e st', load_profile st = (inl e, st') → cache st' = cache st)
    ∧ (∀ h, get_cached "cars" CACHE_TTL_CARS st = (inr h, st) →
            truthy h st = (inr false, st) →
            sheet_values (env st) !! "cars" = None →
            load_cars st
            = (inl (HttpError "sheets"), with_call (SheetsGet "cars") st))
    ∧ (∀ h, get_cached "profile" CACHE_TTL_META st = (inr h, st) →
            truthy h st = (inr false, st) →
            sheet_values (env st) !! "profile" = None →
            load_profile st
            = (inl (HttpError "sheets"), with_call (SheetsGet "profile") st)).
Proof.
  intros st. repeat split.
  - intros e st' H.
    destruct (get_cached_total "cars" CACHE_TTL_CARS st) as [h Hg].
    rewrite (load_cars_cases _ _ Hg) in H.
    pose proof (truthy_state h st) as Hs.
    destruct (truthy h st) as [[x|[]] s1]; cbn in Hs; subst s1.
    + by injection H as _ <-.
    + discriminate.
    + destruct (sheet_values (env st) !! "cars") as [values|] eqn:Hv.
      * destruct (reload_cars_ok st values Hv) as (x' & t & _ & E).
        rewrite E in H. discriminate.
      * rewrite (reload_cars_fail st Hv) in H. by injection H as _ <-.
  - intros e st' H.
    destruct (get_cached_total "profile" CACHE_TTL_META st) as [h Hg].
    rewrite (load_profile_cases _ _ Hg) in H.
    pose proof (truthy_state h st) as Hs.
    destruct (truthy h st) as [[x|[]] s1]; cbn in Hs; subst s1.
    + by injection H as _ <-.
    + discriminate.
    + destruct (sheet_values (env st) !! "profile") as [values|] eqn:Hv.
      * destruct (reload_profile_ok st values Hv) as (s2 & E & _).
        rewrite E in H. discriminate.
      * rewrite (reload_profile_fail st Hv) in H. by injection H as _ <-.
  - intros h Hg Ht Hv.
    rewrite (load_cars_cases _ _ Hg), Ht. by apply reload_cars_fail.
  - intros h Hg Ht Hv.
    rewrite (load_profile_cases _ _ Hg), Ht. by apply reload_profile_fail.
Qed.

Lemma load_failure_leaves_cache_witness :
  load_cars Demo.st_down
  = (inl (HttpError "sheets"), with_call (SheetsGet "cars") Demo.st_down)
  ∧ cache (snd (load_cars Demo.st_down)) = cache Demo.st_down
  ∧ cache (snd (load_profile Demo.st_down)) = cache Demo.st_down.
Proof.
  destruct (load_failure_leaves_cache Demo.st_down) as (H1 & H2 & H3 & H4).
  split; [|split].
  - apply (H3 HNone); reflexivity.
  - apply (H1 (HttpError "sheets")). vm_compute. reflexivity.
  - apply (H2 (HttpError "sheets")). vm_compute. reflexivity.
Defined.

(** ** The numeric parsers *)

Lemma parse_float_unparsable s :
  py_float (PyStr.strip (PyStr.remove_char "," (PyStr.remove_char "$" s))) = None →
  parse_float (Some s) = None.
Proof. intros H. unfold parse_float. rewrite H. by destruct (PyStr.nonempty s). Qed.

(** *** Rounding to binary64 *)

Lemma div_half_even_spec n d :
  0 <= n -> 0 < d ->
  0 <= div_half_even n d
  /\ 2 * Z.abs (n - div_half_even n d * d) <= d
  /\ (2 * Z.abs (n - div_half_even n d * d) = d -> Z.even (div_half_even n d) = true).
Proof.
  intros Hn Hd. unfold div_half_even.
  pose proof (Z.div_mod n d ltac:(lia)) as E.
  pose proof (Z.mod_pos_bound n d Hd) as B.
  pose proof (Z.div_pos n d Hn Hd) as Q.
  destruct (Z.compare_spec (2 * (n mod d)) d) as [C|C|C].
  - destruct (Z.even (n / d)) eqn:Ev.
    + repeat split; [lia | nia | auto].
    + repeat split; [lia | nia |]. intros _.
      rewrite Z.add_1_r, Z.even_succ, <- Z.negb_even, Ev. reflexivity.
  - repeat split; [lia | nia | nia].
  - repeat split; [lia | nia | nia].
Qed.

Section Bracket.

Variables n d : Z.
Hypothesis Hn : 0 < n.
Hypothesis Hd : 0 < d.

Lemma pow2_split a b : 0 <= a -> 0 <= b -> 2 ^ (a + b) = 2 ^ a * 2 ^ b.
Proof. intros. by apply Z.pow_add_r. Qed.

Lemma ge_pow_low : ge_pow n d (Z.log2 n - Z.log2 d - 1).
Proof.
  destruct (Z.log2_spec n Hn) as [Ha _].
  destruct (Z.log2_spec d Hd) as [_ Hb].
  pose proof (Z.log2_nonneg n) as Pa. pose proof (Z.log2_nonneg d) as Pb.
  set (a := Z.log2 n) in *. set (b := Z.log2 d) in *.
  unfold ge_pow. destruct (Z.leb_spec 0 (a - b - 1)) as [H|H].
  - assert (E : 2 ^ a = 2 ^ (a - b - 1) * 2 ^ Z.succ b).
    { rewrite <- pow2_split by lia. f_equal. lia. }
    pose proof (Z.pow_pos_nonneg 2 (a - b - 1) ltac:(lia) H). nia.
  - assert (E : 2 ^ Z.succ b = 2 ^ a * 2 ^ (- (a - b - 1))).
    { rewrite <- pow2_split by lia. f_equal. lia. }
    pose proof (Z.pow_pos_nonneg 2 (- (a - b - 1)) ltac:(lia) ltac:(lia)). nia.
Qed.

Lemma lt_pow_high : lt_pow n d (Z.log2 n - Z.log2 d + 1).
Proof.
  destruct (Z.log2_spec n Hn) as [_ Ha].
  destruct (Z.log2_spec d Hd) as [Hb _].
  pose proof (Z.log2_nonneg n) as Pa. pose proof (Z.log2_nonneg d) as Pb.
  set (a := Z.log2 n) in *. set (b := Z.log2 d) in *.
  unfold lt_pow. destruct (Z.leb_spec 0 (a - b + 1)) as [H|H].
  - assert (E : 2 ^ Z.succ a = 2 ^ b * 2 ^ (a - b + 1)).
    { rewrite <- pow2_split by lia. f_equal. lia. }
    pose proof (Z.pow_pos_nonneg 2 (a - b + 1) ltac:(lia) H). nia.
  - assert (E : 2 ^ b = 2 ^ Z.succ a * 2 ^ (- (a - b + 1))).
    { rewrite <- pow2_split by lia. f_equal. lia. }
    pose proof (Z.pow_pos_nonneg 2 (- (a - b + 1)) ltac:(lia) ltac:(lia)). nia.
Qed.

End Bracket.

Section Round.
Variables n d : Z.
Hypothesis Hn : 0 < n.
Hypothesis Hd : 0 < d.

Lemma bracket :
  let k := Z.log2 n - Z.log2 d in
  let t :=
    if (if 0 <=? k then d * 2 ^ k <=? n else d <=? n * 2 ^ (- k))
    then k else k - 1 in
  ge_pow n d t ∧ lt_pow n d (t + 1).
Proof.
  intros k t. subst t.
  pose proof (ge_pow_low n d Hn Hd) as L.
  pose proof (lt_pow_high n d Hn Hd) as U. fold k in L, U.
  destruct (if 0 <=? k then d * 2 ^ k <=? n else d <=? n * 2 ^ (- k)) eqn:C.
  - split; [|exact U]. unfold ge_pow.
    destruct (0 <=? k); by apply Z.leb_le.
  - split; [exact L|]. replace (k - 1 + 1) with k by lia. unfold lt_pow.
    destruct (0 <=? k); by apply Z.leb_gt.
Qed.

Lemma scaled_den_pos e : 0 < scaled_den d e.
Proof.
  unfold scaled_den. destruct (Z.leb_spec 0 e) as [H|H]; [|exact Hd].
  pose proof (Z.pow_pos_nonneg 2 e ltac:(lia) H). nia.
Qed.

Lemma scaled_num_pos e : 0 < scaled_num n e.
Proof.
  unfold scaled_num. destruct (Z.leb_spec 0 e) as [H|H]; [exact Hn|].
  pose proof (Z.pow_pos_nonneg 2 (- e) ltac:(lia) ltac:(lia)). nia.
Qed.

(** A normal number: the scaled value lies in [[2^52, 2^53)]. *)
Lemma scaled_normal t :
  ge_pow n d t → lt_pow n d (t + 1) →
  2 ^ 52 * scaled_den d (t - 52) <= scaled_num n (t - 52)
  ∧ scaled_num n (t - 52) < 2 ^ 53 * scaled_den d (t - 52).
Proof.
  unfold ge_pow, lt_pow, scaled_num, scaled_den.
  destruct (Z.leb_spec 0 (t - 52)) as [He|He].
  - rewrite (proj2 (Z.leb_le 0 t)), (proj2 (Z.leb_le 0 (t + 1))) by lia.
    replace t with (t - 52 + 52) at 1 by lia.
    replace (t + 1) with (t - 52 + 53) by lia.
    rewrite !pow2_split by lia. intros L U. lia.
  - pose proof (Z.pow_pos_nonneg 2 (- (t - 52)) ltac:(lia) ltac:(lia)) as P.
    intros L U. split.
    + destruct (Z.leb_spec 0 t) as [Ht|Ht].
      * assert (E : 2 ^ 52 = 2 ^ t * 2 ^ (- (t - 52))).
        { rewrite <- pow2_split by lia. f_equal. lia. }
        rewrite E. nia.
      * assert (E : 2 ^ (- (t - 52)) = 2 ^ (- t) * 2 ^ 52).
        { rewrite <- pow2_split by lia. f_equal. lia. }
        rewrite E. nia.
    + destruct (Z.leb_spec 0 (t + 1)) as [Ht|Ht].
      * assert (E : 2 ^ 53 = 2 ^ (t + 1) * 2 ^ (- (t - 52))).
        { rewrite <- pow2_split by lia. f_equal. lia. }
        rewrite E. nia.
      * assert (E : 2 ^ (- (t - 52)) = 2 ^ (- (t + 1)) * 2 ^ 53).
        { rewrite <- pow2_split by lia. f_equal. lia. }
        rewrite E. nia.
Qed.

(** Below the normal range the scaled value is under [2^52]. *)
Lemma scaled_subnormal t :
  lt_pow n d (t + 1) → t - 52 < -1074 →
  scaled_num n (-1074) < 2 ^ 52 * scaled_den d (-1074).
Proof.
  unfold lt_pow, scaled_num, scaled_den. intros U Ht.
  rewrite (proj2 (Z.leb_gt 0 (t + 1))) in U by lia.
  change (0 <=? -1074) with false. cbv iota. change (- -1074) with 1074.
  pose proof (Z.pow_pos_nonneg 2 (- (t + 1)) ltac:(lia) ltac:(lia)) as P.
  destruct (Z.le_gt_cases (- (t + 1)) 1074) as [H|H].
  - assert (E : 2 ^ 1074 = 2 ^ (- (t + 1)) * 2 ^ (1074 + (t + 1))).
    { rewrite <- pow2_split by lia. f_equal. lia. }
    assert (B : 2 ^ (1074 + (t + 1)) <= 2 ^ 52).
    { apply Z.pow_le_mono_r; lia. }
    pose proof (Z.pow_pos_nonneg 2 (1074 + (t + 1)) ltac:(lia) ltac:(lia)).
    rewrite E. nia.
  - assert (B : 2 ^ 1074 <= 2 ^ (- (t + 1))).
    { apply Z.pow_le_mono_r; lia. }
    assert (1 <= 2 ^ 52) by (apply Z.pow_le_mono_r with (b := 0); lia).
    nia.
Qed.

Lemma scaled_succ e :
  (scaled_num n e = scaled_num n (e + 1)
   ∧ scaled_den d (e + 1) = 2 * scaled_den d e)
  ∨ (scaled_num n e = 2 * scaled_num n (e + 1)
     ∧ scaled_den d (e + 1) = scaled_den d e).
Proof.
  unfold scaled_num, scaled_den.
  destruct (Z.leb_spec 0 e) as [He|He].
  - left. rewrite (proj2 (Z.leb_le 0 (e + 1))) by lia.
    split; [reflexivity|]. rewrite pow2_split by lia. change (2 ^ 1) with 2. lia.
  - right. destruct (Z.leb_spec 0 (e + 1)) as [He'|He'].
    + assert (e = -1) as -> by lia. cbn. lia.
    + split; [|reflexivity]. replace (- e) with (- (e + 1) + 1) by lia.
      rewrite pow2_split by lia. change (2 ^ 1) with 2. lia.
Qed.

(** [round_binary64] gives a binary64 number within half a unit in the
    last place of [n / d], and no number only from the midpoint between the
    largest one and [2^1024] on. *)
Lemma round_binary64_spec :
  match round_binary64 n d with
  | Some (m, e) =>
      Z.of_N m < 2 ^ 53 ∧ -1074 <= e <= 971
      ∧ (-1074 < e → 2 ^ 52 <= Z.of_N m)
      ∧ 2 * Z.abs (scaled_num n e - Z.of_N m * scaled_den d e) <= scaled_den d e
      ∧ (2 * Z.abs (scaled_num n e - Z.of_N m * scaled_den d e) = scaled_den d e
         → Z.even (Z.of_N m) = true)
  | None => (2 ^ 54 - 1) * 2 ^ 971 * d <= 2 * n
  end.
Proof.
  unfold round_binary64. rewrite (proj2 (Z.eqb_neq n 0)) by lia.
  pose proof bracket as B. cbv zeta in B |- *.
  set (k := Z.log2 n - Z.log2 d) in *.
  set (t := if (if 0 <=? k then d * 2 ^ k <=? n else d <=? n * 2 ^ (- k))
            then k else k - 1) in *.
  clearbody t. destruct B as [L U]. set (e := Z.max (t - 52) (-1074)).
  assert (Em : (if 0 <=? e then div_half_even n (d * 2 ^ e)
                else div_half_even (n * 2 ^ (- e)) d)
               = div_half_even (scaled_num n e) (scaled_den d e)).
  { unfold scaled_num, scaled_den. by destruct (0 <=? e). }
  rewrite Em. clear Em.
  pose proof (scaled_den_pos e) as HD. pose proof (scaled_num_pos e) as HN.
  destruct (div_half_even_spec (scaled_num n e) (scaled_den d e)
              ltac:(lia) HD) as (Hm0 & Herr & Htie).
  set (m0 := div_half_even _ _) in *. clearbody m0.
  assert (Hup : scaled_num n e < 2 ^ 53 * scaled_den d e).
  { destruct (Z.max_spec (t - 52) (-1074)) as [[Hlt He]|[Hge He]]; fold e in He.
    - rewrite He. pose proof (scaled_subnormal t U ltac:(lia)).
      pose proof (scaled_den_pos (-1074)). lia.
    - rewrite He. apply (scaled_normal t L U). }
  assert (Hlow : -1074 < e → 2 ^ 52 * scaled_den d e <= scaled_num n e).
  { intros He'. assert (e = t - 52) as -> by lia. apply (scaled_normal t L U). }
  assert (Hle : m0 <= 2 ^ 53) by nia.
  assert (Hge : -1074 < e → 2 ^ 52 <= m0) by (intros He'; specialize (Hlow He'); nia).
  assert (Hemin : -1074 <= e) by lia.
  assert (Hbig : ∀ x, 971 <= x <= e →
                 2 ^ x * d <= scaled_den d e ∧ scaled_num n e = n).
  { intros x He'. unfold scaled_num, scaled_den.
    rewrite (proj2 (Z.leb_le 0 e)) by lia. split; [|reflexivity].
    assert (2 ^ x <= 2 ^ e) by (apply Z.pow_le_mono_r; lia). nia. }
  destruct (Z.eqb_spec m0 (2 ^ 53)) as [E|E].
  - destruct (Z.ltb_spec 971 (e + 1)) as [Ho|Ho].
    + destruct (Hbig 971 ltac:(lia)) as [B EN]. rewrite EN in *. subst m0. lia.
    + rewrite Z2N.id by lia. split; [lia|]. split; [lia|]. split; [lia|].
      subst m0.
      split; [|reflexivity].
      destruct (scaled_succ e) as [[E1 E2]|[E1 E2]]; rewrite E1 in Herr;
        rewrite E2; lia.
  - destruct (Z.ltb_spec 971 e) as [Ho|Ho].
    + destruct (Hbig 972 ltac:(lia)) as [B EN]. rewrite EN in *.
      specialize (Hlow ltac:(lia)). lia.
    + rewrite Z2N.id by lia. split; [lia|]. split; [lia|]. split; [exact Hge|].
      split; [exact Herr | exact Htie].
Qed.

End Round.

(** The float read from a numeral with a digit other than zero: the sign
    is kept; a finite result is a binary64 number within half a unit in the
    last place of the numeral, even in case of a tie; an infinity stands
    for a numeral at or beyond the midpoint above the largest number. *)
Lemma float_of_decimal_spec neg digits exp10 :
  (0 < digits)%N →
  let n := if 0 <=? exp10 then Z.of_N digits * 10 ^ exp10 else Z.of_N digits in
  let d := if 0 <=? exp10 then 1 else 10 ^ (- exp10) in
  match float_of_decimal neg digits exp10 with
  | FFin s m e =>
      s = neg ∧ Z.of_N m < 2 ^ 53 ∧ -1074 <= e <= 971
      ∧ (-1074 < e → 2 ^ 52 <= Z.of_N m)
      ∧ 2 * Z.abs (scaled_num n e - Z.of_N m * scaled_den d e) <= scaled_den d e
      ∧ (2 * Z.abs (scaled_num n e - Z.of_N m * scaled_den d e) = scaled_den d e
         → Z.even (Z.of_N m) = true)
  | FInf s => s = neg ∧ (2 ^ 54 - 1) * 2 ^ 971 * d <= 2 * n
  | FNan _ => False
  end.
Proof.
  intros Hpos n d. unfold float_of_decimal.
  assert (Hn : 0 < n).
  { subst n. destruct (Z.leb_spec 0 exp10) as [H|H]; [|lia].
    pose proof (Z.pow_pos_nonneg 10 exp10 ltac:(lia) H). nia. }
  assert (Hd : 0 < d).
  { subst d. destruct (Z.leb_spec 0 exp10) as [H|H]; [lia|].
    apply Z.pow_pos_nonneg; lia. }
  assert (E : (if 0 <=? exp10
               then round_binary64 (Z.of_N digits * 10 ^ exp10) 1
               else round_binary64 (Z.of_N digits) (10 ^ (- exp10)))
              = round_binary64 n d).
  { subst n d. by destruct (0 <=? exp10). }
  rewrite E. pose proof (round_binary64_spec n d Hn Hd) as S.
  destruct (round_binary64 n d) as [[m e]|]; [|auto].
  split; [reflexivity | exact S].
Qed.

(** *** Which characters an accepted text can hold *)

Lemma str_app_cons c (a b : string) :
  (String c a ++ b)%string = String c (a ++ b)%string.
Proof. reflexivity. Qed.

Lemma str_app_nil_l (b : string) : ("" ++ b)%string = b.
Proof. reflexivity. Qed.

Section AllChars.

Import PyStr.

Lemma all_chars_impl (P Q : ascii → bool) s :
  (∀ c, P c = true → Q c = true) →
  all_chars P s = true → all_chars Q s = true.
Proof.
  intros HPQ. induction s as [|c s IH]; [reflexivity|]. cbn [all_chars].
  rewrite !andb_true_iff. intros [Hc Hs]. auto.
Qed.

Lemma all_chars_app P (a b : string) :
  all_chars P (a ++ b)%string = all_chars P a && all_chars P b.
Proof.
  induction a as [|c a IH]; [by rewrite str_app_nil_l|].
  rewrite str_app_cons. cbn [all_chars]. by rewrite IH, andb_assoc.
Qed.

Lemma all_chars_lskip p R s :
  (∀ c, p c = true → R c = true) →
  all_chars R (lskip p s) = true → all_chars R s = true.
Proof.
  intros Hp. induction s as [|c s IH]; [reflexivity|]. cbn [lskip all_chars].
  destruct (p c) eqn:Ec.
  - intros H. rewrite (Hp c Ec), (IH H). reflexivity.
  - cbn [all_chars]. auto.
Qed.

Lemma all_chars_rskip p R s :
  (∀ c, p c = true → R c = true) →
  all_chars R (rskip p s) = true → all_chars R s = true.
Proof.
  intros Hp. induction s as [|c s IH]; [reflexivity|]. cbn [rskip all_chars].
  destruct (rskip p s) as [|d r] eqn:E.
  - destruct (p c) eqn:Ec.
    + intros _. rewrite (Hp c Ec), IH; reflexivity.
    + cbn [all_chars]. rewrite andb_true_r. intros ->. by rewrite IH.
  - change (all_chars R (String c (String d r)))
      with (R c && all_chars R (String d r)).
    rewrite !andb_true_iff. intros [Hc Hs]. auto.
Qed.

Lemma lstrip_lskip s : lstrip s = lskip is_space s.
Proof. induction s as [|c s IH]; [reflexivity|]. cbn. by rewrite IH. Qed.

Lemma rstrip_rskip s : rstrip s = rskip is_space s.
Proof. induction s as [|c s IH]; [reflexivity|]. cbn. by rewrite IH. Qed.

Lemma all_chars_strip R s :
  (∀ c, is_space c = true → R c = true) →
  all_chars R (strip s) = true → all_chars R s = true.
Proof.
  intros Hp H. unfold strip in H. rewrite rstrip_rskip, lstrip_lskip in H.
  eauto using all_chars_lskip, all_chars_rskip.
Qed.

Lemma all_chars_remove_char R c s :
  R c = true → all_chars R (remove_char c s) = true → all_chars R s = true.
Proof.
  intros Hc. induction s as [|d s IH]; [reflexivity|].
  cbn [remove_char all_chars]. destruct (Ascii.eqb d c) eqn:E.
  - apply Ascii.eqb_eq in E. subst d. intros H. by rewrite Hc, IH.
  - cbn [all_chars]. rewrite !andb_true_iff. intros [Hd Hs]. auto.
Qed.

Lemma all_chars_take_sign R s :
  R "+"%char = true → R "-"%char = true →
  all_chars R (snd (take_sign s)) = true → all_chars R s = true.
Proof.
  intros Hp Hm. destruct s as [|c s]; [reflexivity|]. cbn [take_sign].
  destruct (Ascii.eqb c "-") eqn:E1.
  { apply Ascii.eqb_eq in E1. subst c. cbn [snd all_chars]. by rewrite Hm. }
  destruct (Ascii.eqb c "+") eqn:E2; [|auto].
  apply Ascii.eqb_eq in E2. subst c. cbn [snd all_chars]. by rewrite Hp.
Qed.

(** A text that survives [to_ascii] without a question mark was not cut
    short: its characters below 127 are kept and the others are white
    space. *)
Lemma all_chars_to_ascii Q R s :
  Q "?"%char = false →
  (∀ c, (code c <? 127)%N = true → Q c = true → R c = true) →
  (∀ c, (code c <? 127)%N = false → is_space c = true → R c = true) →
  all_chars Q (to_ascii s) = true → all_chars R s = true.
Proof.
  intros Hq Hlow Hhigh. induction s as [|c s IH]; [reflexivity|].
  cbn [to_ascii all_chars]. destruct (code c <? 127)%N eqn:Ec.
  - cbn [all_chars]. rewrite !andb_true_iff. intros [Hc Hs]. auto.
  - destruct (is_space c) eqn:Es.
    + cbn [all_chars]. rewrite !andb_true_iff. intros [_ Hs]. auto.
    + cbn [all_chars]. rewrite Hq. discriminate.
Qed.

Lemma all_chars_c_strip Q R s :
  Q "?"%char = false →
  (∀ c, is_c_space c = true → Q c = true) →
  (∀ c, (code c <? 127)%N = true → Q c = true → R c = true) →
  (∀ c, (code c <? 127)%N = false → is_space c = true → R c = true) →
  all_chars Q (c_strip s) = true → all_chars R s = true.
Proof.
  intros Hq Hsp Hlow Hhigh H. unfold c_strip in H.
  eauto using all_chars_to_ascii, all_chars_lskip, all_chars_rskip.
Qed.

Lemma span_digits_spec s d r :
  span_digits s = (d, r) → s = (d ++ r)%string ∧ all_chars is_digit d = true.
Proof.
  revert d r. induction s as [|c s IH]; intros d r; cbn [span_digits].
  - intros [= <- <-]. split; reflexivity.
  - destruct (is_digit c) eqn:Ec.
    + destruct (span_digits s) as [d' r'] eqn:E. intros [= <- <-].
      destruct (IH _ _ eq_refl) as [-> Hd]. split.
      * by rewrite str_app_cons.
      * cbn [all_chars]. by rewrite Ec, Hd.
    + intros [= <- <-]. split; [by rewrite str_app_nil_l | reflexivity].
Qed.

Lemma all_chars_lower Q s :
  all_chars Q (lower s) = all_chars (fun c => Q (lower_char c)) s.
Proof. induction s as [|c s IH]; [reflexivity|]. cbn. by rewrite IH. Qed.

End AllChars.

Lemma high_space_num_space c :
  (PyStr.code c <? 127)%N = false → PyStr.is_space c = true →
  num_space c = true.
Proof.
  unfold PyStr.is_space, num_space, is_c_space. cbv zeta.
  generalize (PyStr.code c). intros n Hn.
  apply N.ltb_ge in Hn.
  rewrite !orb_true_iff, !andb_true_iff, !N.leb_le, !N.eqb_eq.
  intros [[[[H1 H2]|[H1 H2]]|H]|H]; try lia; auto.
Qed.

Lemma c_space_is_space c : is_c_space c = true → PyStr.is_space c = true.
Proof.
  unfold PyStr.is_space, is_c_space. cbv zeta.
  generalize (PyStr.code c). intros n.
  rewrite !orb_true_iff, !andb_true_iff, !N.leb_le, !N.eqb_eq.
  intros [[H1 H2]|H]; [auto | left; left; right; lia].
Qed.

Lemma num_space_is_space c : num_space c = true → PyStr.is_space c = true.
Proof.
  unfold num_space. rewrite !orb_true_iff.
  intros [[H|H]|H]; [by apply c_space_is_space | |];
    unfold PyStr.is_space; cbv zeta; rewrite H;
    rewrite ?orb_true_r; reflexivity.
Qed.

(** A text that [int] accepts consists of digits, signs, underscores and
    the white space that [int] skips. *)
Lemma py_int_chars s z : py_int s = Some z → PyStr.all_chars int_char s = true.
Proof.
  unfold py_int. destruct (take_sign (c_strip s)) as [neg body] eqn:Et.
  destruct (underscores_ok false body); [|discriminate].
  destruct (PyStr.nonempty _ && all_digits _ && _) eqn:E; [|discriminate].
  intros _. apply andb_true_iff in E as [E _].
  apply andb_true_iff in E as [_ E]. unfold all_digits in E.
  apply (all_chars_c_strip int_char); try reflexivity.
  - intros c Hc. unfold int_char, num_space. rewrite Hc.
    rewrite ?orb_true_r. reflexivity.
  - auto.
  - intros c Hc Hs. unfold int_char.
    rewrite (high_space_num_space c Hc Hs). rewrite ?orb_true_r. reflexivity.
  - apply all_chars_take_sign; [reflexivity..|]. rewrite Et. cbn [snd].
    apply (all_chars_remove_char _ "_"); [reflexivity|].
    eapply all_chars_impl; [|exact E].
    intros c Hc. unfold int_char. by rewrite Hc.
Qed.

(** *** How many digits [int] accepts *)

Section CountChars.

Import PyStr.

Lemma count_chars_all p s :
  all_chars p s = true → count_chars p s = String.length s.
Proof.
  induction s as [|c s IH]; [reflexivity|]. cbn [all_chars count_chars].
  rewrite andb_true_iff. intros [-> Hs]. cbn. by rewrite IH.
Qed.

Lemma count_chars_lskip p q s :
  (∀ c, p c = true → q c = false) →
  count_chars q (lskip p s) = count_chars q s.
Proof.
  intros Hp. induction s as [|c s IH]; [reflexivity|]. cbn [lskip count_chars].
  destruct (p c) eqn:Ec; [|reflexivity]. by rewrite (Hp c Ec), IH.
Qed.

Lemma count_chars_rskip p q s :
  (∀ c, p c = true → q c = false) →
  count_chars q (rskip p s) = count_chars q s.
Proof.
  intros Hp. induction s as [|c s IH]; [reflexivity|]. cbn [rskip count_chars].
  destruct (rskip p s) as [|d r] eqn:E.
  - destruct (p c) eqn:Ec.
    + rewrite (Hp c Ec), <- IH. reflexivity.
    + cbn [count_chars]. by rewrite <- IH.
  - change (count_chars q (String c (String d r)))
      with ((if q c then 1 else 0) + count_chars q (String d r))%nat.
    by rewrite IH.
Qed.

Lemma count_chars_remove_char q c s :
  q c = false → count_chars q (remove_char c s) = count_chars q s.
Proof.
  intros Hc. induction s as [|d s IH]; [reflexivity|].
  cbn [remove_char count_chars]. destruct (Ascii.eqb d c) eqn:E.
  - apply Ascii.eqb_eq in E. subst d. by rewrite Hc, IH.
  - cbn [count_chars]. by rewrite IH.
Qed.

Lemma count_chars_take_sign q s :
  q "+"%char = false → q "-"%char = false →
  count_chars q (snd (take_sign s)) = count_chars q s.
Proof.
  intros Hp Hm. destruct s as [|c s]; [reflexivity|]. cbn [take_sign].
  destruct (Ascii.eqb c "-") eqn:E1.
  { apply Ascii.eqb_eq in E1. subst c. cbn [snd count_chars]. by rewrite Hm. }
  destruct (Ascii.eqb c "+") eqn:E2; [|reflexivity].
  apply Ascii.eqb_eq in E2. subst c. cbn [snd count_chars]. by rewrite Hp.
Qed.

Lemma high_not_digit c : (code c <? 127)%N = false → is_digit c = false.
Proof.
  unfold is_digit. cbv zeta. generalize (code c). intros n Hn.
  apply N.ltb_ge in Hn. apply andb_false_iff. right. apply N.leb_gt. lia.
Qed.

(** [to_ascii] keeps the digits of a text that it does not cut short. *)
Lemma count_digits_to_ascii Q s :
  Q "?"%char = false → all_chars Q (to_ascii s) = true →
  count_chars is_digit (to_ascii s) = count_chars is_digit s.
Proof.
  intros Hq. induction s as [|c s IH]; [reflexivity|].
  cbn [to_ascii all_chars count_chars]. destruct (code c <? 127)%N eqn:Ec.
  - cbn [all_chars count_chars]. rewrite andb_true_iff. intros [_ Hs].
    by rewrite IH.
  - destruct (is_space c) eqn:Es.
    + cbn [all_chars count_chars]. rewrite andb_true_iff. intros [_ Hs].
      by rewrite (high_not_digit c Ec), IH.
    + cbn [all_chars]. rewrite Hq. discriminate.
Qed.

End CountChars.

(** A text that [int] accepts has at most 4300 digits. *)
Lemma py_int_digits s z :
  py_int s = Some z →
  (N.of_nat (PyStr.count_chars PyStr.is_digit s) <= int_max_str_digits)%N.
Proof.
  unfold py_int. destruct (take_sign (c_strip s)) as [neg body] eqn:Et.
  destruct (underscores_ok false body); [|discriminate].
  destruct (PyStr.nonempty _ && all_digits _ && _) eqn:E; [|discriminate].
  intros _. apply andb_true_iff in E as [E Hlen].
  apply andb_true_iff in E as [_ E]. unfold all_digits in E.
  apply N.leb_le in Hlen. rewrite <- (count_chars_all _ _ E) in Hlen.
  rewrite count_chars_remove_char in Hlen by reflexivity.
  assert (Hb : PyStr.all_chars int_char (c_strip s) = true).
  { apply all_chars_take_sign; [reflexivity..|]. rewrite Et. cbn [snd].
    apply (all_chars_remove_char _ "_"); [reflexivity|].
    eapply all_chars_impl; [|exact E].
    intros c Hc. unfold int_char. by rewrite Hc. }
  replace body with (snd (take_sign (c_strip s))) in Hlen by (by rewrite Et).
  rewrite count_chars_take_sign in Hlen by reflexivity.
  unfold c_strip in Hlen, Hb.
  assert (Hsp : ∀ c, is_c_space c = true → PyStr.is_digit c = false).
  { intros c. unfold is_c_space, PyStr.is_digit. cbv zeta.
    generalize (PyStr.code c). intros n.
    rewrite !orb_true_iff, !andb_true_iff, andb_false_iff, !N.leb_le, N.eqb_eq,
      !N.leb_gt. lia. }
  rewrite count_chars_rskip, count_chars_lskip in Hlen by exact Hsp.
  rewrite (count_digits_to_ascii int_char) in Hlen; [exact Hlen | reflexivity |].
  eapply all_chars_lskip, all_chars_rskip, Hb.
  - intros c Hc. unfold int_char, num_space. rewrite Hc.
    rewrite ?orb_true_r. reflexivity.
  - intros c Hc. unfold int_char, num_space. rewrite Hc.
    rewrite ?orb_true_r. reflexivity.
Qed.

Lemma parse_exponent_chars s e :
  parse_exponent s = Some e → PyStr.all_chars float_char s = true.
Proof.
  destruct s as [|c s]; [reflexivity|]. cbn [parse_exponent].
  destruct (Ascii.eqb c "e" || Ascii.eqb c "E") eqn:Ec; [|discriminate].
  destruct (take_sign s) as [neg body] eqn:Et.
  destruct (span_digits body) as [d r] eqn:Es.
  destruct d as [|d0 ds]; [discriminate|].
  destruct r; [|discriminate]. intros _.
  cbn [PyStr.all_chars]. apply andb_true_iff. split.
  - unfold float_char. apply orb_true_iff in Ec as [->| ->];
      rewrite ?orb_true_r; reflexivity.
  - apply all_chars_take_sign; [reflexivity..|]. rewrite Et. cbn [snd].
    destruct (span_digits_spec _ _ _ Es) as [-> Hd].
    rewrite all_chars_app, andb_true_r.
    eapply all_chars_impl; [|exact Hd].
    intros c' Hc'. unfold float_char. by rewrite Hc'.
Qed.

Lemma name_chars body name :
  PyStr.all_chars name_letter name = true →
  String.eqb (PyStr.lower body) name = true →
  PyStr.all_chars float_char body = true.
Proof.
  intros Hn E. apply String.eqb_eq in E. subst name.
  rewrite all_chars_lower in Hn. eapply all_chars_impl; [|exact Hn].
  intros c Hc. unfold float_char. cbv beta in Hc. rewrite Hc.
  rewrite ?orb_true_r. reflexivity.
Qed.

(** A text that [float] accepts consists of digits, signs, underscores, a
    point, the exponent mark, letters of [inf], [infinity] and [nan], and
    white space. *)
Lemma py_float_chars s f :
  py_float s = Some f → PyStr.all_chars float_char s = true.
Proof.
  unfold py_float.
  destruct (underscores_ok false (c_strip s)); [|discriminate].
  destruct (take_sign _) as [neg body] eqn:Et.
  destruct (span_digits body) as [ip r1] eqn:E1.
  set (frac := match r1 with
               | String c r =>
                   if Ascii.eqb c "." then span_digits r else (EmptyString, r1)
               | EmptyString => (EmptyString, r1)
               end).
  assert (Hr1 : ∀ fp r2, frac = (fp, r2) →
            PyStr.all_chars float_char r2 = true →
            PyStr.all_chars float_char r1 = true).
  { intros fp r2 Hf Hr2. subst frac. destruct r1 as [|c r]; [by injection Hf as _ <-|].
    destruct (Ascii.eqb c ".") eqn:Ec; [|by injection Hf as _ <-].
    apply Ascii.eqb_eq in Ec. subst c.
    destruct (span_digits_spec _ _ _ Hf) as [-> Hd].
    cbn [PyStr.all_chars]. rewrite all_chars_app, Hr2, andb_true_r.
    eapply all_chars_impl; [|exact Hd].
    intros c' Hc'. unfold float_char. by rewrite Hc'. }
  destruct frac as [fp r2] eqn:Ef. specialize (Hr1 fp r2 eq_refl).
  assert (Hbody : PyStr.all_chars float_char body = true →
                  PyStr.all_chars float_char s = true).
  { intros Hb.
    apply (all_chars_c_strip float_char); try reflexivity.
    - intros c Hc. unfold float_char. rewrite (c_space_is_space c Hc).
      rewrite ?orb_true_r. reflexivity.
    - auto.
    - intros c _ Hs. unfold float_char. rewrite Hs.
      rewrite ?orb_true_r. reflexivity.
    - apply (all_chars_remove_char _ "_"); [reflexivity|].
      apply all_chars_take_sign; [reflexivity..|]. by rewrite Et. }
  destruct (PyStr.nonempty ip || PyStr.nonempty fp).
  - destruct (parse_exponent r2) as [e|] eqn:Ee; [|discriminate].
    intros _. apply Hbody.
    destruct (span_digits_spec _ _ _ E1) as [-> Hd].
    rewrite all_chars_app, (Hr1 (parse_exponent_chars _ _ Ee)), andb_true_r.
    eapply all_chars_impl; [|exact Hd].
    intros c' Hc'. unfold float_char. by rewrite Hc'.
  - cbv zeta.
    destruct (String.eqb (PyStr.lower body) "inf") eqn:N1;
      [intros _; apply Hbody; by apply (name_chars body "inf")|].
    destruct (String.eqb (PyStr.lower body) "infinity") eqn:N2;
      [intros _; apply Hbody; by apply (name_chars body "infinity")|].
    destruct (String.eqb (PyStr.lower body) "nan") eqn:N3;
      [intros _; apply Hbody; by apply (name_chars body "nan")|].
    discriminate.
Qed.

Lemma parse_int_chars s z :
  parse_int (Some s) = Some z → PyStr.all_chars int_char s = true.
Proof. apply py_int_chars. Qed.

Lemma parse_float_chars s f :
  parse_float (Some s) = Some f → PyStr.all_chars float_char s = true.
Proof.
  unfold parse_float. destruct (PyStr.nonempty s); [|discriminate].
  intros H. apply py_float_chars in H.
  apply (all_chars_remove_char _ "$"); [reflexivity|].
  apply (all_chars_remove_char _ ","); [reflexivity|].
  apply all_chars_strip; [|exact H].
  intros c Hc. unfold float_char. rewrite Hc. rewrite ?orb_true_r. reflexivity.
Qed.

(** Changing one numeric cell of a row changes that field of the car and
    nothing else: the row stays, or stays away, as before. *)
Lemma numeric_cell_is_local r k v :
  k ∈ ["year"; "price_usd"; "price_krw"; "mileage_km"] →
  let c := car_of_row r in
  let c' := car_of_row (<[k := v]> r) in
  row_listed (<[k := v]> r) = row_listed r
  ∧ Car.id c' = Car.id c ∧ Car.brand c' = Car.brand c
  ∧ Car.model c' = Car.model c ∧ Car.engine c' = Car.engine c
  ∧ Car.transmission c' = Car.transmission c ∧ Car.fuel c' = Car.fuel c
  ∧ Car.description c' = Car.description c ∧ Car.status c' = Car.status c
  ∧ Car.photos_folder_id c' = Car.photos_folder_id c
  ∧ (k ≠ "year" → Car.year c' = Car.year c)
  ∧ (k ≠ "price_usd" → Car.price_usd c' = Car.price_usd c)
  ∧ (k ≠ "price_krw" → Car.price_krw c' = Car.price_krw c)
  ∧ (k ≠ "mileage_km" → Car.mileage_km c' = Car.mileage_km c).
Proof.
  intros Hk c c'. subst c c'.
  unfold row_listed, row_car_id, car_of_row; cbn [Car.id Car.brand Car.model
    Car.engine Car.transmission Car.fuel Car.description Car.status
    Car.photos_folder_id Car.year Car.price_usd Car.price_krw Car.mileage_km].
  unfold row_car_id.
  repeat (apply elem_of_cons in Hk as [->|Hk]);
    [..|by apply elem_of_nil in Hk];
    rewrite !(lookup_insert_ne r) by discriminate;
    repeat split; try reflexivity; intros Hne;
    solve [ by rewrite lookup_insert_ne | congruence ].
Qed.

(** With a readable cars tab, [load_cars] returns whatever the cells hold. *)
Lemma load_cars_total st values :
  cache_inv st → sheet_values (env st) !! "cars" = Some values →
  ∃ h st', load_cars st = (inr h, st').
Proof.
  intros Hinv Hv.
  destruct (get_cached_total "cars" CACHE_TTL_CARS st) as [h Hg].
  rewrite (load_cars_cases _ _ Hg).
  assert (Ht : ∃ b, truthy h st = (inr b, st)).
  { destruct h as [|l]; [by exists false|].
    destruct (get_cached_ref _ _ _ _ Hg) as (e & He & Hd & _).
    destruct (Hinv e He) as (l' & items & Hd' & Hl & _).
    rewrite Hd in Hd'. injection Hd' as <-.
    rewrite (truthy_list _ _ _ Hl). eauto. }
  destruct Ht as [[] ->]; [eauto|].
  destruct (reload_cars_ok st values Hv) as (x' & t & _ & E). eauto.
Qed.

(** C9.  ["$12,345.00"] parses to the float 12345.0; the empty string, a
    missing cell and any text that [float] or [int] rejects parse to
    [None]: among them every text with a character that no number has (for
    [int] anything but digits, signs, underscores and white space), a text
    that [str.strip] would trim but [int] does not, and every text with
    more than 4300 digits.  Such a cell affects its own field only: the row is
    listed or not as before and every other field of its car is the same;
    the loop over the rows never raises and makes one car per listed row,
    and [load_cars] returns whenever the cars tab can be read. *)
Theorem parse_failures_give_absence :
  (parse_float (Some "$12,345.00") = Some (FFin false (12345 * 2 ^ 39) (-39))
   ∧ ∃ q, float_value (FFin false (12345 * 2 ^ 39) (-39)) = Some q
          ∧ (q == 12345)%Q)
  ∧ parse_float (Some "") = None ∧ parse_float None = None
  ∧ parse_float (Some "n/a") = None ∧ parse_float (Some "12.3.4") = None
  ∧ parse_int (Some "") = None ∧ parse_int None = None
  ∧ parse_int (Some "2020.0") = None ∧ parse_int (Some "12 000") = None
  ∧ parse_int (Some (String (ascii_of_N 28) "2020")) = None
  ∧ parse_int (Some (Demo.nines 4301)) = None
  ∧ (∀ s, py_float (PyStr.strip (PyStr.remove_char "," (PyStr.remove_char "$" s)))
          = None → parse_float (Some s) = None)
  ∧ (∀ s, py_int s = None → parse_int (Some s) = None)
  ∧ (∀ s, PyStr.all_chars int_char s = false → parse_int (Some s) = None)
  ∧ (∀ s, PyStr.all_chars float_char s = false → parse_float (Some s) = None)
  ∧ (∀ s, (int_max_str_digits < N.of_nat (PyStr.count_chars PyStr.is_digit s))%N →
          parse_int (Some s) = None)
  ∧ (∀ r, Car.year (car_of_row r) = parse_int (r !! "year")
          ∧ Car.price_usd (car_of_row r) = parse_float (r !! "price_usd")
          ∧ Car.price_krw (car_of_row r) = parse_float (r !! "price_krw")
          ∧ Car.mileage_km (car_of_row r) = parse_int (r !! "mileage_km"))
  ∧ (∀ r k v, k ∈ ["year"; "price_usd"; "price_krw"; "mileage_km"] →
        row_listed (<[k := v]> r) = row_listed r
        ∧ Car.id (car_of_row (<[k := v]> r)) = Car.id (car_of_row r)
        ∧ Car.brand (car_of_row (<[k := v]> r)) = Car.brand (car_of_row r)
        ∧ Car.model (car_of_row (<[k := v]> r)) = Car.model (car_of_row r)
        ∧ Car.engine (car_of_row (<[k := v]> r)) = Car.engine (car_of_row r)
        ∧ Car.transmission (car_of_row (<[k := v]> r))
          = Car.transmission (car_of_row r)
        ∧ Car.fuel (car_of_row (<[k := v]> r)) = Car.fuel (car_of_row r)
        ∧ Car.description (car_of_row (<[k := v]> r))
          = Car.description (car_of_row r)
        ∧ Car.status (car_of_row (<[k := v]> r)) = Car.status (car_of_row r)
        ∧ Car.photos_folder_id (car_of_row (<[k := v]> r))
          = Car.photos_folder_id (car_of_row r)
        ∧ (k ≠ "year" →
           Car.year (car_of_row (<[k := v]> r)) = Car.year (car_of_row r))
        ∧ (k ≠ "price_usd" →
           Car.price_usd (car_of_row (<[k := v]> r))
           = Car.price_usd (car_of_row r))
        ∧ (k ≠ "price_krw" →
           Car.price_krw (car_of_row (<[k := v]> r))
           = Car.price_krw (car_of_row r))
        ∧ (k ≠ "mileage_km" →
           Car.mileage_km (car_of_row (<[k := v]> r))
           = Car.mileage_km (car_of_row r)))
  ∧ (∀ rows cars st, ∃ out st',
        build_cars rows cars st = (inr out, st')
        ∧ length out = (length cars + length (List.filter row_listed rows))%nat)
  ∧ (∀ st values, sheet_values (env st) !! "cars" = Some values →
        ∃ h st', reload_cars st = (inr h, st'))
  ∧ (∀ st values, reachable st → sheet_values (env st) !! "cars" = Some values →
        ∃ h st', load_cars st = (inr h, st')).
Proof.
  split; [split; [vm_compute; reflexivity|];
          exists (12345 * 2 ^ 39 # Z.to_pos (2 ^ 39))%Q;
          split; vm_compute; reflexivity|].
  do 8 (split; [reflexivity|]).
  split; [reflexivity|].
  split; [vm_compute; reflexivity|].
  split; [exact parse_float_unparsable|].
  split; [intros s H; exact H|].
  split.
  { intros s H. destruct (parse_int (Some s)) as [z|] eqn:E; [|reflexivity].
    apply parse_int_chars in E. congruence. }
  split.
  { intros s H. destruct (parse_float (Some s)) as [f|] eqn:E; [|reflexivity].
    apply parse_float_chars in E. congruence. }
  split.
  { intros s H. destruct (parse_int (Some s)) as [z|] eqn:E; [|reflexivity].
    apply py_int_digits in E. lia. }
  split; [intros r; repeat split; reflexivity|].
  split.
  { intros r k v Hk. exact (numeric_cell_is_local r k v Hk). }
  split.
  { intros rows cars st. rewrite build_cars_eq. eexists _, _.
    split; [reflexivity|]. by rewrite length_app, length_seq. }
  split.
  - intros st values Hv.
    destruct (reload_cars_ok st values Hv) as (x' & t & _ & E). eauto.
  - intros st values Hr Hv.
    exact (load_cars_total st values (reachable_cache_inv st Hr) Hv).
Qed.

Lemma parse_failures_give_absence_witness :
  parse_float (Some "abc$") = None
  ∧ parse_int (Some "1_") = None
  ∧ parse_int (Some "20x0") = None
  ∧ parse_float (Some "1,5 USD") = None
  ∧ parse_int (Some (" -" ++ Demo.nines 4301 ++ " ")%string) = None
  ∧ Car.id (car_of_row (<["year" := "20x0"]> {[ "id" := "a1" ]})) = "a1"
  ∧ (∃ h st', reload_cars Demo.st0 = (inr h, st'))
  ∧ ∃ h st', load_cars Demo.st0 = (inr h, st').
Proof.
  destruct parse_failures_give_absence
    as (_ & _ & _ & _ & _ & _ & _ & _ & _ & _ & _ & Hf & Hi & Hic & Hfc & Hd
        & _ & Hloc & _ & Hl & Hl').
  split; [apply Hf; reflexivity|].
  split; [apply Hi; reflexivity|].
  split; [apply Hic; reflexivity|].
  split; [apply Hfc; reflexivity|].
  split; [apply Hd; vm_compute; reflexivity|].
  split.
  { destruct (Hloc {[ "id" := "a1" ]} "year" "20x0") as (_ & -> & _);
      [by constructor | reflexivity]. }
  split; [apply (Hl Demo.st0 Demo.cars_tab); reflexivity|].
  apply (Hl' Demo.st0 Demo.cars_tab); [apply reach_boot | reflexivity].
Defined.

(** ** The event logger *)

(** Logging always returns normally. *)
Lemma append_user_event_eq req car_id st :
  append_user_event req car_id st = (inr tt, logged req car_id st).
Proof.
  cbv [append_user_event try_except bind gets sheets_append modify print
       raise logged event_row].
  cbn [env with_call stdout].
  destruct (sheet_values (env st) !! USERS_SHEET) as [values|]; [|reflexivity].
  destruct (append_fails (env st)); reflexivity.
Qed.

Lemma logged_quiet req car_id st : quiet st (logged req car_id st).
Proof.
  unfold logged. destruct (sheet_values (env st) !! USERS_SHEET);
    [destruct (append_fails (env st))|]; split; reflexivity.
Qed.

Lemma logged_calls req car_id st :
  calls (logged req car_id st)
  = calls st ++ [SheetsAppend "users!A:E" (event_row req car_id st)].
Proof.
  unfold logged. destruct (sheet_values (env st) !! USERS_SHEET);
    [destruct (append_fails (env st))|]; reflexivity.
Qed.

Lemma logged_users req car_id st values :
  sheet_values (env st) !! "users" = Some values →
  append_fails (env st) = false →
  sheet_values (env (logged req car_id st)) !! "users"
  = Some (values ++ [event_row req car_id st]).
Proof.
  intros Hv Hf. unfold logged, USERS_SHEET. rewrite Hv, Hf. cbn.
  apply lookup_insert_eq.
Qed.

Lemma logged_other_sheet req car_id st name :
  name ≠ "users" →
  sheet_values (env (logged req car_id st)) !! name
  = sheet_values (env st) !! name.
Proof.
  intros Hn. unfold logged, USERS_SHEET.
  destruct (sheet_values (env st) !! "users"); [|reflexivity].
  destruct (append_fails (env st)); [reflexivity|]. cbn.
  by rewrite lookup_insert_ne.
Qed.

Lemma logged_drive req car_id st :
  drive_files (env (logged req car_id st)) = drive_files (env st).
Proof.
  unfold logged. destruct (sheet_values (env st) !! USERS_SHEET);
    [destruct (append_fails (env st))|]; reflexivity.
Qed.

Lemma logged_rest req car_id st :
  clock (logged req car_id st) = (clock st + latency (env st))%Q
  ∧ tape (logged req car_id st) = tape st
  ∧ latency (env (logged req car_id st)) = latency (env st)
  ∧ utcnow_iso (env (logged req car_id st)) = utcnow_iso (env st).
Proof.
  unfold logged. destruct (sheet_values (env st) !! USERS_SHEET);
    [destruct (append_fails (env st))|]; repeat split; reflexivity.
Qed.

(** ** The remaining relations *)

Section MoreRelations.

Lemma same_env_all_code :
  (∀ c st, same_env st (with_call c st))
  ∧ (∀ o st, same_env st (with_stdout o st))
  ∧ (∀ o st, same_env st (with_heap (heap st ++ [o]) st))
  ∧ (∀ t st, same_env st (with_tape t st))
  ∧ (∀ l o st, same_env st (with_heap (<[l := o]> (heap st)) st))
  ∧ (∀ k e st, same_env st (with_cache (<[k := e]> (cache st)) st)).
Proof. repeat split. Qed.

Lemma more_calls_all_code :
  (∀ c st, more_calls st (with_call c st))
  ∧ (∀ o st, more_calls st (with_stdout o st))
  ∧ (∀ o st, more_calls st (with_heap (heap st ++ [o]) st))
  ∧ (∀ t st, more_calls st (with_tape t st))
  ∧ (∀ l o st, more_calls st (with_heap (<[l := o]> (heap st)) st))
  ∧ (∀ k e st, more_calls st (with_cache (<[k := e]> (cache st)) st)).
Proof.
  unfold more_calls. repeat split; intros; cbn; try reflexivity.
  by apply prefix_app_r.
Qed.

(** Code that never appends to the sheet, under a relation that tolerates
    everything else. *)
Lemma pres_bodies (R : relation state) :
  Reflexive R → Transitive R →
  (∀ c st, R st (with_call c st)) →
  (∀ o st, R st (with_stdout o st)) →
  (∀ o st, R st (with_heap (heap st ++ [o]) st)) →
  (∀ t st, R st (with_tape t st)) →
  (∀ l o st, R st (with_heap (<[l := o]> (heap st)) st)) →
  (∀ k e st, R st (with_cache (<[k := e]> (cache st)) st)) →
  pres R load_cars ∧ pres R load_profile ∧ pres R cars_body
  ∧ ∀ car_id, pres R (detail_body car_id).
Proof.
  intros Hr Ht H1 H2 H3 H4 H5 H6.
  assert (Hl : pres R load_cars).
  { apply pres_load_cars; auto. apply pres_reload_cars; auto. }
  split; [exact Hl|]. split; [|split].
  - apply pres_load_profile; auto. apply pres_reload_profile; auto.
  - apply pres_cars_body; auto; intros ?;
      first [apply pres_enrich_cover; auto | apply pres_alloc; auto].
  - intros car_id. apply pres_detail_body; auto.
    intros b. apply pres_enrich_detail; auto.
Qed.

Lemma same_env_bodies :
  pres same_env load_cars ∧ pres same_env load_profile
  ∧ pres same_env cars_body ∧ ∀ car_id, pres same_env (detail_body car_id).
Proof.
  destruct same_env_all_code as (H1 & H2 & H3 & H4 & H5 & H6).
  apply pres_bodies; auto; apply _.
Qed.

Lemma more_calls_bodies :
  pres more_calls load_cars ∧ pres more_calls load_profile
  ∧ pres more_calls cars_body ∧ ∀ car_id, pres more_calls (detail_body car_id).
Proof.
  destruct more_calls_all_code as (H1 & H2 & H3 & H4 & H5 & H6).
  apply pres_bodies; auto; apply _.
Qed.

End MoreRelations.

(** ** The detail endpoint *)

Lemma list_items_eq l items st :
  heap st !! l = Some (OList items) → list_items (HRef l) st = (inr items, st).
Proof. intros H. cbv [list_items bind load ret]. rewrite H. reflexivity. Qed.

Lemma car_read_eq l c st :
  heap st !! l = Some (OCar c) → car_read l st = (inr c, st).
Proof. intros H. cbv [car_read bind load ret]. rewrite H. reflexivity. Qed.

(** The search returns the first car whose id is [car_id], if any. *)
Lemma find_car_eq car_id items cs st :
  Forall2 (fun i c => heap st !! i = Some (OCar c)) items cs →
  ∃ res, find_car car_id items st = (inr res, st)
         ∧ match List.find (fun c => String.eqb (Car.id c) car_id) cs with
           | None => res = HNone
           | Some base => ∃ b, res = HRef b ∧ heap st !! b = Some (OCar base)
           end.
Proof.
  induction 1 as [|i c items cs Hi _ (res & E & Hres)].
  - exists HNone. split; reflexivity.
  - cbn [find_car List.find]. unfold bind. rewrite (car_read_eq _ _ _ Hi).
    destruct (String.eqb (Car.id c) car_id).
    + exists (HRef i). split; [reflexivity | eauto].
    + exists res. auto.
Qed.

Lemma find_none_iff car_id (cs : list Car.t) :
  List.find (fun c => String.eqb (Car.id c) car_id) cs = None
  ↔ Forall (fun c => Car.id c ≠ car_id) cs.
Proof.
  induction cs as [|c cs IH]; cbn.
  - split; [constructor | reflexivity].
  - destruct (String.eqb_spec (Car.id c) car_id) as [E|E].
    + split; [discriminate|]. intros H. by inversion H.
    + rewrite IH. split; [by constructor|]. intros H. by inversion H.
Qed.

Lemma find_some_id car_id (cs : list Car.t) base :
  List.find (fun c => String.eqb (Car.id c) car_id) cs = Some base →
  base ∈ cs ∧ Car.id base = car_id.
Proof.
  intros H. apply find_some in H as [H1 H2].
  split; [by apply list_elem_of_In | by apply String.eqb_eq].
Qed.

(** The handler after logging, on a state with a well-formed cache: the
    outcome is decided by the search in the list that [load_cars] gave. *)
Lemma detail_body_eq car_id st cars st1 cs :
  cache_inv st → load_cars st = (inr cars, st1) →
  cars_of (heap st1) cars = Some cs →
  detail_body car_id st
  = match List.find (fun c => String.eqb (Car.id c) car_id) cs with
    | None => (inl (HTTPException 404 "Car not found"), st1)
    | Some base =>
        match folder_photos (env st1) (Car.photos_folder_id base) with
        | Some ps =>
            (inr (HRef (length (heap st1))),
             with_heap (heap st1 ++ [OCar (detail_of base (map url ps))])
                       (after_drive (Car.photos_folder_id base) st1))
        | None =>
            (inl (HttpError "drive"),
             with_heap (heap st1 ++ [OCar base])
                       (after_drive (Car.photos_folder_id base) st1))
        end
    end.
Proof.
  intros Hinv H Hcs.
  destruct (load_cars_returns st cars st1 Hinv H)
    as (l & items & e & -> & Hl & Hok & _).
  destruct (cars_ok_cars_of _ _ _ Hl Hok) as (cs' & Hcs' & _ & F2).
  rewrite Hcs in Hcs'. injection Hcs' as <-.
  unfold detail_body. unfold bind at 1. rewrite H.
  unfold bind at 1. rewrite (list_items_eq _ _ _ Hl).
  destruct (find_car_eq car_id items cs st1 F2) as (res & E & Hres).
  unfold bind at 1. rewrite E.
  destruct (List.find _ cs) as [base|].
  - destruct Hres as (b & -> & Hb).
    unfold bind at 1. rewrite (truthy_car _ _ _ Hb). cbn [negb].
    apply (enrich_detail_eq _ _ _ Hb).
  - subst res. reflexivity.
Qed.

(** C5.  With [cs] the cars of the list that [load_cars] gives the handler:
    the request fails with [HTTPException 404] exactly when no car of [cs]
    has an id equal to [car_id]; otherwise, the photo listing having
    returned [ps], it returns a new object, the first such car with
    [photos] set to the urls of [ps], [cover_image] set to the first url
    (or [None] when there is none) and without [photos_folder_id]. *)
Theorem api_car_detail_finds_first_or_404 :
  ∀ st car_id req cars st1 cs,
    reachable st →
    load_cars (logged req (Some car_id) st) = (inr cars, st1) →
    cars_of (heap st1) cars = Some cs →
    let out := api_car_detail car_id req st in
    (fst out = inl (HTTPException 404 "Car not found")
     ↔ Forall (fun c => Car.id c ≠ car_id) cs)
    ∧ (status_code_of (fst out) = 404
       ↔ Forall (fun c => Car.id c ≠ car_id) cs)
    ∧ ∀ base ps,
        List.find (fun c => String.eqb (Car.id c) car_id) cs = Some base →
        folder_photos (env st1) (Car.photos_folder_id base) = Some ps →
        let urls := map url ps in
        let car := length (heap st1) in
        base ∈ cs ∧ Car.id base = car_id
        ∧ fst out = inr (HRef car)
        ∧ heap st1 !! car = None
        ∧ heap (snd out) !! car = Some (OCar (detail_of base urls))
        ∧ Car.photos (detail_of base urls) = Some urls
        ∧ Car.cover_image (detail_of base urls) = Some (head urls)
        ∧ Car.photos_folder_id (detail_of base urls) = None
        ∧ read_body (heap (snd out)) (HRef car)
          = Some (BObj (car_fields (detail_of base urls))).
Proof.
  intros st car_id req cars st1 cs Hr H Hcs out.
  assert (Hinv : cache_inv (logged req (Some car_id) st)).
  { apply (quiet_frame _ _ (logged_quiet req (Some car_id) st)).
    by apply reachable_cache_inv. }
  assert (E : out = detail_body car_id (logged req (Some car_id) st)).
  { unfold out. rewrite api_car_detail_split. unfold bind at 1.
    by rewrite append_user_event_eq. }
  rewrite (detail_body_eq car_id _ cars st1 cs Hinv H Hcs) in E.
  rewrite <- find_none_iff.
  destruct (List.find _ cs) as [base|] eqn:Hf.
  - destruct (find_some_id _ _ _ Hf) as [Hin Hid].
    destruct (folder_photos (env st1) (Car.photos_folder_id base)) as [ps|] eqn:Hp;
      rewrite E; cbn [fst snd status_code_of].
    + split; [split; discriminate|]. split; [split; discriminate|].
      intros base' ps' [= <-] Hp'. rewrite Hp in Hp'. injection Hp' as <-.
      cbn [heap with_heap].
      split; [exact Hin|]. split; [exact Hid|]. split; [reflexivity|].
      split; [apply lookup_ge_None; lia|]. split; [apply lookup_last|].
      do 3 (split; [reflexivity|]).
      unfold read_body. rewrite lookup_last. reflexivity.
    + split; [split; discriminate|]. split; [split; discriminate|].
      intros base' ps' [= <-] Hp'. rewrite Hp in Hp'. discriminate.
  - rewrite E. cbn [fst status_code_of].
    split; [split; reflexivity|]. split; [split; reflexivity|].
    intros base' ps' [=].
Qed.

Lemma api_car_detail_finds_first_or_404_witness :
  fst (api_car_detail "a1" Demo.req_detail Demo.st0) = inr (HRef 3%nat)
  ∧ fst (api_car_detail "A1" Demo.req_detail Demo.st0)
    = inl (HTTPException 404 "Car not found").
Proof.
  split.
  - pose (st1 := snd (load_cars (logged Demo.req_detail (Some "a1") Demo.st0))).
    pose (cs := default [] (cars_of (heap st1) (HRef 2%nat))).
    pose (base := default (car_of_row ∅) (head cs)).
    pose (ps := default [] (folder_photos (env st1) (Car.photos_folder_id base))).
    destruct (api_car_detail_finds_first_or_404 Demo.st0 "a1" Demo.req_detail
                (HRef 2%nat) st1 cs) as (_ & _ & H).
    + apply reach_boot.
    + vm_compute. reflexivity.
    + vm_compute. reflexivity.
    + destruct (H base ps) as (_ & _ & E & _).
      * vm_compute. reflexivity.
      * vm_compute. reflexivity.
      * exact E.
  - pose (st1 := snd (load_cars (logged Demo.req_detail (Some "A1") Demo.st0))).
    pose (cs := default [] (cars_of (heap st1) (HRef 2%nat))).
    destruct (api_car_detail_finds_first_or_404 Demo.st0 "A1" Demo.req_detail
                (HRef 2%nat) st1 cs) as (H & _).
    + apply reach_boot.
    + vm_compute. reflexivity.
    + vm_compute. reflexivity.
    + apply H. vm_compute.
      repeat constructor; discriminate.
Defined.

Lemma api_car_detail_eq car_id req st :
  api_car_detail car_id req st
  = detail_body car_id (logged req (Some car_id) st).
Proof.
  rewrite api_car_detail_split. unfold bind at 1.
  by rewrite append_user_event_eq.
Qed.

Lemma api_cars_eq req st :
  api_cars req st = cars_body (logged req None st).
Proof.
  rewrite api_cars_split. unfold bind at 1. by rewrite append_user_event_eq.
Qed.

(** C10.  The detail handler logs before it looks the car up: for every
    [car_id] the append of the event row is the first remote call of the
    request, whatever happens afterwards; when the append is accepted the
    row is in the users tab at the end of the request; and when no car
    matches, the request ends with 404 in the state that holds the log. *)
Theorem api_car_detail_logs_before_lookup :
  ∀ st car_id req,
    let row := [utcnow_iso (env st); default "" (client_host req);
                default "" (user_agent req); path req; car_id] in
    let out := api_car_detail car_id req st in
    (∃ rest, calls (snd out) = calls st ++ SheetsAppend "users!A:E" row :: rest)
    ∧ (∀ values, sheet_values (env st) !! "users" = Some values →
                 append_fails (env st) = false →
                 sheet_values (env (snd out)) !! "users" = Some (values ++ [row]))
    ∧ (∀ cars st1 cs,
         reachable st →
         load_cars (logged req (Some car_id) st) = (inr cars, st1) →
         cars_of (heap st1) cars = Some cs →
         Forall (fun c => Car.id c ≠ car_id) cs →
         fst out = inl (HTTPException 404 "Car not found")
         ∧ (∃ rest, calls st1 = calls st ++ SheetsAppend "users!A:E" row :: rest)
         ∧ env st1 = env (logged req (Some car_id) st)
         ∧ snd out = st1).
Proof.
  intros st car_id req row out.
  assert (E : out = detail_body car_id (logged req (Some car_id) st))
    by apply api_car_detail_eq.
  destruct more_calls_bodies as (Hc1 & _ & _ & Hc).
  destruct same_env_bodies as (He1 & _ & _ & He).
  split; [|split].
  - specialize (Hc car_id (logged req (Some car_id) st)).
    rewrite <- E in Hc. destruct Hc as [rest Hrest].
    exists rest. rewrite Hrest, logged_calls, <- app_assoc. reflexivity.
  - intros values Hv Hf.
    specialize (He car_id (logged req (Some car_id) st)).
    rewrite <- E in He. unfold same_env in He. rewrite He.
    by apply logged_users.
  - intros cars st1 cs Hr Hl Hcs Hno.
    assert (Hinv : cache_inv (logged req (Some car_id) st)).
    { apply (quiet_frame _ _ (logged_quiet req (Some car_id) st)).
      by apply reachable_cache_inv. }
    rewrite (detail_body_eq car_id _ cars st1 cs Hinv Hl Hcs) in E.
    apply find_none_iff in Hno. rewrite Hno in E. rewrite E. cbn [fst snd].
    split; [reflexivity|]. split; [|split; [|reflexivity]].
    + specialize (Hc1 (logged req (Some car_id) st)). rewrite Hl in Hc1.
      destruct Hc1 as [rest Hrest]. exists rest.
      cbn [snd] in Hrest. rewrite Hrest, logged_calls, <- app_assoc.
      reflexivity.
    + specialize (He1 (logged req (Some car_id) st)). rewrite Hl in He1.
      exact He1.
Qed.

Lemma api_car_detail_logs_before_lookup_witness :
  fst (api_car_detail "nope" Demo.req_detail Demo.st0)
  = inl (HTTPException 404 "Car not found")
  ∧ sheet_values (env (snd (api_car_detail "nope" Demo.req_detail Demo.st0)))
      !! "users"
    = Some [["2024-05-01T10:00:00"; "10.0.0.7"; "curl/8";
             "/api/cars/nope"; "nope"]].
Proof.
  destruct (api_car_detail_logs_before_lookup Demo.st0 "nope" Demo.req_detail)
    as (_ & Hlog & H404).
  split.
  - pose (st1 := snd (load_cars (logged Demo.req_detail (Some "nope") Demo.st0))).
    pose (cs := default [] (cars_of (heap st1) (HRef 2%nat))).
    destruct (H404 (HRef 2%nat) st1 cs) as (E & _).
    + apply reach_boot.
    + vm_compute. reflexivity.
    + vm_compute. reflexivity.
    + vm_compute. repeat constructor; discriminate.
    + exact E.
  - apply (Hlog []); reflexivity.
Defined.

(** ** What the handlers return and what they leave alone *)

Lemma bind_inr {A B} (m : M A) (k : A → M B) st b st' :
  bind m k st = (inr b, st') →
  ∃ a st1, m st = (inr a, st1) ∧ k a st1 = (inr b, st').
Proof.
  unfold bind. destruct (m st) as [[e|a] st1]; [discriminate|]. eauto.
Qed.

Lemma copy_then_read_inr {A} b (k : Car.t → loc → M A) st r st' :
  (car <- dict_copy b ;; c0 <- car_read car ;; k c0 car) st = (inr r, st') →
  ∃ c0, heap st !! b = Some (OCar c0).
Proof.
  destruct (heap st !! b) as [[d|c0|items]|] eqn:H; [|eauto| |].
  - cbv [bind dict_copy load alloc car_read]. rewrite H.
    cbn [heap with_heap]. rewrite lookup_last. discriminate.
  - cbv [bind dict_copy load raise]. rewrite H. discriminate.
  - cbv [bind dict_copy load]. rewrite H. discriminate.
Qed.

Lemma enrich_cover_inr c st car st' :
  enrich_cover c st = (inr car, st') →
  ∃ c0 cover, heap st !! c = Some (OCar c0) ∧ car = length (heap st)
              ∧ heap st' = heap st ++ [OCar (cover_of c0 cover)].
Proof.
  intros H. destruct (copy_then_read_inr _ _ _ _ _ H) as [c0 Hc].
  rewrite (enrich_cover_eq _ _ _ Hc) in H.
  destruct (folder_photos _ _) as [ps|]; [|discriminate].
  injection H as <- <-. eauto.
Qed.

Lemma enrich_detail_inr b st r st' :
  enrich_detail b st = (inr r, st') →
  ∃ c0 urls, heap st !! b = Some (OCar c0) ∧ r = HRef (length (heap st))
             ∧ heap st' = heap st ++ [OCar (detail_of c0 urls)].
Proof.
  intros H. destruct (copy_then_read_inr _ _ _ _ _ H) as [c0 Hc].
  rewrite (enrich_detail_eq _ _ _ Hc) in H.
  destruct (folder_photos _ _) as [ps|]; [|discriminate].
  injection H as <- <-. eauto.
Qed.

Lemma stripped_grows h h' l : h `prefix_of` h' → stripped h l → stripped h' l.
Proof.
  intros Hp (c & Hl & Hc). exists c. split; [|exact Hc].
  eapply prefix_lookup_Some; eauto.
Qed.

Lemma enrich_all_inr cars result st out st' :
  enrich_all cars result st = (inr out, st') →
  Forall (stripped (heap st)) result → Forall (stripped (heap st')) out.
Proof.
  revert result st. induction cars as [|c cars IH]; intros result st H Hres.
  - injection H as <- <-. exact Hres.
  - cbn [enrich_all] in H. apply bind_inr in H as (car & st1 & H1 & H2).
    destruct (enrich_cover_inr _ _ _ _ H1) as (c0 & cover & Hc & -> & Hh).
    apply (IH _ _ H2). apply Forall_app. split.
    + eapply Forall_impl; [exact Hres|]. intros l. apply stripped_grows.
      rewrite Hh. by apply prefix_app_r.
    + constructor; [|constructor]. exists (cover_of c0 cover).
      rewrite Hh, lookup_last. split; reflexivity.
Qed.

Lemma car_fields_stripped c :
  Car.photos_folder_id c = None → has_field "photos_folder_id" (car_fields c) = false.
Proof.
  destruct c as [? ? ? ? ? ? ? ? ? ? ? ? pf cov ph]. cbn. intros ->.
  destruct ph, cov; reflexivity.
Qed.

Lemma read_body_stripped h l items :
  h !! l = Some (OList items) → Forall (stripped h) items →
  ∃ b, read_body h (HRef l) = Some b ∧ has_key "photos_folder_id" b = false.
Proof.
  intros Hl F. unfold read_body. rewrite Hl.
  assert (∃ fs, mapM (fun i => h !! i ≫= obj_fields) items = Some fs
                ∧ existsb (has_field "photos_folder_id") fs = false)
    as (fs & E & Hk).
  { clear Hl. unfold stripped in F.
    induction F as [|i items (c & Hi & Hc) _ (fs & E & Hk)].
    - exists []. split; reflexivity.
    - exists (car_fields c :: fs). split.
      + cbn. rewrite Hi. cbn. rewrite E. reflexivity.
      + cbn [existsb]. by rewrite (car_fields_stripped c Hc), Hk. }
  exists (BArr fs). rewrite E. split; [reflexivity | exact Hk].
Qed.

Lemma cars_body_inr st r st' :
  cars_body st = (inr r, st') →
  ∃ b, read_body (heap st') r = Some b ∧ has_key "photos_folder_id" b = false.
Proof.
  intros H. unfold cars_body in H.
  apply bind_inr in H as (cars & st1 & _ & H).
  apply bind_inr in H as (items & st2 & _ & H).
  apply bind_inr in H as (result & st3 & Hen & H).
  apply bind_inr in H as (l & st4 & Hal & H).
  injection H as <- <-. cbv [alloc] in Hal. injection Hal as <- <-.
  cbn [heap with_heap].
  apply (read_body_stripped _ _ result); [apply lookup_last|].
  eapply Forall_impl; [apply (enrich_all_inr _ _ _ _ _ Hen); constructor|].
  intros i. apply stripped_grows. by apply prefix_app_r.
Qed.

Lemma detail_body_inr car_id st r st' :
  detail_body car_id st = (inr r, st') →
  ∃ b, read_body (heap st') r = Some b ∧ has_key "photos_folder_id" b = false.
Proof.
  intros H. unfold detail_body in H.
  apply bind_inr in H as (cars & st1 & _ & H).
  apply bind_inr in H as (items & st2 & _ & H).
  apply bind_inr in H as (base & st3 & _ & H).
  apply bind_inr in H as (found & st4 & _ & H).
  destruct (negb found); [discriminate|].
  destruct base as [|b]; [discriminate|].
  destruct (enrich_detail_inr _ _ _ _ H) as (c0 & urls & _ & -> & Hh).
  rewrite Hh. unfold read_body. rewrite lookup_last.
  eexists. split; [reflexivity|]. by apply car_fields_stripped.
Qed.

Lemma listed_car_intact c :
  listed_car c →
  is_Some (Car.photos_folder_id c) ∧ Car.cover_image c = None
  ∧ Car.photos c = None.
Proof. intros (r & _ & ->). cbn. eauto. Qed.

Lemma cache_inv_intact st : cache_inv st → cached_cars_intact st.
Proof.
  intros Hinv e He. destruct (Hinv e He) as (l & items & -> & Hl & Hok).
  destruct (cars_ok_cars_of _ _ _ Hl Hok) as (cs & Hcs & F & _).
  exists cs. split; [exact Hcs|].
  eapply Forall_impl; [exact F|]. apply listed_car_intact.
Qed.

Lemma has_field_map_to_list (d : gmap string val) k :
  has_field k (map_to_list d) = true ↔ is_Some (d !! k).
Proof.
  unfold has_field. rewrite existsb_exists. split.
  - intros ([k' v] & Hin & Hk). apply String.eqb_eq in Hk. cbn in Hk. subst k'.
    apply list_elem_of_In, elem_of_map_to_list in Hin. eauto.
  - intros [v Hv]. exists (k, v). split.
    + by apply list_elem_of_In, elem_of_map_to_list.
    + apply String.eqb_refl.
Qed.

(** ** Logging does not influence the payload *)

Section Blind.

Lemma blind_ret {A} (a : A) : blind (ret a).
Proof. intros st1 st2 H. split; [reflexivity | exact H]. Qed.

Lemma blind_raise {A} e : blind (@raise A e).
Proof. intros st1 st2 H. split; [reflexivity | exact H]. Qed.

Lemma blind_bind {A B} (m : M A) (k : A → M B) :
  blind m → (∀ a, blind (k a)) → blind (bind m k).
Proof.
  intros Hm Hk st1 st2 H. unfold bind. destruct (Hm st1 st2 H) as [E1 E2].
  destruct (m st1) as [[e|a] s1], (m st2) as [[e'|a'] s2]; cbn in *;
    try discriminate.
  - split; [congruence | exact E2].
  - injection E1 as <-. by apply Hk.
Qed.

Lemma blind_gets {A} (f : state → A) :
  (∀ st1 st2, agree st1 st2 → f st1 = f st2) → blind (gets f).
Proof. intros Hf st1 st2 H. split; [cbn; f_equal; by apply Hf | exact H]. Qed.

Lemma blind_modify f :
  (∀ st1 st2, agree st1 st2 → agree (f st1) (f st2)) → blind (modify f).
Proof. intros Hf st1 st2 H. split; [reflexivity | by apply Hf]. Qed.

Ltac blind_go :=
  repeat first
    [ apply blind_ret | apply blind_raise
    | assumption
    | match goal with H : ∀ _, blind _ |- _ => apply H end
    | match goal with H : ∀ _ _, blind _ |- _ => apply H end
    | match goal with H : ∀ _ _ _, blind _ |- _ => apply H end
    | apply blind_bind; [ | intros ? ]
    | match goal with
      | |- blind (match ?x with _ => _ end) => destruct x
      end ].

Ltac agree_go :=
  let H := fresh in
  intros ? ? H; unfold agree in *; cbn;
  destruct H as (? & ? & ? & ? & ? & ? & ? & ? & ?);
  repeat split; try congruence; auto.

Lemma blind_load l : blind (load l).
Proof.
  intros st1 st2 H. unfold load. pose proof H as (Hh & _). rewrite Hh.
  destruct (heap st2 !! l); (split; [reflexivity | exact H]).
Qed.

Lemma blind_alloc o : blind (alloc o).
Proof.
  intros st1 st2 H. unfold alloc. cbn.
  destruct H as (H1 & H2 & H3 & H4 & H5 & H6 & H7 & H8 & H9). rewrite H1.
  split; [reflexivity|]. repeat split; auto.
Qed.

Lemma blind_store l o : blind (store l o).
Proof. unfold store. apply blind_modify. agree_go. Qed.

Lemma blind_time_time : blind time_time.
Proof. apply blind_gets. agree_go. Qed.

Lemma blind_randbelow n : blind (randbelow n).
Proof.
  intros st1 st2 H. unfold randbelow.
  destruct H as (H1 & H2 & H3 & H4 & H5 & H6 & H7 & H8 & H9). rewrite H4.
  destruct (tape st2) eqn:E; cbn; (split; [reflexivity|]); repeat split;
    auto; congruence.
Qed.

Lemma blind_car_read l : blind (car_read l).
Proof. unfold car_read. pose proof blind_load. blind_go. Qed.

Lemma blind_car_update l f : blind (car_update l f).
Proof. unfold car_update. pose proof blind_load. pose proof blind_store. blind_go. Qed.

Lemma blind_dict_copy c : blind (dict_copy c).
Proof. unfold dict_copy. pose proof blind_load. pose proof blind_alloc. blind_go. Qed.

Lemma blind_list_items h : blind (list_items h).
Proof. unfold list_items. pose proof blind_load. blind_go. Qed.

Lemma blind_truthy h : blind (truthy h).
Proof. unfold truthy. pose proof blind_load. blind_go. Qed.

Lemma blind_get_cached key ttl : blind (get_cached key ttl).
Proof.
  unfold get_cached. pose proof blind_time_time.
  apply blind_bind; [apply blind_gets; agree_go | intros item]. blind_go.
Qed.

Lemma blind_set_cache key d : blind (set_cache key d).
Proof.
  unfold set_cache. pose proof blind_time_time.
  apply blind_bind; [assumption | intros now]. apply blind_modify. agree_go.
Qed.

Lemma blind_read_sheet name : name ≠ USERS_SHEET → blind (read_sheet name).
Proof.
  intros Hn. unfold read_sheet, sheets_get.
  apply blind_bind; [|intros values; apply blind_ret].
  apply blind_bind; [apply blind_modify; agree_go | intros _].
  apply blind_bind; [apply blind_gets; agree_go | intros tab]. blind_go.
Qed.

Lemma blind_load_photos f : blind (load_photos f).
Proof.
  unfold load_photos, drive_list. destruct f as [[|a s]|]; try apply blind_ret.
  apply blind_bind; [|intros files; apply blind_ret].
  apply blind_bind; [apply blind_modify; agree_go | intros _].
  apply blind_bind; [apply blind_gets; agree_go | intros res]. blind_go.
Qed.

Lemma blind_build_cars rows cars : blind (build_cars rows cars).
Proof.
  revert cars. induction rows as [|r rows IH]; intros cars; cbn [build_cars];
    pose proof blind_alloc; blind_go.
Qed.

Lemma blind_shuffle_from {A} i (x : list A) : blind (shuffle_from i x).
Proof.
  revert x. induction i as [|i IH]; intros x; cbn [shuffle_from];
    pose proof blind_randbelow; blind_go.
Qed.

Lemma blind_load_cars : blind load_cars.
Proof.
  unfold load_cars, random_shuffle.
  pose proof blind_get_cached. pose proof blind_truthy.
  pose proof (blind_read_sheet "cars" ltac:(discriminate)).
  pose proof blind_build_cars. pose proof (@blind_shuffle_from loc).
  pose proof blind_alloc. pose proof blind_set_cache. blind_go.
Qed.

Lemma blind_enrich_cover c : blind (enrich_cover c).
Proof.
  unfold enrich_cover. pose proof blind_dict_copy. pose proof blind_car_read.
  pose proof blind_load_photos. pose proof blind_car_update. blind_go.
Qed.

Lemma blind_enrich_all cars result : blind (enrich_all cars result).
Proof.
  revert result. induction cars as [|c cars IH]; intros result;
    cbn [enrich_all]; pose proof blind_enrich_cover; blind_go.
Qed.

Lemma blind_cars_body : blind cars_body.
Proof.
  unfold cars_body. pose proof blind_load_cars. pose proof blind_list_items.
  pose proof blind_enrich_all. pose proof blind_alloc. blind_go.
Qed.

(** Logging itself: the two runs may end differently inside, but both
    return normally and the states still agree. *)
Lemma logged_agree req car_id st1 st2 :
  agree st1 st2 → agree (logged req car_id st1) (logged req car_id st2).
Proof.
  intros (H1 & H2 & H3 & H4 & H5 & H6 & H7 & H8 & H9).
  pose proof (logged_quiet req car_id st1) as [Q1 Q2].
  pose proof (logged_quiet req car_id st2) as [Q3 Q4].
  unfold agree.
  destruct (logged_rest req car_id st1) as (R1 & R2 & R3 & R4).
  destruct (logged_rest req car_id st2) as (R5 & R6 & R7 & R8).
  rewrite Q1, Q2, Q3, Q4, !logged_calls, !logged_drive.
  rewrite R1, R2, R3, R4, R5, R6, R7, R8.
  unfold event_row. rewrite H3, H4, H5, H7, H8.
  repeat split; auto.
  intros name Hn. rewrite !logged_other_sheet by exact Hn. by apply H9.
Qed.

Lemma blind_api_cars req : blind (api_cars req).
Proof.
  intros st1 st2 H. rewrite !api_cars_eq.
  apply blind_cars_body. by apply logged_agree.
Qed.

End Blind.

Lemma agree_append_flag st b1 b2 :
  agree (with_env (with_append_fails b1 (env st)) st)
        (with_env (with_append_fails b2 (env st)) st).
Proof. unfold agree. cbn. repeat split. Qed.

(** C7.  Nothing raised while the event is logged reaches the handler:
    [append_user_event] always returns normally, and [api_cars] run where
    the append is refused and run where it is accepted has the same
    outcome (hence the same status, 200 whenever the run without failure
    has it), returns the same object, and leaves the same heap and cache,
    so the same body; the refusal only shows in what is printed. *)
Theorem api_cars_same_with_failing_append :
  ∀ st req,
    let bad := api_cars req (with_env (with_append_fails true (env st)) st) in
    let ok := api_cars req (with_env (with_append_fails false (env st)) st) in
    (∀ car_id s, fst (append_user_event req car_id s) = inr tt)
    ∧ fst bad = fst ok
    ∧ status_code_of (fst bad) = status_code_of (fst ok)
    ∧ heap (snd bad) = heap (snd ok)
    ∧ cache (snd bad) = cache (snd ok)
    ∧ (∀ r, fst ok = inr r →
            fst bad = inr r ∧ status_code_of (fst bad) = 200
            ∧ read_body (heap (snd bad)) r = read_body (heap (snd ok)) r)
    ∧ (is_Some (sheet_values (env st) !! "users") →
       stdout (logged req None (with_env (with_append_fails true (env st)) st))
       = stdout st ++ [("USER LOG ERROR:", HttpError "sheets")]
       ∧ stdout (logged req None (with_env (with_append_fails false (env st)) st))
         = stdout st).
Proof.
  intros st req bad ok.
  destruct (blind_api_cars req _ _ (agree_append_flag st true false))
    as (E & Hh & Hc & _).
  fold bad in E, Hh, Hc. fold ok in E, Hh, Hc.
  split; [intros car_id s; by rewrite append_user_event_eq|].
  split; [exact E|]. split; [by rewrite E|].
  split; [exact Hh|]. split; [exact Hc|]. split.
  - intros r Hr. rewrite E, Hr, Hh. repeat split.
  - intros [values Hv]. unfold logged, USERS_SHEET. cbn. rewrite Hv.
    split; reflexivity.
Qed.

Lemma api_cars_same_with_failing_append_witness :
  fst (api_cars Demo.req (with_env (with_append_fails true Demo.w) Demo.st0))
  = inr (HRef 5%nat)
  ∧ status_code_of
      (fst (api_cars Demo.req (with_env (with_append_fails true Demo.w) Demo.st0)))
    = 200.
Proof.
  destruct (api_cars_same_with_failing_append Demo.st0 Demo.req)
    as (_ & _ & _ & _ & _ & H & _).
  destruct (H (HRef 5%nat)) as (H1 & H2 & _).
  - vm_compute. reflexivity.
  - split; [exact H1 | exact H2].
Defined.

(** * Further properties of the code *)

(** ** The cache: keys are independent, the last write wins *)

(** X1.  Writing key [k] does not change what a read of another key
    returns; writing [k] twice leaves the second value, which a read with a
    non-negative TTL returns at once. *)
Theorem set_cache_keys_independent :
  ∀ (k k' : string) (v1 v2 : handle) (ttl : Z) (st : state),
    k ≠ k' → 0 <= ttl →
    fst (get_cached k' ttl (snd (set_cache k v1 st)))
    = fst (get_cached k' ttl st)
    ∧ fst (get_cached k ttl (snd (set_cache k v2 (snd (set_cache k v1 st)))))
      = inr v2
    ∧ cache (snd (set_cache k v2 (snd (set_cache k v1 st))))
      = cache (snd (set_cache k v2 st)).
Proof.
  intros k k' v1 v2 ttl st Hk Ht. rewrite !set_cache_eq. cbn [snd].
  split; [|split].
  - cbv [get_cached bind gets ret time_time]. cbn [cache clock with_cache].
    rewrite lookup_insert_ne by exact Hk.
    destruct (cache st !! k') as [e|]; [|reflexivity].
    destruct (Qgt_bool _ _); reflexivity.
  - rewrite (get_cached_fresh k ttl _ {| data := v2; ts := clock st |});
      [reflexivity | apply lookup_insert_eq |].
    cbn. unfold Qminus. rewrite Qplus_opp_r.
    change 0%Q with (inject_Z 0). by rewrite <- Zle_Qle.
  - cbn. by rewrite insert_insert_eq.
Qed.

Lemma set_cache_keys_independent_witness :
  fst (get_cached "profile" 1800 (snd (set_cache "cars" (HRef 7%nat) Demo.st0)))
  = fst (get_cached "profile" 1800 Demo.st0)
  ∧ fst (get_cached "cars" 300
           (snd (set_cache "cars" HNone (snd (set_cache "cars" (HRef 7%nat) Demo.st0)))))
    = inr HNone.
Proof.
  destruct (set_cache_keys_independent "cars" "profile" (HRef 7%nat) HNone 1800
              Demo.st0) as (H1 & _); [discriminate | lia |].
  destruct (set_cache_keys_independent "cars" "profile" (HRef 7%nat) HNone 300
              Demo.st0) as (_ & H2 & _); [discriminate | lia |].
  split; [exact H1 | exact H2].
Defined.

(** ** The sheet reader *)

Lemma fill_item_nodup headers row i item j h :
  NoDup headers → headers !! j = Some h →
  fill_item i headers row item !! h = Some (default "" (row !! (i + j)%nat)).
Proof.
  revert i item j. induction headers as [|h0 hs IH]; intros i item j Hnd Hj.
  - by rewrite lookup_nil in Hj.
  - apply NoDup_cons in Hnd as [Hnotin Hnd]. cbn [fill_item].
    destruct j as [|j]; cbn in Hj.
    + injection Hj as <-. rewrite fill_item_other by exact Hnotin.
      rewrite lookup_insert_eq, Nat.add_0_r. reflexivity.
    + rewrite (IH (S i) _ j Hnd Hj). by rewrite Nat.add_succ_r.
Qed.

Lemma fill_item_dom headers row i item :
  dom (fill_item i headers row item) = list_to_set headers ∪ dom item.
Proof.
  revert i item. induction headers as [|h hs IH]; intros i item; cbn.
  - by rewrite (left_id_L ∅ (∪)).
  - rewrite IH, dom_insert_L, (assoc_L (∪)). f_equal. apply (comm_L (∪)).
Qed.

(** X2.  [read_sheet] returns one record per row under the header row,
    in order; a record has exactly the headers as keys; with distinct
    headers, the value under the [j]-th header is the [j]-th cell of the
    row, or [""] when the row is too short (cells beyond the headers are
    dropped).  A sheet without values or with only a header row gives no
    record. *)
Theorem read_sheet_records :
  ∀ name st values,
    sheet_values (env st) !! name = Some values →
    fst (read_sheet name st) = inr (records_of values)
    ∧ length (records_of values) = (length values - 1)%nat
    ∧ ∀ headers rows, values = headers :: rows →
        ∀ i row, rows !! i = Some row →
          ∃ r, records_of values !! i = Some r
               ∧ dom r = list_to_set headers
               ∧ (NoDup headers →
                  ∀ j h, headers !! j = Some h →
                         r !! h = Some (default "" (row !! j))).
Proof.
  intros name st values Hv. rewrite read_sheet_eq, Hv. cbn [fst].
  split; [reflexivity|]. split.
  - destruct values as [|headers rows]; cbn; [reflexivity|].
    rewrite length_map. lia.
  - intros headers rows -> i row Hi. cbn [records_of].
    exists (fill_item 0 headers row ∅). split.
    + change (map ?f rows) with (f <$> rows). rewrite list_lookup_fmap, Hi.
      reflexivity.
    + split.
      * by rewrite fill_item_dom, dom_empty_L, (right_id_L ∅ (∪)).
      * intros Hnd j h Hj. by rewrite (fill_item_nodup _ _ 0 _ j h Hnd Hj).
Qed.

Lemma read_sheet_records_witness :
  fst (read_sheet "cars" Demo.st0) = inr (records_of Demo.cars_tab)
  ∧ length (records_of Demo.cars_tab) = 4%nat
  ∧ ∃ r, records_of Demo.cars_tab !! 1%nat = Some r
         ∧ r !! "status" = Some "".
Proof.
  destruct (read_sheet_records "cars" Demo.st0 Demo.cars_tab) as (H1 & H2 & H3);
    [reflexivity|].
  split; [exact H1|]. split; [exact H2|].
  destruct (H3 _ _ eq_refl 1%nat ["  "; "Ghost"] eq_refl) as (r & Hr & _ & Hc).
  exists r. split; [exact Hr|].
  apply (Hc ltac:(compute_done) 2%nat "status" eq_refl).
Defined.

(** ** Text helpers *)

Lemma str_length_app (a b : string) :
  String.length (a ++ b)%string = (String.length a + String.length b)%nat.
Proof.
  induction a as [|c a IH]; [reflexivity|].
  rewrite str_app_cons. cbn [String.length]. by rewrite IH.
Qed.

Lemma str_app_inv_head (p a b : string) : (p ++ a = p ++ b)%string → a = b.
Proof.
  induction p as [|c p IH]; [auto|]. rewrite !str_app_cons. intros [= H]. auto.
Qed.

Lemma str_app_inv_tail (a b s : string) : (a ++ s = b ++ s)%string → a = b.
Proof.
  revert b. induction a as [|c a IH]; intros [|d b] H;
    rewrite ?str_app_cons, ?str_app_nil_l in H.
  - reflexivity.
  - apply (f_equal String.length) in H. cbn [String.length] in H.
    rewrite str_length_app in H. lia.
  - apply (f_equal String.length) in H. cbn [String.length] in H.
    rewrite str_length_app in H. lia.
  - injection H as -> H. f_equal. by apply IH.
Qed.

Lemma substring_all (t : string) : substring 0 (String.length t) t = t.
Proof. induction t as [|c t IH]; simpl; [reflexivity | by rewrite IH]. Qed.

Lemma substring_app_r (p t : string) :
  substring (String.length p) (String.length t) (p ++ t) = t.
Proof.
  induction p as [|c p IH]; [apply substring_all|].
  rewrite str_app_cons. cbn [String.length substring]. exact IH.
Qed.

Lemma substring_split (s : string) k :
  (k ≤ String.length s)%nat →
  s = (substring 0 k s ++ substring k (String.length s - k) s)%string.
Proof.
  revert k. induction s as [|c s IH]; intros k Hk.
  - destruct k; reflexivity.
  - destruct k as [|k]; simpl.
    + by rewrite substring_all.
    + simpl in Hk. rewrite str_app_cons. f_equal. apply IH. lia.
Qed.

(** [s.endswith(suffix)] holds exactly when [s] is some text followed by
    [suffix]. *)
Lemma endswith_iff s suffix :
  PyStr.endswith s suffix = true ↔ ∃ p, s = (p ++ suffix)%string.
Proof.
  unfold PyStr.endswith. rewrite andb_true_iff, Nat.leb_le, String.eqb_eq.
  split.
  - intros [Hle Hs].
    exists (substring 0 (String.length s - String.length suffix) s).
    pose proof (substring_split s (String.length s - String.length suffix)
                  ltac:(lia)) as E.
    replace (String.length s - (String.length s - String.length suffix))%nat
      with (String.length suffix) in E by lia.
    rewrite Hs in E. exact E.
  - intros [p ->]. rewrite str_length_app. split; [lia|].
    replace (String.length p + String.length suffix - String.length suffix)%nat
      with (String.length p) by lia.
    apply substring_app_r.
Qed.

Lemma lower_char_idem c : PyStr.lower_char (PyStr.lower_char c) = PyStr.lower_char c.
Proof. destruct c as [[] [] [] [] [] [] [] []]; reflexivity. Qed.

Lemma lower_idem s : PyStr.lower (PyStr.lower s) = PyStr.lower s.
Proof.
  induction s as [|c s IH]; simpl; [reflexivity|].
  by rewrite lower_char_idem, IH.
Qed.

Lemma lower_app (a b : string) :
  PyStr.lower (a ++ b)%string = (PyStr.lower a ++ PyStr.lower b)%string.
Proof.
  induction a as [|c a IH]; [reflexivity|].
  rewrite str_app_cons. cbn [PyStr.lower]. by rewrite str_app_cons, IH.
Qed.

(** ** The photo resolver *)

(** X4.  A file counts as an image exactly when its name, in lower case,
    ends in [.jpg], [.jpeg] or [.png]; so any stem followed by such an
    extension in any mix of cases is an image, and two names that agree up
    to case are treated alike. *)
Theorem is_image_by_extension :
  ∀ f,
    (is_image f = true ↔
     ∃ p, PyStr.lower (file_name f) = (p ++ ".jpg")%string
          ∨ PyStr.lower (file_name f) = (p ++ ".jpeg")%string
          ∨ PyStr.lower (file_name f) = (p ++ ".png")%string)
    ∧ (∀ i stem ext,
         PyStr.lower ext = ".jpg" ∨ PyStr.lower ext = ".jpeg"
         ∨ PyStr.lower ext = ".png" →
         is_image {| file_id := i; file_name := (stem ++ ext)%string |} = true)
    ∧ (∀ g, PyStr.lower (file_name g) = PyStr.lower (file_name f) →
            is_image g = is_image f).
Proof.
  intros f.
  assert (Hiff : ∀ f, is_image f = true ↔
     ∃ p, PyStr.lower (file_name f) = (p ++ ".jpg")%string
          ∨ PyStr.lower (file_name f) = (p ++ ".jpeg")%string
          ∨ PyStr.lower (file_name f) = (p ++ ".png")%string).
  { clear f. intros f. unfold is_image.
    rewrite !orb_true_iff, !endswith_iff. split.
    - intros [[[p H]|[p H]]|[p H]]; exists p; auto.
    - intros [p [H|[H|H]]]; eauto. }
  split; [apply Hiff|]. split.
  - intros i stem ext Hext. apply Hiff. cbn [file_name].
    exists (PyStr.lower stem). rewrite lower_app.
    destruct Hext as [->|[->| ->]]; auto.
  - intros g Hg. unfold is_image. by rewrite Hg.
Qed.

Lemma is_image_by_extension_witness :
  is_image {| file_id := "x"; file_name := "Front View.JpEg" |} = true.
Proof.
  destruct (is_image_by_extension {| file_id := "x"; file_name := "a" |})
    as (_ & H & _).
  apply (H "x" "Front View" ".JpEg"). right. left. reflexivity.
Defined.

Lemma photo_of_inj f g : url (photo_of f) = url (photo_of g) → photo_of f = photo_of g.
Proof.
  unfold photo_of. cbn [url]. intros H.
  apply str_app_inv_head, str_app_inv_tail in H. by rewrite H.
Qed.

(** X3.  For a non-empty folder id that the file service knows,
    [load_photos] makes one listing call and returns the images among the
    listed files, in the order of the listing, each with the URL built
    from its file id; photos with the same URL are the same photo.  When
    the service does not know the folder the error is raised after the
    call; for [None] or [""] nothing is called and nothing returned. *)
Theorem load_photos_lists_images :
  ∀ st fid files,
    fid ≠ "" → drive_files (env st) !! fid = Some files →
    ∃ ps,
      load_photos (Some fid) st = (inr ps, with_call (DriveList fid) st)
      ∧ map photo_id ps = map file_id (List.filter is_image files)
      ∧ (length ps ≤ length files)%nat
      ∧ (∀ p, p ∈ ps →
              url p = ("https://lh3.googleusercontent.com/d/" ++ photo_id p
                       ++ "=w1200")%string)
      ∧ (∀ p q, p ∈ ps → q ∈ ps → url p = url q → p = q)
      ∧ load_photos None st = (inr [], st)
      ∧ load_photos (Some "") st = (inr [], st)
      ∧ (∀ st', drive_files (env st') !! fid = None →
                load_photos (Some fid) st'
                = (inl (HttpError "drive"), with_call (DriveList fid) st')).
Proof.
  intros st fid files Hne Hf.
  assert (Hcall : ∀ s, after_drive (Some fid) s = with_call (DriveList fid) s).
  { intros s. destruct fid; [done | reflexivity]. }
  assert (Hfp : ∀ s, folder_photos (env s) (Some fid)
                     = (fun fs => map photo_of (List.filter is_image fs))
                         <$> drive_files (env s) !! fid).
  { intros s. destruct fid; [done | reflexivity]. }
  exists (map photo_of (List.filter is_image files)).
  split; [|split; [|split; [|split; [|split; [|split; [|split]]]]]].
  - rewrite load_photos_eq, Hcall, Hfp, Hf. reflexivity.
  - rewrite !map_map. reflexivity.
  - rewrite length_map. apply filter_length_le.
  - intros p Hp. apply list_elem_of_In, in_map_iff in Hp as (f & <- & _).
    reflexivity.
  - intros p q Hp Hq.
    apply list_elem_of_In, in_map_iff in Hp as (f & <- & _).
    apply list_elem_of_In, in_map_iff in Hq as (g & <- & _).
    apply photo_of_inj.
  - reflexivity.
  - reflexivity.
  - intros st' Hn. rewrite load_photos_eq, Hcall, Hfp, Hn. reflexivity.
Qed.

Lemma load_photos_lists_images_witness :
  ∃ ps, load_photos (Some "f1") Demo.st0
        = (inr ps, with_call (DriveList "f1") Demo.st0)
        ∧ map photo_id ps = ["p1"; "p3"].
Proof.
  destruct (load_photos_lists_images Demo.st0 "f1"
              [ {| file_id := "p1"; file_name := "01.JPG" |};
                {| file_id := "p2"; file_name := "notes.txt" |};
                {| file_id := "p3"; file_name := "02.png" |} ])
    as (ps & H1 & H2 & _); [discriminate | reflexivity |].
  exists ps. split; [exact H1 | exact H2].
Defined.

(** X5.  [load_hero_image] never raises.  It makes one listing call for
    the hero folder and returns the URL of the first image there, or
    [None] when the folder has no image; when the file service raises, the
    error is printed and [None] is returned.  Heap, cache and outside are
    left alone. *)
Theorem load_hero_image_never_raises :
  ∀ st, ∃ st',
    load_hero_image st
    = (inr match drive_files (env st) !! HERO_FOLDER_ID with
           | Some files => first_url (map photo_of (List.filter is_image files))
           | None => None
           end, st')
    ∧ heap st' = heap st ∧ cache st' = cache st ∧ env st' = env st
    ∧ calls st' = calls st ++ [DriveList HERO_FOLDER_ID]
    ∧ stdout st'
      = match drive_files (env st) !! HERO_FOLDER_ID with
        | Some _ => stdout st
        | None => stdout st ++ [("HERO LOAD ERROR:", HttpError "drive")]
        end.
Proof.
  intros st. unfold load_hero_image, try_except, bind. rewrite load_photos_eq.
  cbn [folder_photos after_drive HERO_FOLDER_ID].
  fold HERO_FOLDER_ID.
  destruct (drive_files (env st) !! HERO_FOLDER_ID) as [files|]; cbn;
    eexists; repeat split; reflexivity.
Qed.

(** ** The event logger on its own *)

(** X6.  [append_user_event] returns normally in every case.  It makes
    one append call with a row of five cells.  When the append is accepted
    the users tab gains that row at its end and nothing is printed; when
    it is refused, or there is no users tab, the sheets are as before and
    the error is printed.  Heap, cache, random draws, folders and all other
    tabs are never touched. *)
Theorem append_user_event_effect :
  ∀ req car_id st, ∃ st',
    let row := [utcnow_iso (env st); default "" (client_host req);
                default "" (user_agent req); path req; default "" car_id] in
    append_user_event req car_id st = (inr tt, st')
    ∧ heap st' = heap st ∧ cache st' = cache st ∧ tape st' = tape st
    ∧ calls st' = calls st ++ [SheetsAppend "users!A:E" row]
    ∧ length row = 5%nat
    ∧ drive_files (env st') = drive_files (env st)
    ∧ (∀ name, name ≠ "users" →
               sheet_values (env st') !! name = sheet_values (env st) !! name)
    ∧ (∀ values, sheet_values (env st) !! "users" = Some values →
                 append_fails (env st) = false →
                 sheet_values (env st') !! "users" = Some (values ++ [row])
                 ∧ stdout st' = stdout st)
    ∧ (append_fails (env st) = true ∨ sheet_values (env st) !! "users" = None →
       sheet_values (env st') = sheet_values (env st)
       ∧ stdout st' = stdout st ++ [("USER LOG ERROR:", HttpError "sheets")]).
Proof.
  intros req car_id st. exists (logged req car_id st). cbv zeta.
  split; [apply append_user_event_eq|].
  destruct (logged_quiet req car_id st) as [Hh Hc].
  destruct (logged_rest req car_id st) as (_ & Ht & _).
  split; [exact Hh|]. split; [exact Hc|]. split; [exact Ht|].
  split; [apply logged_calls|]. split; [reflexivity|].
  split; [apply logged_drive|].
  split; [intros name Hn; by apply logged_other_sheet|]. split.
  - intros values Hv Hf. split; [by apply logged_users|].
    unfold logged, USERS_SHEET. rewrite Hv, Hf. reflexivity.
  - unfold logged, USERS_SHEET. intros [Hf|Hn].
    + rewrite Hf. destruct (sheet_values (env st) !! "users"); split; reflexivity.
    + rewrite Hn. split; reflexivity.
Qed.

Lemma append_user_event_effect_witness :
  ∃ st', append_user_event Demo.req None Demo.st0 = (inr tt, st')
         ∧ sheet_values (env st') !! "users"
           = Some [["2024-05-01T10:00:00"; "10.0.0.7"; "curl/8"; "/api/cars"; ""]].
Proof.
  destruct (append_user_event_effect Demo.req None Demo.st0)
    as (st' & H1 & _ & _ & _ & _ & _ & _ & _ & H2 & _).
  exists st'. split; [exact H1|].
  destruct (H2 []) as [H _]; [reflexivity | reflexivity | exact H].
Defined.

(** ** What the handlers leave alone outside *)

Section ReadsOnly.

Global Instance reads_only_refl : Reflexive reads_only.
Proof. intros st. split; reflexivity. Qed.
Global Instance reads_only_trans : Transitive reads_only.
Proof.
  intros a b c [H1 H2] [H3 H4]. split; [congruence|].
  intros name Hn. rewrite H4, H2 by exact Hn. reflexivity.
Qed.

Lemma same_env_reads_only st st' : same_env st st' → reads_only st st'.
Proof. unfold same_env. intros H. split; [by rewrite H|]. intros; by rewrite H. Qed.

Lemma logged_reads_only req car_id st : reads_only st (logged req car_id st).
Proof.
  split; [apply logged_drive|]. intros name Hn. by apply logged_other_sheet.
Qed.

End ReadsOnly.

(** X7.  No handler changes a folder listing or any tab other than the
    users tab: the cars and profile tabs are only read.  The health and
    profile endpoints do not write to the outside at all. *)
Theorem handlers_write_only_the_users_tab :
  ∀ st req car_id,
    env (snd (health st)) = env st
    ∧ env (snd (api_profile st)) = env st
    ∧ reads_only st (snd (api_cars req st))
    ∧ reads_only st (snd (api_car_detail car_id req st))
    ∧ sheet_values (env (snd (api_cars req st))) !! "cars"
      = sheet_values (env st) !! "cars"
    ∧ sheet_values (env (snd (api_car_detail car_id req st))) !! "profile"
      = sheet_values (env st) !! "profile".
Proof.
  intros st req car_id.
  destruct same_env_bodies as (_ & Hp & Hc & Hd).
  assert (H1 : reads_only st (snd (api_cars req st))).
  { rewrite api_cars_eq. etrans; [apply logged_reads_only|].
    apply same_env_reads_only, Hc. }
  assert (H2 : reads_only st (snd (api_car_detail car_id req st))).
  { rewrite api_car_detail_eq. etrans; [apply logged_reads_only|].
    apply same_env_reads_only, Hd. }
  split; [reflexivity|]. split; [apply Hp|]. split; [exact H1|].
  split; [exact H2|]. split.
  - by apply H1.
  - by apply H2.
Qed.

(** X12.  The list handler logs before it loads: the first remote call
    of every list request is the append of the event row, whose car-id cell
    is empty; and when the append is accepted the row is in the users tab
    when the request ends, however it ends. *)
Theorem api_cars_logs_before_loading :
  ∀ st req,
    let row := [utcnow_iso (env st); default "" (client_host req);
                default "" (user_agent req); path req; ""] in
    (∃ rest, calls (snd (api_cars req st))
             = calls st ++ SheetsAppend "users!A:E" row :: rest)
    ∧ (∀ values, sheet_values (env st) !! "users" = Some values →
                 append_fails (env st) = false →
                 sheet_values (env (snd (api_cars req st))) !! "users"
                 = Some (values ++ [row])).
Proof.
  intros st req row. rewrite api_cars_eq.
  destruct more_calls_bodies as (_ & _ & Hc & _).
  destruct same_env_bodies as (_ & _ & He & _).
  split.
  - destruct (Hc (logged req None st)) as [rest Hrest].
    exists rest. rewrite Hrest, logged_calls, <- app_assoc. reflexivity.
  - intros values Hv Hf. rewrite (He (logged req None st)).
    by apply logged_users.
Qed.

Lemma api_cars_logs_before_loading_witness :
  sheet_values (env (snd (api_cars Demo.req Demo.st0))) !! "users"
  = Some [["2024-05-01T10:00:00"; "10.0.0.7"; "curl/8"; "/api/cars"; ""]].
Proof.
  destruct (api_cars_logs_before_loading Demo.st0 Demo.req) as [_ H].
  apply (H []); reflexivity.
Defined.

(** ** The two cache entries do not disturb each other *)

Section KeepsEntry.
Context (k : string).

Global Instance keeps_entry_refl : Reflexive (keeps_entry k).
Proof. intros st. reflexivity. Qed.
Global Instance keeps_entry_trans : Transitive (keeps_entry k).
Proof. intros a b c H1 H2. unfold keeps_entry in *. congruence. Qed.

Lemma keeps_entry_same_cache st st' : cache st' = cache st → keeps_entry k st st'.
Proof. unfold keeps_entry. by intros ->. Qed.

Lemma keeps_entry_set k' e st :
  k' ≠ k → keeps_entry k st (with_cache (<[k' := e]> (cache st)) st).
Proof. intros H. unfold keeps_entry. cbn. by rewrite lookup_insert_ne. Qed.

Lemma keeps_entry_load_cars : k ≠ "cars" → pres (keeps_entry k) load_cars.
Proof.
  intros Hk. apply pres_load_cars; try apply _.
  apply pres_reload_cars; try apply _; intros;
    first [by apply keeps_entry_same_cache | by apply keeps_entry_set].
Qed.

Lemma keeps_entry_load_profile : k ≠ "profile" → pres (keeps_entry k) load_profile.
Proof.
  intros Hk. apply pres_load_profile; try apply _.
  apply pres_reload_profile; try apply _; intros;
    first [by apply keeps_entry_same_cache | by apply keeps_entry_set].
Qed.

Lemma keeps_entry_cars_body : k ≠ "cars" → pres (keeps_entry k) cars_body.
Proof.
  intros Hk. apply pres_cars_body; try apply _.
  - by apply keeps_entry_load_cars.
  - intros c. apply pres_enrich_cover; try apply _; intros;
      by apply keeps_entry_same_cache.
  - intros o. apply pres_alloc; try apply _; intros;
      by apply keeps_entry_same_cache.
Qed.

Lemma keeps_entry_detail_body car_id :
  k ≠ "cars" → pres (keeps_entry k) (detail_body car_id).
Proof.
  intros Hk. apply pres_detail_body; try apply _.
  - by apply keeps_entry_load_cars.
  - intros b. apply pres_enrich_detail; try apply _; intros;
      by apply keeps_entry_same_cache.
Qed.

Lemma keeps_entry_logged req car_id st : keeps_entry k st (logged req car_id st).
Proof. apply keeps_entry_same_cache, logged_quiet. Qed.

End KeepsEntry.

Lemma handlers_keep_entry st req car_id k :
  k ≠ "cars" →
  keeps_entry k st (snd (api_cars req st))
  ∧ keeps_entry k st (snd (api_car_detail car_id req st)).
Proof.
  intros Hk. rewrite api_cars_eq, api_car_detail_eq. split.
  - etrans; [apply keeps_entry_logged | by apply keeps_entry_cars_body].
  - etrans; [apply keeps_entry_logged | by apply keeps_entry_detail_body].
Qed.

Lemma cars_handlers_keep_profile st req car_id :
  keeps_entry "profile" st (snd (api_cars req st))
  ∧ keeps_entry "profile" st (snd (api_car_detail car_id req st)).
Proof. by apply handlers_keep_entry. Qed.

(** X8.  The cache entries are independent: loading the cars never
    changes an entry under another key (the profile entry in particular),
    loading the profile never changes an entry under a key other than
    ["profile"], and the car handlers write no entry but ["cars"]. *)
Theorem loaders_keep_other_entries :
  ∀ st req car_id k,
    (k ≠ "cars" → cache (snd (load_cars st)) !! k = cache st !! k)
    ∧ (k ≠ "profile" → cache (snd (load_profile st)) !! k = cache st !! k)
    ∧ (k ≠ "cars" → cache (snd (api_cars req st)) !! k = cache st !! k)
    ∧ (k ≠ "cars" →
       cache (snd (api_car_detail car_id req st)) !! k = cache st !! k)
    ∧ cache (snd (health st)) = cache st.
Proof.
  intros st req car_id k.
  split; [intros Hk; by apply keeps_entry_load_cars|].
  split; [intros Hk; by apply keeps_entry_load_profile|].
  split; [|split; [|reflexivity]].
  - intros Hk. by apply (handlers_keep_entry st req car_id k).
  - intros Hk. by apply (handlers_keep_entry st req car_id k).
Qed.

Lemma loaders_keep_other_entries_witness :
  cache (snd (load_cars Demo.st0)) !! "profile" = cache Demo.st0 !! "profile"
  ∧ cache (snd (load_profile Demo.st0)) !! "cars" = cache Demo.st0 !! "cars".
Proof.
  destruct (loaders_keep_other_entries Demo.st0 Demo.req "a1" "profile")
    as (H1 & _).
  destruct (loaders_keep_other_entries Demo.st0 Demo.req "a1" "cars")
    as (_ & H2 & _).
  split; [apply H1 | apply H2]; discriminate.
Defined.

(** ** The profile entry stays well formed *)

Section ProfileInv.

Global Instance profile_frame_refl : Reflexive profile_frame.
Proof. intros st. split; [reflexivity | auto]. Qed.
Global Instance profile_frame_trans : Transitive profile_frame.
Proof. intros a b c [H1 H2] [H3 H4]. split; [by etrans | auto]. Qed.

Lemma profile_frame_intro st st' :
  heap_grows st st' → keeps_entry "profile" st st' → profile_frame st st'.
Proof.
  intros Hg Hc. split; [exact Hg|]. intros Hinv e He.
  unfold keeps_entry in Hc. rewrite Hc in He.
  destruct (Hinv e He) as (l & d & Hd & Hl & Hk).
  exists l, d. split; [exact Hd|]. split; [|exact Hk].
  eapply prefix_lookup_Some; eauto.
Qed.

Lemma reload_profile_profile_frame st : profile_frame st (snd (reload_profile st)).
Proof.
  destruct (sheet_values (env st) !! "profile") as [values|] eqn:Hv.
  - destruct (reload_profile_ok st values Hv) as (st' & E & Hh & Hc & _).
    rewrite E. cbn [snd]. split.
    + unfold heap_grows. rewrite Hh. by apply prefix_app_r.
    + intros _ e He. rewrite Hc, lookup_insert_eq in He. injection He as <-.
      cbn [data]. eexists _, _. split; [reflexivity|].
      split; [rewrite Hh; apply lookup_last|].
      rewrite lookup_insert_eq. eauto.
  - rewrite (reload_profile_fail st Hv). cbn [snd].
    apply profile_frame_intro; [apply (proj1 (frame_call _ st)) | reflexivity].
Qed.

Lemma load_profile_profile_frame st : profile_frame st (snd (load_profile st)).
Proof.
  destruct (get_cached_total "profile" CACHE_TTL_META st) as [h Hg].
  rewrite (load_profile_cases _ _ Hg).
  pose proof (truthy_state h st) as Hs.
  destruct (truthy h st) as [[x|[]] s1]; cbn in Hs; subst s1;
    try reflexivity.
  apply reload_profile_profile_frame.
Qed.

Lemma step_profile_frame st st' : step st st' → profile_frame st st'.
Proof.
  intros [s w | s t | s t | s | s | s req | s car_id req].
  - apply profile_frame_intro; [apply (proj1 (frame_env w s)) | reflexivity].
  - apply profile_frame_intro; [apply (proj1 (frame_clock t s)) | reflexivity].
  - apply profile_frame_intro; [apply (proj1 (frame_tape t s)) | reflexivity].
  - apply profile_frame_intro; [apply (proj1 (frame_health s)) | reflexivity].
  - apply load_profile_profile_frame.
  - apply profile_frame_intro; [apply (proj1 (frame_api_cars req s))|].
    by apply (cars_handlers_keep_profile s req "").
  - apply profile_frame_intro; [apply (proj1 (frame_api_car_detail car_id req s))|].
    by apply (cars_handlers_keep_profile s req car_id).
Qed.

Lemma reachable_profile_inv st : reachable st → profile_inv st.
Proof.
  induction 1 as [w now t | st st' _ IH Hs].
  - intros e He. cbn in He. by rewrite lookup_empty in He.
  - by apply (step_profile_frame _ _ Hs).
Qed.

Lemma truthy_dict l d st :
  heap st !! l = Some (ODict d) →
  truthy (HRef l) st = (inr (negb (bool_decide (d = ∅))), st).
Proof. intros H. cbv [truthy bind load ret]. rewrite H. reflexivity. Qed.

(** What a call of [load_profile] that returns has returned and cached. *)
Lemma load_profile_returns st r st' :
  profile_inv st → load_profile st = (inr r, st') →
  ∃ l d e,
    r = HRef l ∧ heap st' !! l = Some (ODict d) ∧ is_Some (d !! "hero_image")
    ∧ cache st' !! "profile" = Some e ∧ data e = r.
Proof.
  intros Hinv H.
  assert (Hinv' : profile_inv st').
  { pose proof (load_profile_profile_frame st) as [_ F]. rewrite H in F. auto. }
  destruct (get_cached_total "profile" CACHE_TTL_META st) as [h Hg].
  rewrite (load_profile_cases _ _ Hg) in H.
  pose proof (truthy_state h st) as Hs.
  destruct (truthy h st) as [[x|[]] s1] eqn:Ht; cbn in Hs; subst s1;
    [discriminate| |].
  - injection H as <- <-.
    destruct (truthy_true_ref _ _ Ht) as [l ->].
    destruct (get_cached_ref _ _ _ _ Hg) as (e & He & Hd & _).
    destruct (Hinv e He) as (l' & d & Hd' & Hl & Hk).
    rewrite Hd in Hd'. injection Hd' as <-.
    exists l, d, e. auto.
  - destruct (sheet_values (env st) !! "profile") as [values|] eqn:Hv.
    + destruct (reload_profile_ok st values Hv) as (s2 & E & Hh & Hc & _).
      rewrite E in H. injection H as <- <-.
      assert (He : cache s2 !! "profile"
                   = Some {| data := HRef (length (heap st)); ts := clock s2 |}).
      { rewrite Hc. apply lookup_insert_eq. }
      destruct (Hinv' _ He) as (l' & d & Hd' & Hl & Hk).
      cbn [data] in Hd'. injection Hd' as <-.
      eexists _, d, _. split; [reflexivity|]. split; [exact Hl|].
      split; [exact Hk|]. split; [exact He | reflexivity].
    + rewrite (reload_profile_fail st Hv) in H. discriminate.
Qed.

End ProfileInv.

(** A profile entry that is at most 1800 seconds old is a hit: the cached
    dict has a [hero_image] member, so it is never empty. *)
Lemma load_profile_hit st e :
  profile_inv st → cache st !! "profile" = Some e →
  (clock st - ts e <= inject_Z CACHE_TTL_META)%Q →
  load_profile st = (inr (data e), st)
  ∧ ∃ l d, data e = HRef l ∧ heap st !! l = Some (ODict d).
Proof.
  intros Hinv He Ht.
  destruct (Hinv e He) as (l & d & Hd & Hl & Hk).
  pose proof (get_cached_fresh "profile" CACHE_TTL_META st e He Ht) as Hg.
  rewrite (load_profile_cases _ _ Hg), Hd, (truthy_dict l d st Hl).
  rewrite bool_decide_eq_false_2; [eauto|].
  intros ->. rewrite lookup_empty in Hk. by destruct Hk.
Qed.

(** Without an entry, or with one older than 1800 seconds, the profile is
    loaded. *)
Lemma load_profile_miss st :
  cache st !! "profile" = None
  ∨ (∃ e, cache st !! "profile" = Some e
          ∧ (inject_Z CACHE_TTL_META < clock st - ts e)%Q) →
  load_profile st = reload_profile st.
Proof.
  intros H.
  assert (Hg : get_cached "profile" CACHE_TTL_META st = (inr HNone, st)).
  { destruct H as [H | (e & He & Ht)];
      [by apply get_cached_none | by eapply get_cached_stale]. }
  by rewrite (load_profile_cases _ _ Hg).
Qed.

(** The first record of a tab has a key exactly when the tab has that
    header and a row under the header row. *)
Lemma first_record_has_key values k :
  is_Some (default ∅ (head (records_of values)) !! k)
  ↔ ∃ headers row rest, values = headers :: row :: rest ∧ k ∈ headers.
Proof.
  destruct values as [|headers [|row rest]]; cbn.
  - rewrite lookup_empty. split; [by intros [? ?] | by intros (? & ? & ? & ? & _)].
  - rewrite lookup_empty. split; [by intros [? ?] | by intros (? & ? & ? & ? & _)].
  - rewrite <- elem_of_dom, fill_item_dom, dom_empty_L, (right_id_L ∅ (∪)).
    rewrite elem_of_list_to_set. split.
    + intros Hk. by exists headers, row, rest.
    + by intros (? & ? & ? & [= <- _ _] & Hk).
Qed.

(** C8 does not hold for the profile endpoint: the profile row is passed
    through as it is, so a profile sheet with a column named
    [photos_folder_id] puts that member into the response body. *)
Lemma profile_body_holds_photos_folder_id :
  fst (api_profile Demo.st0) = inr (HRef 0%nat)
  ∧ ∃ b, read_body (heap (snd (api_profile Demo.st0))) (HRef 0%nat) = Some b
         ∧ has_key "photos_folder_id" b = true.
Proof.
  split; [vm_compute; reflexivity|].
  eexists. split; vm_compute; reflexivity.
Qed.

(** C8, for the car endpoints, with the profile endpoint characterised.
    No body returned by the list endpoint or the detail endpoint has a
    [photos_folder_id] member; both endpoints leave every
    object that existed before the request exactly as it was (they write
    only to the copies they make), and afterwards the cars held in the
    cache still carry their folder id and nothing else.  The profile
    endpoint filters nothing.  When it loads the profile (no profile entry,
    or one older than 1800 seconds) and the profile tab can be read, the
    body has a [photos_folder_id] member exactly when the tab has a header
    of that name and a row under the header row; when the tab cannot be
    read there is no body.  While the entry is at most 1800 seconds old
    the endpoint returns the cached object and changes nothing, whatever
    the outside holds by then. *)
Theorem car_bodies_have_no_folder_id_and_cache_is_kept :
  ∀ st req car_id,
    let out_l := api_cars req st in
    let out_d := api_car_detail car_id req st in
    (∀ r, fst out_l = inr r →
          ∃ b, read_body (heap (snd out_l)) r = Some b
               ∧ has_key "photos_folder_id" b = false)
    ∧ (∀ r, fst out_d = inr r →
            ∃ b, read_body (heap (snd out_d)) r = Some b
                 ∧ has_key "photos_folder_id" b = false)
    ∧ heap st `prefix_of` heap (snd out_l)
    ∧ heap st `prefix_of` heap (snd out_d)
    ∧ (reachable st →
       cached_cars_intact (snd out_l) ∧ cached_cars_intact (snd out_d))
    ∧ (cache st !! "profile" = None
       ∨ (∃ e, cache st !! "profile" = Some e
               ∧ (inject_Z CACHE_TTL_META < clock st - ts e)%Q) →
       (∀ values,
          sheet_values (env st) !! "profile" = Some values →
          ∃ r b, fst (api_profile st) = inr r
                 ∧ read_body (heap (snd (api_profile st))) r = Some b
                 ∧ (has_key "photos_folder_id" b = true
                    ↔ ∃ headers row rest,
                        values = headers :: row :: rest
                        ∧ "photos_folder_id" ∈ headers))
       ∧ (sheet_values (env st) !! "profile" = None →
          fst (api_profile st) = inl (HttpError "sheets")))
    ∧ (∀ e, reachable st → cache st !! "profile" = Some e →
         (clock st - ts e <= inject_Z CACHE_TTL_META)%Q →
         api_profile st = (inr (data e), st)
         ∧ (∃ b, read_body (heap st) (data e) = Some b)
         ∧ ∀ w, api_profile (with_env w st) = (inr (data e), with_env w st)).
Proof.
  intros st req car_id out_l out_d.
  split; [|split; [|split; [|split; [|split; [|split]]]]].
  - intros r Hr. unfold out_l in *. rewrite api_cars_eq in *.
    destruct (cars_body _) as [r' st'] eqn:E. cbn in Hr. subst r'.
    apply (cars_body_inr _ _ _ E).
  - intros r Hr. unfold out_d in *. rewrite api_car_detail_eq in *.
    destruct (detail_body _ _) as [r' st'] eqn:E. cbn in Hr. subst r'.
    apply (detail_body_inr _ _ _ _ E).
  - apply (frame_api_cars req st).
  - apply (frame_api_car_detail car_id req st).
  - intros Hr. apply reachable_cache_inv in Hr. split; apply cache_inv_intact.
    + by apply (frame_api_cars req st).
    + by apply (frame_api_car_detail car_id req st).
  - intros Hmiss. unfold api_profile. rewrite (load_profile_miss st Hmiss).
    split.
    + intros values Hv.
      destruct (reload_profile_ok st values Hv) as (st' & E & Hh & _).
      rewrite E. cbn [fst snd]. eexists _, _. split; [reflexivity|].
      unfold read_body. rewrite Hh, lookup_last.
      cbn [obj_fields fmap option_fmap option_map].
      split; [reflexivity|]. cbn [has_key].
      rewrite has_field_map_to_list, lookup_insert_ne by discriminate.
      rewrite lookup_fmap, fmap_is_Some. apply first_record_has_key.
    + intros Hv. by rewrite (reload_profile_fail st Hv).
  - intros e Hr He Ht. unfold api_profile.
    destruct (load_profile_hit st e (reachable_profile_inv st Hr) He Ht)
      as (E & l & d & Hd & Hl).
    split; [exact E|]. split.
    + exists (BObj (map_to_list d)). unfold read_body. by rewrite Hd, Hl.
    + intros w.
      apply (load_profile_hit (with_env w st) e); [|exact He|exact Ht].
      apply reachable_profile_inv. eapply reach_step; [exact Hr|].
      apply step_world.
Qed.

Lemma car_bodies_have_no_folder_id_and_cache_is_kept_witness :
  (∃ b, read_body (heap (snd (api_cars Demo.req Demo.st0))) (HRef 5%nat) = Some b
        ∧ has_key "photos_folder_id" b = false)
  ∧ cached_cars_intact (snd (api_cars Demo.req Demo.st0))
  ∧ (∃ r b, fst (api_profile Demo.st_headers) = inr r
            ∧ read_body (heap (snd (api_profile Demo.st_headers))) r = Some b
            ∧ has_key "photos_folder_id" b ≠ true)
  ∧ api_profile (with_env Demo.w_headers (snd (api_profile Demo.st0)))
    = (inr (HRef 0%nat), with_env Demo.w_headers (snd (api_profile Demo.st0))).
Proof.
  split; [|split; [|split]].
  - destruct (car_bodies_have_no_folder_id_and_cache_is_kept Demo.st0 Demo.req "a1")
      as (Hl & _). apply Hl. vm_compute. reflexivity.
  - destruct (car_bodies_have_no_folder_id_and_cache_is_kept Demo.st0 Demo.req "a1")
      as (_ & _ & _ & _ & Hc & _). apply Hc. apply reach_boot.
  - destruct (car_bodies_have_no_folder_id_and_cache_is_kept
                Demo.st_headers Demo.req "a1")
      as (_ & _ & _ & _ & _ & Hm & _).
    destruct (Hm (or_introl eq_refl)) as [Hm' _].
    destruct (Hm' [["name"; "photos_folder_id"]] eq_refl) as (r & b & E & Hb & Hk).
    exists r, b. split; [exact E|]. split; [exact Hb|].
    intros Hn. apply Hk in Hn as (headers & row & rest & [=] & _).
  - destruct (car_bodies_have_no_folder_id_and_cache_is_kept
                (snd (api_profile Demo.st0)) Demo.req "a1")
      as (_ & _ & _ & _ & _ & _ & Hh).
    edestruct Hh as (_ & _ & Hw);
      [ eapply reach_step; [apply reach_boot | apply step_profile]
      | vm_compute; reflexivity
      | vm_compute; discriminate
      | apply Hw ].
Defined.

(** X9.  The profile is fetched at most once per window, whatever the
    profile sheet holds.  In every state the service can reach, a call of
    [load_profile] that finds a profile entry at most 1800 seconds old
    returns the entry's object and does nothing else (no remote call, no
    allocation, no write): the cached dict always has a [hero_image]
    member, so it is never taken for a miss, even when the sheet has no
    profile row.  After a call that returned, whatever requests are served
    and however the outside changes, as long as the clock is not set back
    and reads at most 1800 seconds past the entry's stamp, a further call
    returns the same object, the entry is the one the first call left and
    the object holds what it held.  The same holds in any state with the
    heap and the cache that the first call left. *)
Theorem load_profile_once_per_window :
  (∀ st e,
     reachable st → cache st !! "profile" = Some e →
     (clock st - ts e <= inject_Z CACHE_TTL_META)%Q →
     load_profile st = (inr (data e), st))
  ∧ (∀ st r st1 st2,
       reachable st → load_profile st = (inr r, st1) → later st1 st2 →
       (∀ e, cache st1 !! "profile" = Some e →
             (clock st2 - ts e <= inject_Z CACHE_TTL_META)%Q) →
       load_profile st2 = (inr r, st2)
       ∧ cache st2 !! "profile" = cache st1 !! "profile"
       ∧ ∀ l, r = HRef l → heap st2 !! l = heap st1 !! l)
  ∧ (∀ st r st1 st2,
       reachable st → load_profile st = (inr r, st1) →
       heap st2 = heap st1 → cache st2 = cache st1 →
       (∀ e, cache st1 !! "profile" = Some e →
             (clock st2 - ts e <= inject_Z CACHE_TTL_META)%Q) →
       load_profile st2 = (inr r, st2)).
Proof.
  split.
  { intros st e Hr He Ht.
    apply (load_profile_hit st e (reachable_profile_inv st Hr) He Ht). }
  split; cycle 1.
  { intros st r st1 st2 Hr H Hh Hc Ht.
    destruct (load_profile_returns st r st1 (reachable_profile_inv st Hr) H)
      as (l & d & e & -> & Hl & Hk & He & Hd).
    pose proof (get_cached_fresh "profile" CACHE_TTL_META st2 e
                  ltac:(by rewrite Hc) (Ht e He)) as Hg.
    rewrite Hd in Hg. rewrite (load_profile_cases _ _ Hg).
    rewrite (truthy_dict l d) by (by rewrite Hh).
    rewrite bool_decide_eq_false_2; [reflexivity|].
    intros ->. rewrite lookup_empty in Hk. by destruct Hk. }
  intros st r st1 st2 Hr H Hlater Ht.
  destruct (load_profile_returns st r st1 (reachable_profile_inv st Hr) H)
    as (l & d & e & -> & Hl & Hk & He & Hd).
  specialize (Ht e He).
  assert (Hr1 : reachable st1).
  { eapply reach_step; [exact Hr|]. replace st1 with (snd (api_profile st));
      [apply step_profile | unfold api_profile; by rewrite H]. }
  assert (Hinv : reachable st2 ∧ cache st2 !! "profile" = Some e
                 ∧ heap st2 !! l = Some (ODict d)).
  { clear H Hr. revert Ht.
    induction Hlater as [|s' s'' _ IH Hs Hc]; intros Ht; [auto|].
    destruct IH as (Hr' & He' & Hl'); [lra|].
    split; [by eapply reach_step|].
    assert (Hhit : load_profile s' = (inr (data e), s')).
    { apply (load_profile_hit s' e (reachable_profile_inv s' Hr') He'). lra. }
    destruct Hs as [s w | s t | s t | s | s | s req | s car_id req].
    - auto.
    - auto.
    - auto.
    - split; [exact He'|].
      eapply prefix_lookup_Some; [exact Hl' | apply (frame_health s)].
    - unfold api_profile. rewrite Hhit. auto.
    - split.
      + rewrite <- He'. apply (cars_handlers_keep_profile s req "").
      + eapply prefix_lookup_Some; [exact Hl' | apply (frame_api_cars req s)].
    - split.
      + rewrite <- He'. apply (cars_handlers_keep_profile s req car_id).
      + eapply prefix_lookup_Some;
          [exact Hl' | apply (frame_api_car_detail car_id req s)]. }
  destruct Hinv as (Hr2 & He2 & Hl2).
  split; [|split].
  - rewrite <- Hd.
    apply (load_profile_hit st2 e (reachable_profile_inv st2 Hr2) He2 Ht).
  - by rewrite He2, He.
  - intros l' [= <-]. by rewrite Hl2, Hl.
Qed.

Lemma load_profile_once_per_window_witness :
  load_profile
    (with_clock 1800
       (with_env Demo.w_down
          (snd (api_cars Demo.req (snd (load_profile Demo.st0))))))
  = (inr (HRef 0%nat),
     with_clock 1800
       (with_env Demo.w_down
          (snd (api_cars Demo.req (snd (load_profile Demo.st0))))))
  ∧ length (heap (snd (load_profile Demo.st0))) = 1%nat
  ∧ length (heap (snd (api_cars Demo.req (snd (load_profile Demo.st0))))) = 7%nat.
Proof.
  split; [|split; vm_compute; reflexivity].
  destruct load_profile_once_per_window as (_ & H & _).
  apply (H Demo.st0 (HRef 0%nat) (snd (load_profile Demo.st0))).
  - apply reach_boot.
  - vm_compute. reflexivity.
  - eapply later_step;
      [eapply later_step;
        [eapply later_step; [apply later_refl | apply (step_cars _ Demo.req) |]
        | apply (step_world _ Demo.w_down) |]
      | apply (step_clock _ 1800) |]; vm_compute; discriminate.
  - intros e He. vm_compute in He. injection He as <-. vm_compute. discriminate.
Defined.

(** X10.  Every body that the profile endpoint returns has a
    [hero_image] member, and the object returned is the one held in the
    cache. *)
Theorem api_profile_body_has_hero_image :
  ∀ st r st',
    reachable st → api_profile st = (inr r, st') →
    ∃ b e, read_body (heap st') r = Some b
           ∧ has_key "hero_image" b = true
           ∧ cache st' !! "profile" = Some e ∧ data e = r.
Proof.
  intros st r st' Hr H.
  destruct (load_profile_returns st r st' (reachable_profile_inv st Hr) H)
    as (l & d & e & -> & Hl & Hk & He & Hd).
  exists (BObj (map_to_list d)), e. split.
  - unfold read_body. rewrite Hl. reflexivity.
  - split; [by apply has_field_map_to_list|]. auto.
Qed.

Lemma api_profile_body_has_hero_image_witness :
  ∃ b e, read_body (heap (snd (api_profile Demo.st_bare))) (HRef 0%nat) = Some b
         ∧ has_key "hero_image" b = true
         ∧ cache (snd (api_profile Demo.st_bare)) !! "profile" = Some e
         ∧ data e = HRef 0%nat.
Proof.
  apply (api_profile_body_has_hero_image Demo.st_bare).
  - apply reach_boot.
  - vm_compute. reflexivity.
Defined.

(** ** A miss reloads every listed row once *)

Lemma Forall2_perm_l {A B} (R : A → B → Prop) (x y : list A) (cs : list B) :
  x ≡ₚ y → Forall2 R x cs → ∃ cs', cs ≡ₚ cs' ∧ Forall2 R y cs'.
Proof.
  intros P. revert cs.
  induction P as [|a x y P IH|a b x|x y z P1 IH1 P2 IH2]; intros cs F.
  - exists cs. split; [reflexivity | exact F].
  - inversion F as [|? c ? cs0 Hc F0]; subst.
    destruct (IH cs0 F0) as (cs' & Pc & F').
    exists (c :: cs'). split; [by constructor | by constructor].
  - inversion F as [|? c1 ? cs1 Hc1 F1]; subst.
    inversion F1 as [|? c2 ? cs2 Hc2 F2]; subst.
    exists (c2 :: c1 :: cs2). split; [apply Permutation_swap|].
    by repeat constructor.
  - destruct (IH1 cs F) as (cs1 & Pc1 & F1).
    destruct (IH2 cs1 F1) as (cs2 & Pc2 & F2).
    exists cs2. split; [by etrans | exact F2].
Qed.

Lemma cars_of_items h l items cs :
  h !! l = Some (OList items) →
  Forall2 (fun i c => h !! i = Some (OCar c)) items cs →
  cars_of h (HRef l) = Some cs.
Proof.
  intros Hl F. unfold cars_of. rewrite Hl. apply mapM_Some_2.
  eapply Forall2_impl; [exact F|]. intros i c Hi. cbn. by rewrite Hi.
Qed.

Lemma fresh_cars_at (h : list obj) (cs : list Car.t) (tl : list obj) :
  Forall2 (fun i c => (h ++ map OCar cs ++ tl) !! i = Some (OCar c))
          (seq (length h) (length cs)) cs.
Proof.
  apply Forall2_same_length_lookup_2.
  - by rewrite length_seq.
  - intros j i c Hi Hc. apply lookup_seq in Hi as [-> Hj].
    rewrite lookup_app_r by lia.
    replace (length h + j - length h)%nat with j by lia.
    rewrite lookup_app_l by (rewrite length_map; lia).
    change (map OCar cs) with (OCar <$> cs).
    rewrite list_lookup_fmap, Hc. reflexivity.
Qed.

(** X11.  On a miss with the sheet readable, [load_cars] makes one read
    of the cars tab and returns a rearrangement of the cars built from the
    listed rows: each listed row gives exactly one car, none is lost or
    doubled by the shuffle.  The list is cached with the time at which the
    read had finished, and no object that existed before is changed. *)
Theorem load_cars_miss_rearranges_listed_rows :
  ∀ st h values,
    get_cached "cars" CACHE_TTL_CARS st = (inr h, st) →
    truthy h st = (inr false, st) →
    sheet_values (env st) !! "cars" = Some values →
    ∃ r st' cs,
      load_cars st = (inr r, st')
      ∧ cars_of (heap st') r = Some cs
      ∧ cs ≡ₚ map car_of_row (List.filter row_listed (records_of values))
      ∧ calls st' = calls st ++ [SheetsGet "cars"]
      ∧ cache st' !! "cars"
        = Some {| data := r; ts := (clock st + latency (env st))%Q |}
      ∧ heap st `prefix_of` heap st'.
Proof.
  intros st h values Hg Ht Hv.
  rewrite (load_cars_cases _ _ Hg), Ht.
  destruct (reload_cars_ok st values Hv) as (x' & t & P & E).
  set (kept := List.filter row_listed (records_of values)) in *.
  set (new := map (fun r => OCar (car_of_row r)) kept) in *.
  assert (Hnew : new = map OCar (map car_of_row kept))
    by (unfold new; by rewrite map_map).
  pose proof (fresh_cars_at (heap st) (map car_of_row kept) [OList x']) as F.
  rewrite length_map, <- Hnew in F.
  symmetry in P. destruct (Forall2_perm_l _ _ _ _ P F) as (cs & Pc & Fc).
  eexists _, _, cs. split; [exact E|]. cbn [heap calls cache].
  split; [|split; [by symmetry|split; [reflexivity|split]]].
  - apply (cars_of_items _ _ x'); [|exact Fc].
    unfold new. apply lookup_after_map.
  - apply lookup_insert_eq.
  - by apply prefix_app_r.
Qed.

Lemma load_cars_miss_rearranges_listed_rows_witness :
  ∃ r st' cs,
    load_cars Demo.st0 = (inr r, st')
    ∧ cars_of (heap st') r = Some cs
    ∧ cs ≡ₚ map car_of_row (List.filter row_listed (records_of Demo.cars_tab)).
Proof.
  destruct (load_cars_miss_rearranges_listed_rows Demo.st0 HNone Demo.cars_tab)
    as (r & st' & cs & H1 & H2 & H3 & _); [reflexivity..|].
  exists r, st', cs. auto.
Defined.

(** ** The list endpoint, car by car *)

Lemma cars_of_inv h r cs :
  cars_of h r = Some cs →
  ∃ l items, r = HRef l ∧ h !! l = Some (OList items)
             ∧ Forall2 (fun i c => h !! i = Some (OCar c)) items cs.
Proof.
  destruct r as [|l]; [discriminate|]. unfold cars_of.
  destruct (h !! l) as [[d|c|items]|] eqn:Hl; try discriminate.
  intros H. exists l, items. split; [reflexivity|]. split; [exact Hl|].
  apply mapM_Some_1 in H. eapply Forall2_impl; [exact H|].
  intros i c Hi. cbn in Hi. destruct (h !! i) as [[]|]; congruence.
Qed.

Lemma after_drive_env f st : env (after_drive f st) = env st.
Proof. destruct f as [[|a s]|]; reflexivity. Qed.

Lemma enrich_all_eq items cs result st :
  Forall2 (fun i c => heap st !! i = Some (OCar c)) items cs →
  Forall (fun c => is_Some (folder_photos (env st) (Car.photos_folder_id c))) cs →
  ∃ st',
    enrich_all items result st
    = (inr (result ++ seq (length (heap st)) (length cs)), st')
    ∧ heap st' = heap st ++ map OCar (map (listed_view (env st)) cs)
    ∧ env st' = env st ∧ cache st' = cache st.
Proof.
  revert cs result st. induction items as [|i items IH];
    intros cs0 result st F0 Hp0.
  - inversion F0; subst. exists st. cbn. rewrite !app_nil_r. auto.
  - inversion F0 as [|? c ? cs Hi F]; subst.
    apply Forall_cons in Hp0 as [[ps Hps] Hp]. cbn [enrich_all].
    unfold bind at 1. rewrite (enrich_cover_eq _ _ _ Hi), Hps.
    cbv beta iota. set (st1 := with_heap _ _).
    assert (He : env st1 = env st) by apply after_drive_env.
    assert (Hh : heap st1 = heap st ++ [OCar (listed_view (env st) c)]).
    { unfold st1, listed_view. cbn. by rewrite Hps. }
    assert (Hc : cache st1 = cache st) by apply after_drive_quiet.
    destruct (IH cs (result ++ [length (heap st)]) st1)
      as (st' & E & Hh' & He' & Hc').
    + eapply Forall2_impl; [exact F|]. intros j d Hj.
      rewrite Hh. by apply lookup_app_l_Some.
    + by rewrite He.
    + exists st'. split.
      { etrans; [exact E|]. do 2 f_equal.
        rewrite Hh, length_app, Nat.add_1_r, <- app_assoc. reflexivity. }
      rewrite Hh', He', Hc', He, Hh, Hc, <- app_assoc. auto.
Qed.

Lemma enrich_all_fails items cs result st :
  Forall2 (fun i c => heap st !! i = Some (OCar c)) items cs →
  Exists (fun c => folder_photos (env st) (Car.photos_folder_id c) = None) cs →
  fst (enrich_all items result st) = inl (HttpError "drive").
Proof.
  revert cs result st. induction items as [|i items IH];
    intros cs0 result st F0 Hex.
  - inversion F0; subst. by apply Exists_nil in Hex.
  - inversion F0 as [|? c ? cs Hi F]; subst.
    cbn [enrich_all]. unfold bind at 1. rewrite (enrich_cover_eq _ _ _ Hi).
    destruct (folder_photos (env st) (Car.photos_folder_id c)) as [ps|] eqn:Hps;
      [|reflexivity].
    apply Exists_cons in Hex as [Hex|Hex]; [congruence|].
    cbv beta iota. apply (IH cs).
    + eapply Forall2_impl; [exact F|]. intros j d Hj. cbn.
      by apply lookup_app_l_Some.
    + cbn [env with_heap]. by rewrite after_drive_env.
Qed.

(** X13.  With [cs] the cars of the list that [load_cars] gives the list
    handler: when every car's folder can be listed, the handler returns a
    new list with one new car dict per car of [cs], in the same order and
    with the same ids, each carrying as cover the first image of its
    folder ([None] when there is none) and no folder id; when some car's
    folder cannot be listed, the whole request fails with that error and
    no partial list is returned. *)
Theorem api_cars_returns_every_car_in_order :
  ∀ st req cars st1 cs,
    load_cars (logged req None st) = (inr cars, st1) →
    cars_of (heap st1) cars = Some cs →
    (Forall (fun c => is_Some (folder_photos (env st1) (Car.photos_folder_id c))) cs →
     ∃ r st',
       api_cars req st = (inr (HRef r), st')
       ∧ heap st1 !! r = None
       ∧ cars_of (heap st') (HRef r) = Some (map (listed_view (env st1)) cs)
       ∧ map Car.id (map (listed_view (env st1)) cs) = map Car.id cs
       ∧ heap st1 `prefix_of` heap st')
    ∧ (Exists (fun c => folder_photos (env st1) (Car.photos_folder_id c) = None) cs →
       fst (api_cars req st) = inl (HttpError "drive")
       ∧ status_code_of (fst (api_cars req st)) = 500).
Proof.
  intros st req cars st1 cs H Hcs.
  destruct (cars_of_inv _ _ _ Hcs) as (l & items & -> & Hl & F).
  assert (E0 : api_cars req st
               = (result <- enrich_all items [] ;;
                  l <- alloc (OList result) ;; ret (HRef l)) st1).
  { rewrite api_cars_eq. unfold cars_body. unfold bind at 1. rewrite H.
    unfold bind at 1. by rewrite (list_items_eq _ _ _ Hl). }
  rewrite !E0. clear E0. split.
  - intros Hp. destruct (enrich_all_eq items cs [] st1 F Hp)
      as (st2 & E & Hh & He & Hc).
    unfold bind at 1. rewrite E. cbv [bind alloc ret]. rewrite Hh.
    eexists _, _. split; [reflexivity|]. cbn [heap with_heap app].
    split; [apply lookup_ge_None; rewrite length_app; lia|].
    split; [|split].
    + apply (cars_of_items _ _ (seq (length (heap st1)) (length cs))).
      * apply lookup_last.
      * rewrite <- app_assoc, <- (length_map (listed_view (env st1)) cs).
        apply fresh_cars_at.
    + rewrite map_map. reflexivity.
    + rewrite <- app_assoc. by apply prefix_app_r.
  - intros Hex. pose proof (enrich_all_fails items cs [] st1 F Hex) as E.
    unfold bind.
    destruct (enrich_all items [] st1) as [[e|a] s2]; cbn in E;
      [|discriminate].
    injection E as ->. split; reflexivity.
Qed.

Lemma api_cars_returns_every_car_in_order_witness :
  ∃ r st',
    api_cars Demo.req Demo.st0 = (inr (HRef r), st')
    ∧ (map Car.cover_image <$> cars_of (heap st') (HRef r))
      = Some [Some (Some "https://lh3.googleusercontent.com/d/p1=w1200");
              Some None].
Proof.
  pose (st1 := snd (load_cars (logged Demo.req None Demo.st0))).
  pose (cs := default [] (cars_of (heap st1) (HRef 2%nat))).
  destruct (api_cars_returns_every_car_in_order Demo.st0 Demo.req (HRef 2%nat)
              st1 cs) as [H _].
  - vm_compute. reflexivity.
  - vm_compute. reflexivity.
  - destruct H as (r & st' & E & _ & Hc & _).
    + vm_compute. repeat constructor; eauto.
    + exists r, st'. split; [exact E|]. rewrite Hc. vm_compute. reflexivity.
Defined.

(** ** Currency text *)

Lemma remove_char_app c (a b : string) :
  PyStr.remove_char c (a ++ b)%string
  = (PyStr.remove_char c a ++ PyStr.remove_char c b)%string.
Proof.
  induction a as [|d a IH]; [reflexivity|].
  rewrite str_app_cons. cbn [PyStr.remove_char].
  destruct (Ascii.eqb d c); [exact IH | by rewrite str_app_cons, IH].
Qed.

Lemma remove_char_comm c d s :
  PyStr.remove_char c (PyStr.remove_char d s)
  = PyStr.remove_char d (PyStr.remove_char c s).
Proof.
  induction s as [|e s IH]; [reflexivity|]. cbn [PyStr.remove_char].
  destruct (Ascii.eqb e d) eqn:Ed, (Ascii.eqb e c) eqn:Ec;
    cbn [PyStr.remove_char]; rewrite ?Ed, ?Ec, ?IH; reflexivity.
Qed.

Lemma py_float_empty : py_float "" = None.
Proof. reflexivity. Qed.

(** The text that [parse_float] hands to [float]. *)
Lemma parse_float_some s :
  parse_float (Some s)
  = py_float (PyStr.strip (PyStr.remove_char "," (PyStr.remove_char "$" s))).
Proof.
  unfold parse_float. destruct s as [|c s]; [reflexivity | reflexivity].
Qed.

(** X14.  [parse_float] ignores every dollar sign and every comma,
    wherever it stands: with or without such a character at any place the
    result is the same, so ["1,2$"] parses as 12. *)
Theorem parse_float_ignores_marks :
  ∀ a b : string,
    parse_float (Some (a ++ "$" ++ b)%string) = parse_float (Some (a ++ b)%string)
    ∧ parse_float (Some (a ++ "," ++ b)%string) = parse_float (Some (a ++ b)%string).
Proof.
  intros a b. rewrite !parse_float_some. split.
  - by rewrite !(remove_char_app "$" a).
  - rewrite !(remove_char_comm "," "$"), !(remove_char_app "," a). reflexivity.
Qed.

(** ** Ids are trimmed *)

Lemma rstrip_idem s : PyStr.rstrip (PyStr.rstrip s) = PyStr.rstrip s.
Proof.
  induction s as [|c s IH]; [reflexivity|]. cbn [PyStr.rstrip].
  destruct (PyStr.rstrip s) as [|d r] eqn:E.
  - destruct (PyStr.is_space c) eqn:Ec; [reflexivity|].
    cbn. by rewrite Ec.
  - cbn [PyStr.rstrip]. cbn [PyStr.rstrip] in IH. by rewrite IH.
Qed.

Lemma lstrip_head s :
  PyStr.lstrip s = "" ∨ ∃ c t, PyStr.lstrip s = String c t ∧ PyStr.is_space c = false.
Proof.
  induction s as [|c s IH]; [by left|]. cbn.
  destruct (PyStr.is_space c) eqn:E; [exact IH | right; eauto].
Qed.

Lemma rstrip_head c t :
  PyStr.is_space c = false → ∃ r, PyStr.rstrip (String c t) = String c r.
Proof.
  intros E. cbn. rewrite E. destruct (PyStr.rstrip t); eauto.
Qed.

(** [strip] is idempotent: what it returns has nothing left to trim. *)
Lemma strip_idem s : PyStr.strip (PyStr.strip s) = PyStr.strip s.
Proof.
  unfold PyStr.strip. destruct (lstrip_head s) as [E|(c & t & E & Hc)].
  - rewrite E. reflexivity.
  - rewrite E. destruct (rstrip_head c t Hc) as [r Hr].
    rewrite Hr. cbn [PyStr.lstrip]. rewrite Hc, <- Hr. apply rstrip_idem.
Qed.

Lemma listed_car_id_trimmed c :
  listed_car c → PyStr.strip (Car.id c) = Car.id c ∧ Car.id c ≠ "".
Proof.
  intros Hc. split; [|by apply listed_car_fields].
  destruct Hc as (r & _ & ->). cbn. unfold row_car_id. apply strip_idem.
Qed.

(** X15.  The ids in the car list are trimmed and non-empty, and the
    detail handler compares the requested id as it is: a request whose id
    is empty or carries white space at either end ends with 404, whatever
    the sheet holds, whenever the car list can be loaded. *)
Theorem api_car_detail_untrimmed_id_is_404 :
  ∀ st car_id req cars st1,
    reachable st →
    load_cars (logged req (Some car_id) st) = (inr cars, st1) →
    (∃ cs, cars_of (heap st1) cars = Some cs
           ∧ Forall (fun c => PyStr.strip (Car.id c) = Car.id c ∧ Car.id c ≠ "") cs)
    ∧ (PyStr.strip car_id ≠ car_id ∨ car_id = "" →
       fst (api_car_detail car_id req st) = inl (HTTPException 404 "Car not found")).
Proof.
  intros st car_id req cars st1 Hr H.
  assert (Hinv : cache_inv (logged req (Some car_id) st)).
  { apply (quiet_frame _ _ (logged_quiet req (Some car_id) st)).
    by apply reachable_cache_inv. }
  destruct (load_cars_returns _ _ _ Hinv H) as (l & items & e & -> & Hl & Hok & _).
  destruct (cars_ok_cars_of _ _ _ Hl Hok) as (cs & Hcs & F & _).
  assert (Ft : Forall (fun c => PyStr.strip (Car.id c) = Car.id c ∧ Car.id c ≠ "") cs).
  { eapply Forall_impl; [exact F|]. apply listed_car_id_trimmed. }
  split; [eauto|]. intros Hbad.
  rewrite api_car_detail_eq, (detail_body_eq car_id _ _ st1 cs Hinv H Hcs).
  assert (Hno : Forall (fun c => Car.id c ≠ car_id) cs).
  { eapply Forall_impl; [exact Ft|]. intros c [H1 H2] <-.
    destruct Hbad as [Hbad|Hbad]; auto. }
  apply find_none_iff in Hno. rewrite Hno. reflexivity.
Qed.

Lemma api_car_detail_untrimmed_id_is_404_witness :
  fst (api_car_detail "a1 " Demo.req_detail Demo.st0)
  = inl (HTTPException 404 "Car not found").
Proof.
  destruct (api_car_detail_untrimmed_id_is_404 Demo.st0 "a1 " Demo.req_detail
              (HRef 2%nat)
              (snd (load_cars (logged Demo.req_detail (Some "a1 ") Demo.st0))))
    as [_ H].
  - apply reach_boot.
  - vm_compute. reflexivity.
  - apply H. left. discriminate.
Defined.

(** ** Failing photo listings *)

(** X16.  When the car is found and the listing of its folder raises,
    the detail request fails with that error (status 500, not 404); the
    cache is what [load_cars] left and the cached car is untouched. *)
Theorem api_car_detail_listing_failure :
  ∀ st car_id req cars st1 cs base,
    reachable st →
    load_cars (logged req (Some car_id) st) = (inr cars, st1) →
    cars_of (heap st1) cars = Some cs →
    List.find (fun c => String.eqb (Car.id c) car_id) cs = Some base →
    folder_photos (env st1) (Car.photos_folder_id base) = None →
    fst (api_car_detail car_id req st) = inl (HttpError "drive")
    ∧ status_code_of (fst (api_car_detail car_id req st)) = 500
    ∧ cache (snd (api_car_detail car_id req st)) = cache st1
    ∧ heap st1 `prefix_of` heap (snd (api_car_detail car_id req st))
    ∧ cars_of (heap (snd (api_car_detail car_id req st))) cars = Some cs.
Proof.
  intros st car_id req cars st1 cs base Hr H Hcs Hf Hp.
  assert (Hinv : cache_inv (logged req (Some car_id) st)).
  { apply (quiet_frame _ _ (logged_quiet req (Some car_id) st)).
    by apply reachable_cache_inv. }
  rewrite api_car_detail_eq, (detail_body_eq car_id _ _ st1 cs Hinv H Hcs), Hf, Hp.
  cbn [fst snd status_code_of heap cache with_heap].
  split; [reflexivity|]. split; [reflexivity|].
  split; [apply after_drive_quiet|]. split; [by apply prefix_app_r|].
  destruct (cars_of_inv _ _ _ Hcs) as (l & items & -> & Hl & F).
  apply (cars_of_items _ _ items).
  - by apply lookup_app_l_Some.
  - eapply Forall2_impl; [exact F|]. intros i c Hi. by apply lookup_app_l_Some.
Qed.

Lemma api_car_detail_listing_failure_witness :
  fst (api_car_detail "a1" Demo.req_detail
         (with_env (with_sheet "cars" Demo.cars_tab Demo.w_status) Demo.st0))
  = inl (HttpError "drive").
Proof.
  pose (st := with_env (with_sheet "cars" Demo.cars_tab Demo.w_status) Demo.st0).
  pose (st1 := snd (load_cars (logged Demo.req_detail (Some "a1") st))).
  pose (cs := default [] (cars_of (heap st1) (HRef 2%nat))).
  pose (base := default (car_of_row ∅) (head cs)).
  destruct (api_car_detail_listing_failure st "a1" Demo.req_detail (HRef 2%nat)
              st1 cs base) as [H _].
  - apply (reach_step Demo.st0); [apply reach_boot | apply step_world].
  - vm_compute. reflexivity.
  - vm_compute. reflexivity.
  - vm_compute. reflexivity.
  - vm_compute. reflexivity.
  - exact H.
Defined.

(** ** What a freshly loaded profile holds *)

(** X17.  On a miss with the profile tab readable, the profile endpoint
    returns a new dict made of the first profile row, every cell under its
    header, plus [hero_image]: the URL of the first image of the hero
    folder, or [None] when that folder has no image or cannot be listed.
    A failing file service therefore never fails the profile.  With no
    profile row the dict has [hero_image] only.  The dict is cached. *)
Theorem api_profile_loads_row_and_hero :
  ∀ st h values,
    get_cached "profile" CACHE_TTL_META st = (inr h, st) →
    truthy h st = (inr false, st) →
    sheet_values (env st) !! "profile" = Some values →
    let row := default ∅ (head (records_of values)) in
    let hero := match drive_files (env st) !! HERO_FOLDER_ID with
                | Some files => first_url (map photo_of (List.filter is_image files))
                | None => None
                end in
    ∃ st',
      api_profile st = (inr (HRef (length (heap st))), st')
      ∧ heap st !! length (heap st) = None
      ∧ heap st' !! length (heap st)
        = Some (ODict (<["hero_image" := opt_val VStr hero]> (VStr <$> row)))
      ∧ cache st' !! "profile"
        = Some {| data := HRef (length (heap st)); ts := clock st' |}
      ∧ (∀ k, k ≠ "hero_image" →
              (<["hero_image" := opt_val VStr hero]> (VStr <$> row)) !! k
              = VStr <$> row !! k)
      ∧ (values = [] ∨ (∃ hs, values = [hs]) → row = ∅).
Proof.
  intros st h values Hg Ht Hv row hero. unfold api_profile.
  rewrite (load_profile_cases _ _ Hg), Ht.
  destruct (reload_profile_ok st values Hv) as (st' & E & Hh & Hc & _).
  assert (Hhero : folder_photos (env st) (Some HERO_FOLDER_ID) ≫= first_url = hero).
  { unfold hero. cbn [folder_photos HERO_FOLDER_ID]. fold HERO_FOLDER_ID.
    by destruct (drive_files (env st) !! HERO_FOLDER_ID). }
  rewrite Hhero in Hh.
  exists st'. split; [exact E|].
  split; [apply lookup_ge_None; lia|]. split.
  - rewrite Hh, lookup_last. reflexivity.
  - split; [rewrite Hc; apply lookup_insert_eq|]. split.
    + intros k Hk. rewrite lookup_insert_ne by congruence. apply lookup_fmap.
    + intros [->|[hs ->]]; reflexivity.
Qed.

Lemma api_profile_loads_row_and_hero_witness :
  ∃ st', api_profile Demo.st0 = (inr (HRef 0%nat), st')
         ∧ heap st' !! 0%nat
           = Some (ODict (<["hero_image" := VNone]>
                            (VStr <$> {[ "name" := "Bob";
                                         "photos_folder_id" := "xyz" ]}))).
Proof.
  destruct (api_profile_loads_row_and_hero Demo.st0 HNone
              [["name"; "photos_folder_id"]; ["Bob"; "xyz"]])
    as (st' & H1 & _ & H2 & _); [reflexivity..|].
  exists st'. split; [exact H1|].
  etrans; [exact H2 | vm_compute; reflexivity].
Defined.
